(** * GalSim lookup tables ([src/Table.cpp]): a shallow embedding

    The development follows [src/Table.cpp]: the argument vector [ArgVec]
    with its index search [upperIndex], the one-dimensional table
    ([TableImpl], [Table]) with its five interpolation rules and the spline
    set-up, and the two-dimensional interpolators ([T2DLinearInterp],
    [T2DFloorInterp], [T2DCeilInterp], [T2DNearestInterp]) behind
    [Table2D].

    Modelling conventions.
    - A C++ [double] is an exact rational ([Q]); comparisons [<], [>], [==]
      are the comparisons of [Q] and [std::ceil] is [Qceiling].  Rounding,
      infinities and NaN are therefore outside this model: a statement
      about it is a statement over exact arithmetic.
    - Where rounding or a NaN decides, the module [IEEE] repeats the
      one-dimensional table over primitive binary64 floats; it evaluates
      the source on concrete doubles.
    - A C++ [int] is a [Z]; the indices met here stay between [-1] and the
      array length, so no wrap-around is written out.
    - A caller-owned array ([const double*]) is a [list Q]; every read of
      such an array on the lookup path goes through [rd], which fails with
      [OutOfBounds] outside the list.  The length argument [N] is passed
      separately, as in the source.
    - Exceptions, failed debug assertions, out-of-bounds reads and loops
      that do not finish are the errors of the [result] monad.
    - The mutable cursor [_lastIndex] is a field of [ArgVec]; a member
      function that may change it returns the updated object. *)

From Stdlib Require Import QArith Qround Qabs ZArith List Lia Lra Psatz Bool String.
From Stdlib Require Import Floats Uint63.
From Stdlib Require Import Setoid Morphisms.
Import ListNotations.

Local Open Scope Z_scope.
Local Open Scope Q_scope.

(** ** Errors and the result monad *)

Inductive error : Type :=
| OutOfBounds                 (* read outside an array: undefined behaviour *)
| OutOfFuel                   (* a loop that did not finish *)
| AssertionFailed             (* a failed xassert *)
| LengthError                 (* std::vector of a negative size *)
| RuntimeError (msg : string) (* throw std::runtime_error(msg) *)
| UndefinedConversion         (* int(x) of a NaN, an infinity or a value
                                 outside int: undefined behaviour *).

Inductive result (A : Type) : Type :=
| Ok (a : A)
| Err (e : error).

Arguments Ok {A} a.
Arguments Err {A} e.

Definition bind {A B : Type} (r : result A) (k : A -> result B) : result B :=
  match r with
  | Ok a => k a
  | Err e => Err e
  end.

Notation "x <- r ;; k" := (bind r (fun x => k))
  (at level 61, r at next level, right associativity).
Notation "' pat <- r ;; k" := (bind r (fun x => match x with pat => k end))
  (at level 61, pat pattern, r at next level, right associativity).

(** [xassert(b)] of the source.  The macro is compiled only in debugging
    builds; the theorems below show that no assertion of the lookup path
    fails, so both builds behave alike there. *)
Definition xassert (b : bool) : result unit :=
  if b then Ok tt else Err AssertionFailed.

(** ** Doubles and arrays *)

(** [x < y] on doubles. *)
Definition Qltb (x y : Q) : bool := negb (Qle_bool y x).

(** Checked read [v[i]] of a caller-owned array. *)
Definition rd (v : list Q) (i : Z) : result Q :=
  if ((0 <=? i) && (i <? Z.of_nat (List.length v)))%Z
  then Ok (nth (Z.to_nat i) v 0)
  else Err OutOfBounds.

(** Unchecked read and write of a [std::vector<double>] whose size is fixed
    by the surrounding loop bounds (used by the spline set-up). *)
Definition get (v : list Q) (i : Z) : Q := nth (Z.to_nat i) v 0.

Fixpoint upd_nat (v : list Q) (i : nat) (x : Q) : list Q :=
  match v, i with
  | [], _ => []
  | _ :: t, O => x :: t
  | h :: t, S j => h :: upd_nat t j x
  end.

Definition upd (v : list Q) (i : Z) (x : Q) : list Q :=
  if (i <? 0)%Z then v else upd_nat v (Z.to_nat i) x.

(** [for (int i = lo; count iterations; i++) s = body(i, s)], with a body
    that may fail. *)
Fixpoint for_loop {S : Type} (count : nat) (i : Z)
         (body : Z -> S -> result S) (s : S) : result S :=
  match count with
  | O => Ok s
  | Datatypes.S k => s' <- body i s ;; for_loop k (i + 1)%Z body s'
  end.

(** The same loop with a body that cannot fail, counting up or down. *)
Fixpoint for_up {S : Type} (count : nat) (i : Z) (body : Z -> S -> S) (s : S) : S :=
  match count with
  | O => s
  | Datatypes.S k => for_up k (i + 1)%Z body (body i s)
  end.

Fixpoint for_down {S : Type} (count : nat) (i : Z) (body : Z -> S -> S) (s : S) : S :=
  match count with
  | O => s
  | Datatypes.S k => for_down k (i - 1)%Z body (body i s)
  end.

(** ** ArgVec *)

Module ArgVec.

Record t : Type := mk {
  _vec : list Q;
  _n : Z;
  _lower_slop : Q;
  _upper_slop : Q;
  _equalSpaced : bool;
  _da : Q;
  _lastIndex : Z   (* mutable *)
}.

Definition set_lastIndex (v : t) (i : Z) : t :=
  mk (_vec v) (_n v) (_lower_slop v) (_upper_slop v) (_equalSpaced v) (_da v) i.

Definition front (v : t) : result Q := rd (_vec v) 0.
Definition back (v : t) : result Q := rd (_vec v) (_n v - 1).
(** [operator[]] *)
Definition at_ (v : t) (i : Z) : result Q := rd (_vec v) i.

Definition tolerance : Q := 1 # 100.

(** One iteration of the constructor's spacing test. *)
Definition spacing_step (vec : list Q) (da : Q) (i : Z) (eq : bool) : result bool :=
  vi <- rd vec i ;;
  v0 <- rd vec 0 ;;
  if Qltb tolerance (Qabs ((vi - v0) / da - inject_Z i)) then Ok false else Ok eq.

(** [ArgVec::ArgVec(const double* vec, int n)] *)
Definition new (vec : list Q) (n : Z) : result t :=
  bk <- rd vec (n - 1) ;;
  fr <- rd vec 0 ;;
  let da := (bk - fr) / inject_Z (n - 1) in
  eq <- for_loop (Z.to_nat (n - 1)) 1%Z (spacing_step vec da) true ;;
  v1 <- rd vec 1 ;;
  v0 <- rd vec 0 ;;
  vn1 <- rd vec (n - 1) ;;
  vn2 <- rd vec (n - 2) ;;
  Ok (mk vec n ((v1 - v0) * (1 # 1000000)) ((vn1 - vn2) * (1 # 1000000)) eq da 1%Z).

(** [while (a > _vec[i]) ++i;]  The loops of the lookup path carry a
    [fuel] that bounds their iterations; a loop that uses it up ends in
    [OutOfFuel]. *)
Fixpoint nudge_up (fuel : nat) (vec : list Q) (a : Q) (i : Z) : result Z :=
  match fuel with
  | O => Err OutOfFuel
  | S f =>
      vi <- rd vec i ;;
      if Qltb vi a then nudge_up f vec a (i + 1)%Z else Ok i
  end.

(** [while (a < _vec[i-1]) --i;] *)
Fixpoint nudge_down (fuel : nat) (vec : list Q) (a : Q) (i : Z) : result Z :=
  match fuel with
  | O => Err OutOfFuel
  | S f =>
      vi <- rd vec (i - 1) ;;
      if Qltb a vi then nudge_down f vec a (i - 1)%Z else Ok i
  end.

(** The two correction loops, started from a first estimate [i]. *)
Definition nudge (v : t) (a : Q) (i : Z) : result Z :=
  let fuel := S (List.length (_vec v)) in
  i <- nudge_up fuel (_vec v) a i ;;
  nudge_down fuel (_vec v) a i.

(** The first estimate of the equal-spaced branch, with its two
    corrections for rounding. *)
Definition estimate (v : t) (fr : Q) (a : Q) : Z :=
  let i := Qceiling ((a - fr) / _da v) in
  let i := if (i >=? _n v)%Z then (i - 1)%Z else i in
  if (i =? 0)%Z then (i + 1)%Z else i.

(** The equal-spaced branch of [upperIndex]. *)
Definition upperIndex_equalSpaced (v : t) (a : Q) : result Z :=
  fr <- front v ;;
  nudge v a (estimate v fr a).

(** [std::upper_bound(first, first+len, a)]: the first position whose
    element is greater than [a], by the bisection loop of the standard
    library ([len] halves at every step; [fuel] bounds the number of
    steps). *)
Fixpoint upper_bound (fuel : nat) (vec : list Q) (first len : Z) (a : Q) : result Z :=
  if (len <=? 0)%Z then Ok first else
  match fuel with
  | O => Err OutOfFuel
  | S f =>
      let half := Z.shiftr len 1 in
      let middle := (first + half)%Z in
      vm <- rd vec middle ;;
      if Qltb a vm then upper_bound f vec first half a
      else upper_bound f vec (middle + 1)%Z (len - half - 1)%Z a
  end.

(** [std::lower_bound(first, first+len, a)]: the first position whose
    element is not less than [a], by bisection. *)
Fixpoint lower_bound (fuel : nat) (vec : list Q) (first len : Z) (a : Q) : result Z :=
  if (len <=? 0)%Z then Ok first else
  match fuel with
  | O => Err OutOfFuel
  | S f =>
      let half := Z.shiftr len 1 in
      let middle := (first + half)%Z in
      vm <- rd vec middle ;;
      if Qltb vm a then lower_bound f vec (middle + 1)%Z (len - half - 1)%Z a
      else lower_bound f vec first half a
  end.

(** The cursor branch of [upperIndex]. *)
Definition upperIndex_search (v : t) (a : Q) : result (Z * t) :=
  let last := _lastIndex v in
  _ <- xassert (last >=? 1)%Z ;;
  _ <- xassert (last <? _n v)%Z ;;
  lo <- rd (_vec v) (last - 1) ;;
  if Qltb a lo then
    _ <- xassert (last - 2 >=? 0)%Z ;;
    prev <- rd (_vec v) (last - 2) ;;
    if Qle_bool prev a then
      Ok ((last - 1)%Z, set_lastIndex v (last - 1))
    else
      p <- upper_bound (Z.to_nat (last - 1)) (_vec v) 0 (last - 1) a ;;
      _ <- xassert (negb (p =? 0)%Z) ;;
      _ <- xassert (negb (p =? last - 1)%Z) ;;
      Ok (p, set_lastIndex v p)
  else
    hi <- rd (_vec v) last ;;
    if Qltb hi a then
      _ <- xassert (last + 1 <? _n v)%Z ;;
      next <- rd (_vec v) (last + 1) ;;
      if Qle_bool a next then
        Ok ((last + 1)%Z, set_lastIndex v (last + 1))
      else
        p <- lower_bound (Z.to_nat (_n v - (last + 1))) (_vec v)
                         (last + 1) (_n v - (last + 1)) a ;;
        _ <- xassert (negb (p =? last + 1)%Z) ;;
        _ <- xassert (negb (p =? _n v)%Z) ;;
        Ok (p, set_lastIndex v p)
    else
      Ok (last, v).

(** [int ArgVec::upperIndex(double a) const] *)
Definition upperIndex (v : t) (a : Q) : result (Z * t) :=
  fr <- front v ;;
  if Qltb a fr then Ok (1%Z, v) else
  bk <- back v ;;
  if Qltb bk a then Ok ((_n v - 1)%Z, v) else
  if _equalSpaced v then
    i <- upperIndex_equalSpaced v a ;;
    Ok (i, v)
  else
    upperIndex_search v a.

(** The same object made to take one branch or the other. *)
Definition with_equalSpaced (b : bool) (v : t) : t :=
  mk (_vec v) (_n v) (_lower_slop v) (_upper_slop v) b (_da v) (_lastIndex v).

(** Cursor states that earlier queries can leave behind. *)
Inductive reachable (v0 : t) : t -> Prop :=
| reach_init : reachable v0 v0
| reach_step : forall v a i v',
    reachable v0 v -> upperIndex v a = Ok (i, v') -> reachable v0 v'.

End ArgVec.

(** ** TableImpl: the one-dimensional table *)

Module TableImpl.

(** [Table::interpolant] *)
Inductive interpolant : Type := linear | floor | ceil | nearest | spline.

Record t : Type := mk {
  _iType : interpolant;
  _args : ArgVec.t;
  _vals : list Q;
  _n : Z;
  _y2 : list Q
}.

Definition set_args (tb : t) (av : ArgVec.t) : t :=
  mk (_iType tb) av (_vals tb) (_n tb) (_y2 tb).

(** Right-hand side of row [i] of the spline system. *)
Definition rhs_at (args vals : list Q) (i : Z) : Q :=
  6 * ((get vals (i + 1) - get vals i) / (get args (i + 1) - get args i)
       - (get vals i - get vals (i - 1)) / (get args i - get args (i - 1))).

(** *** The Thomas branch of [setupSpline] *)

(** Loop state of the forward elimination: the pivot [bb], the temporary
    vector [c] and the vector [_y2] being overwritten. *)
Record thomas : Type := mkth { th_bb : Q; th_c : list Q; th_y2 : list Q }.

Definition fill_rhs (args vals : list Q) (i : Z) (y2 : list Q) : list Q :=
  upd y2 i (rhs_at args vals i).

(** Body of the forward loop.  The [break] at [i == _n-2] is taken in the
    last iteration of [i <= _n-2], so it only skips the rest of the body. *)
Definition forward_step (args : list Q) (n : Z) (i : Z) (s : thomas) : thomas :=
  let y2 := upd (th_y2 s) i (get (th_y2 s) i / th_bb s) in
  if (i =? n - 2)%Z then mkth (th_bb s) (th_c s) y2
  else
    let a := get args (i + 1) - get args i in
    let c := upd (th_c s) (i - 1) a in
    let c := upd c (i - 1) (get c (i - 1) / th_bb s) in
    let bb := 2 * (get args (i + 2) - get args i) in
    let bb := bb - a * get c (i - 1) in
    let y2 := upd y2 (i + 1) (get y2 (i + 1) - a * get y2 i) in
    mkth bb c y2.

Definition back_step (c : list Q) (i : Z) (y2 : list Q) : list Q :=
  upd y2 i (get y2 i - get c (i - 1) * get y2 (i + 1)).

(** [_y2.resize(_n); _y2[0] = 0.; _y2[_n-1] = 0.;] *)
Definition y2_init (n : Z) : list Q :=
  upd (upd (repeat 0 (Z.to_nat n)) 0 0) (n - 1) 0.

(** Closed form for three points. *)
Definition y2_three (args vals : list Q) : Q :=
  3 * ((get vals 2 - get vals 1) / (get args 2 - get args 1)
       - (get vals 1 - get vals 0) / (get args 1 - get args 0))
    / (get args 2 - get args 0).

Definition thomas_solve (args vals : list Q) (n : Z) (y2 : list Q) : list Q :=
  let c := repeat 0 (Z.to_nat (n - 3)) in
  let y2 := for_up (Z.to_nat (n - 2)) 1%Z (fill_rhs args vals) y2 in
  let bb := 2 * (get args 2 - get args 0) in
  let s := for_up (Z.to_nat (n - 2)) 1%Z (forward_step args n) (mkth bb c y2) in
  for_down (Z.to_nat (n - 3)) (n - 3)%Z (back_step (th_c s)) (th_y2 s).

(** [void Table::TableImpl::setupSpline()], compiled without [USE_TMV]. *)
Definition setupSpline (args vals : list Q) (n : Z) : result (list Q) :=
  let y2 := y2_init n in
  if (n =? 3)%Z then Ok (upd y2 1 (y2_three args vals))
  else if (n - 3 <? 0)%Z then Err LengthError   (* std::vector<double> c(_n-3) *)
  else Ok (thomas_solve args vals n y2).

(** *** The [USE_TMV] branch of [setupSpline] *)

(** [tmv::SymBandMatrix<double> M(size, 1)]: the diagonal and the one
    off-diagonal, [M(i,i) = sb_diag[i]] and
    [M(i,i-1) = M(i-1,i) = sb_off[i-1]]. *)
Record SymBand : Type := mksb { sb_diag : list Q; sb_off : list Q }.

Definition set_off (args : list Q) (i : Z) (M : SymBand) : SymBand :=
  mksb (sb_diag M) (upd (sb_off M) (i - 1) (get args (i + 1) - get args i)).

Definition set_diag_rhs (args vals : list Q) (i : Z) (s : SymBand * list Q)
  : SymBand * list Q :=
  (mksb (upd (sb_diag (fst s)) (i - 1) (2 * (get args (i + 1) - get args (i - 1))))
        (sb_off (fst s)),
   upd (snd s) (i - 1) (rhs_at args vals i)).

Definition tmv_system (args vals : list Q) (n : Z) : SymBand * list Q :=
  let M := mksb (repeat 0 (Z.to_nat (n - 2))) (repeat 0 (Z.to_nat (n - 3))) in
  let M := for_up (Z.to_nat (n - 3)) 1%Z (set_off args) M in
  for_up (Z.to_nat (n - 2)) 1%Z (set_diag_rhs args vals)
         (M, repeat 0 (Z.to_nat (n - 2))).

(** Row [i] of the product [M * x], for a matrix of size [size]. *)
Definition symband_mul_row (M : SymBand) (size : Z) (x : list Q) (i : Z) : Q :=
  (if (0 <? i)%Z then get (sb_off M) (i - 1) * get x (i - 1) else 0)
  + get (sb_diag M) i * get x i
  + (if (i <? size - 1)%Z then get (sb_off M) i * get x (i + 1) else 0).

(** What [solution = rhs / M] promises: [M * solution = rhs]. *)
Definition solves (M : SymBand) (size : Z) (rhs solution : list Q) : Prop :=
  Z.of_nat (List.length solution) = size /\
  forall i, (0 <= i < size)%Z -> symband_mul_row M size solution i == get rhs i.

Definition copy_solution (solution : list Q) (i : Z) (y2 : list Q) : list Q :=
  upd y2 i (get solution (i - 1)).

(** [setupSpline] compiled with [USE_TMV]; the library's solver
    [rhs / M] is the parameter [solve]. *)
Definition setupSpline_tmv (solve : SymBand -> list Q -> list Q)
           (args vals : list Q) (n : Z) : list Q :=
  let y2 := y2_init n in
  if (n =? 3)%Z then upd y2 1 (y2_three args vals)
  else
    let '(M, rhs) := tmv_system args vals n in
    let solution := solve M rhs in
    for_up (Z.to_nat (n - 2)) 1%Z (copy_solution solution) y2.

(** *** Construction and lookup *)

(** [TableImpl::TableImpl(args, vals, N, in)] *)
Definition new (args vals : list Q) (N : Z) (i : interpolant) : result t :=
  av <- ArgVec.new args N ;;
  match i with
  | spline => y2 <- setupSpline args vals N ;; Ok (mk i av vals N y2)
  | _ => Ok (mk i av vals N [])
  end.

Definition argMin (tb : t) : result Q := ArgVec.front (_args tb).
Definition argMax (tb : t) : result Q := ArgVec.back (_args tb).
Definition size (tb : t) : Z := _n tb.

Definition linearInterpolate (tb : t) (a : Q) (i : Z) : result Q :=
  xi <- ArgVec.at_ (_args tb) i ;;
  xp <- ArgVec.at_ (_args tb) (i - 1) ;;
  let ax := (xi - a) / (xi - xp) in
  let bx := 1 - ax in
  vi <- rd (_vals tb) i ;;
  vp <- rd (_vals tb) (i - 1) ;;
  Ok (vi * bx + vp * ax).

Definition floorInterpolate (tb : t) (a : Q) (i : Z) : result Q :=
  xi <- ArgVec.at_ (_args tb) i ;;
  let i := if Qeq_bool a xi then (i + 1)%Z else i in
  rd (_vals tb) (i - 1).

Definition ceilInterpolate (tb : t) (a : Q) (i : Z) : result Q :=
  xp <- ArgVec.at_ (_args tb) (i - 1) ;;
  let i := if Qeq_bool a xp then (i - 1)%Z else i in
  rd (_vals tb) i.

Definition nearestInterpolate (tb : t) (a : Q) (i : Z) : result Q :=
  xp <- ArgVec.at_ (_args tb) (i - 1) ;;
  xi <- ArgVec.at_ (_args tb) i ;;
  let i := if Qltb (a - xp) (xi - a) then (i - 1)%Z else i in
  rd (_vals tb) i.

Definition splineInterpolate (tb : t) (a : Q) (i : Z) : result Q :=
  xi <- ArgVec.at_ (_args tb) i ;;
  xp <- ArgVec.at_ (_args tb) (i - 1) ;;
  let h := xi - xp in
  let aa := xi - a in
  let bb := h - aa in
  vp <- rd (_vals tb) (i - 1) ;;
  vi <- rd (_vals tb) i ;;
  yp <- rd (_y2 tb) (i - 1) ;;
  yi <- rd (_y2 tb) i ;;
  Ok ((aa * vp + bb * vi
       - (1 / 6) * aa * bb * ((aa + h) * yp + (bb + h) * yi)) / h).

(** The member-function pointer [interpolate]. *)
Definition interpolate (tb : t) : Q -> Z -> result Q :=
  match _iType tb with
  | linear => linearInterpolate tb
  | floor => floorInterpolate tb
  | ceil => ceilInterpolate tb
  | nearest => nearestInterpolate tb
  | spline => splineInterpolate tb
  end.

(** [double Table::TableImpl::lookup(double a) const] *)
Definition lookup (tb : t) (a : Q) : result (Q * t) :=
  '(i, av) <- ArgVec.upperIndex (_args tb) a ;;
  val <- interpolate tb a i ;;
  Ok (val, set_args tb av).

End TableImpl.

(** ** Table: the public one-dimensional interface *)

Module Table.

Definition t : Type := TableImpl.t.

Definition new := TableImpl.new.
Definition argMin (tb : t) : result Q := TableImpl.argMin tb.
Definition argMax (tb : t) : result Q := TableImpl.argMax tb.
Definition size (tb : t) : Z := TableImpl.size tb.

(** [double Table::operator()(double a) const] *)
Definition call (tb : t) (a : Q) : result (Q * t) :=
  lo <- argMin tb ;;
  if Qltb a lo then Ok (0, tb) else
  hi <- argMax tb ;;
  if Qltb hi a then Ok (0, tb) else
  TableImpl.lookup tb a.

(** [double Table::lookup(double a) const] *)
Definition lookup (tb : t) (a : Q) : result (Q * t) := TableImpl.lookup tb a.

(** [void Table::interpMany(argvec, valvec, N) const]; the query array
    is the list [argvec] and the output array is the returned list. *)
Fixpoint interpMany (tb : t) (argvec : list Q) : result (list Q * t) :=
  match argvec with
  | [] => Ok ([], tb)
  | a :: rest =>
      '(v, tb') <- TableImpl.lookup tb a ;;
      '(vs, tb'') <- interpMany tb' rest ;;
      Ok (v :: vs, tb'')
  end.

(** Put the cursor of the table's axis at [i]. *)
Definition set_cursor (tb : t) (i : Z) : t :=
  TableImpl.set_args tb (ArgVec.set_lastIndex (TableImpl._args tb) i).

End Table.

(** ** The two-dimensional interpolators *)

Module T2DInterp.

(** State shared by the four interpolators: [class T2DInterp]. *)
Record t : Type := mk {
  _xargs : ArgVec.t;
  _yargs : ArgVec.t;
  _vals : list Q;
  _ny : Z
}.

(** [T2DInterp::T2DInterp(xargs, yargs, vals, Nx, Ny)] *)
Definition new (xargs yargs vals : list Q) (Nx Ny : Z) : result t :=
  xa <- ArgVec.new xargs Nx ;;
  ya <- ArgVec.new yargs Ny ;;
  Ok (mk xa ya vals Ny).

Definition set_axes (s : t) (xa ya : ArgVec.t) : t :=
  mk xa ya (_vals s) (_ny s).

(** The four area weights of the bilinear rule, in the order in which
    [T2DLinearInterp::interp] uses them: corners [(i-1,j-1)], [(i,j-1)],
    [(i-1,j)], [(i,j)]. *)
Definition weights (ax ay : Q) : Q * Q * Q * Q :=
  let bx := 1 - ax in
  let by_ := 1 - ay in
  (ax * ay, bx * ay, ax * by_, bx * by_).

End T2DInterp.

Module T2DLinearInterp.
Import T2DInterp.

Definition interp (s : t) (x y : Q) : result (Q * t) :=
  '(i, xa) <- ArgVec.upperIndex (_xargs s) x ;;
  '(j, ya) <- ArgVec.upperIndex (_yargs s) y ;;
  xi <- ArgVec.at_ xa i ;;
  xp <- ArgVec.at_ xa (i - 1) ;;
  yj <- ArgVec.at_ ya j ;;
  yp <- ArgVec.at_ ya (j - 1) ;;
  let ax := (xi - x) / (xi - xp) in
  let ay := (yj - y) / (yj - yp) in
  let '(w00, w10, w01, w11) := weights ax ay in
  f00 <- rd (_vals s) ((i - 1) * _ny s + j - 1) ;;
  f10 <- rd (_vals s) (i * _ny s + j - 1) ;;
  f01 <- rd (_vals s) ((i - 1) * _ny s + j) ;;
  f11 <- rd (_vals s) (i * _ny s + j) ;;
  Ok (f00 * w00 + f10 * w10 + f01 * w01 + f11 * w11, set_axes s xa ya).

Definition gradient (s : t) (x y : Q) : result (Q * Q * t) :=
  '(i, xa) <- ArgVec.upperIndex (_xargs s) x ;;
  '(j, ya) <- ArgVec.upperIndex (_yargs s) y ;;
  xi <- ArgVec.at_ xa i ;;
  xp <- ArgVec.at_ xa (i - 1) ;;
  yj <- ArgVec.at_ ya j ;;
  yp <- ArgVec.at_ ya (j - 1) ;;
  let dx := xi - xp in
  let dy := yj - yp in
  f00 <- rd (_vals s) ((i - 1) * _ny s + j - 1) ;;
  f01 <- rd (_vals s) ((i - 1) * _ny s + j) ;;
  f10 <- rd (_vals s) (i * _ny s + j - 1) ;;
  f11 <- rd (_vals s) (i * _ny s + j) ;;
  let ax := (xi - x) / (xi - xp) in
  let bx := 1 - ax in
  let ay := (yj - y) / (yj - yp) in
  let by_ := 1 - ay in
  Ok (((f10 - f00) * ay + (f11 - f01) * by_) / dx,
      ((f01 - f00) * ax + (f11 - f10) * bx) / dy,
      set_axes s xa ya).

End T2DLinearInterp.

Module T2DFloorInterp.
Import T2DInterp.

Definition interp (s : t) (x y : Q) : result (Q * t) :=
  '(i, xa) <- ArgVec.upperIndex (_xargs s) x ;;
  '(j, ya) <- ArgVec.upperIndex (_yargs s) y ;;
  xi <- ArgVec.at_ xa i ;;
  let i := if Qeq_bool x xi then (i + 1)%Z else i in
  yj <- ArgVec.at_ ya j ;;
  let j := if Qeq_bool y yj then (j + 1)%Z else j in
  f <- rd (_vals s) ((i - 1) * _ny s + j - 1) ;;
  Ok (f, set_axes s xa ya).

Definition gradient (s : t) (x y : Q) : result (Q * Q * t) :=
  Err (RuntimeError "gradient not implemented for floor interp").

End T2DFloorInterp.

Module T2DCeilInterp.
Import T2DInterp.

Definition interp (s : t) (x y : Q) : result (Q * t) :=
  '(i, xa) <- ArgVec.upperIndex (_xargs s) x ;;
  '(j, ya) <- ArgVec.upperIndex (_yargs s) y ;;
  xp <- ArgVec.at_ xa (i - 1) ;;
  let i := if Qeq_bool x xp then (i - 1)%Z else i in
  yp <- ArgVec.at_ ya (j - 1) ;;
  let j := if Qeq_bool y yp then (j - 1)%Z else j in
  f <- rd (_vals s) (i * _ny s + j) ;;
  Ok (f, set_axes s xa ya).

Definition gradient (s : t) (x y : Q) : result (Q * Q * t) :=
  Err (RuntimeError "gradient not implemented for ceil interp").

End T2DCeilInterp.

Module T2DNearestInterp.
Import T2DInterp.

Definition interp (s : t) (x y : Q) : result (Q * t) :=
  '(i, xa) <- ArgVec.upperIndex (_xargs s) x ;;
  '(j, ya) <- ArgVec.upperIndex (_yargs s) y ;;
  xp <- ArgVec.at_ xa (i - 1) ;;
  xi <- ArgVec.at_ xa i ;;
  let i := if Qltb (x - xp) (xi - x) then (i - 1)%Z else i in
  yp <- ArgVec.at_ ya (j - 1) ;;
  yj <- ArgVec.at_ ya j ;;
  let j := if Qltb (y - yp) (yj - y) then (j - 1)%Z else j in
  f <- rd (_vals s) (i * _ny s + j) ;;
  Ok (f, set_axes s xa ya).

Definition gradient (s : t) (x y : Q) : result (Q * Q * t) :=
  Err (RuntimeError "gradient not implemented for nearest interp").

End T2DNearestInterp.

(** ** Table2D *)

Module Table2D.

(** [Table2D::interpolant] *)
Inductive interpolant : Type := floor | ceil | nearest | linear.

(** [ConcreteTable2DImpl<T2DInterp>]: the interpolator chosen by
    [makeImpl] and its state. *)
Record t : Type := mk { _kind : interpolant; _interp : T2DInterp.t }.

(** [Table2D::makeImpl] and the constructor [Table2D::Table2D]. *)
Definition new (xargs yargs vals : list Q) (Nx Ny : Z) (i : interpolant) : result t :=
  s <- T2DInterp.new xargs yargs vals Nx Ny ;;
  Ok (mk i s).

Definition interp_of (k : interpolant) : T2DInterp.t -> Q -> Q -> result (Q * T2DInterp.t) :=
  match k with
  | floor => T2DFloorInterp.interp
  | ceil => T2DCeilInterp.interp
  | nearest => T2DNearestInterp.interp
  | linear => T2DLinearInterp.interp
  end.

Definition gradient_of (k : interpolant)
  : T2DInterp.t -> Q -> Q -> result (Q * Q * T2DInterp.t) :=
  match k with
  | floor => T2DFloorInterp.gradient
  | ceil => T2DCeilInterp.gradient
  | nearest => T2DNearestInterp.gradient
  | linear => T2DLinearInterp.gradient
  end.

(** [double Table2D::lookup(double x, double y) const] *)
Definition lookup (tb : t) (x y : Q) : result (Q * t) :=
  '(v, s) <- interp_of (_kind tb) (_interp tb) x y ;;
  Ok (v, mk (_kind tb) s).

(** [void Table2D::gradient(x, y, dfdx, dfdy) const] *)
Definition gradient (tb : t) (x y : Q) : result (Q * Q * t) :=
  '(dfdx, dfdy, s) <- gradient_of (_kind tb) (_interp tb) x y ;;
  Ok (dfdx, dfdy, mk (_kind tb) s).

(** [interpMany]: the query arrays [xvec], [yvec] of length [N] are the
    list of their pairs. *)
Fixpoint interpMany (tb : t) (queries : list (Q * Q)) : result (list Q * t) :=
  match queries with
  | [] => Ok ([], tb)
  | (x, y) :: rest =>
      '(v, tb') <- lookup tb x y ;;
      '(vs, tb'') <- interpMany tb' rest ;;
      Ok (v :: vs, tb'')
  end.

(** [gradientMany], in the same way. *)
Fixpoint gradientMany (tb : t) (queries : list (Q * Q)) : result (list (Q * Q) * t) :=
  match queries with
  | [] => Ok ([], tb)
  | (x, y) :: rest =>
      '(dfdx, dfdy, tb') <- gradient tb x y ;;
      '(gs, tb'') <- gradientMany tb' rest ;;
      Ok ((dfdx, dfdy) :: gs, tb'')
  end.

End Table2D.

(** ** Predicates used in the statements *)

Fixpoint ascendingb (l : list Q) : bool :=
  match l with
  | x :: t => match t with
              | y :: _ => Qltb x y && ascendingb t
              | [] => true
              end
  | [] => true
  end.

(** [args[0..N)] is strictly ascending and [N] is the length of the array. *)
Definition ascending (l : list Q) (N : Z) : Prop :=
  Z.of_nat (List.length l) = N /\ ascendingb l = true.

(** The state of an axis built over [N >= 2] strictly ascending values:
    what [ArgVec::ArgVec] establishes and [upperIndex] preserves, whichever
    branch [_equalSpaced] selects. *)
Definition axis_ok (v : ArgVec.t) : Prop :=
  ascending (ArgVec._vec v) (ArgVec._n v) /\
  (2 <= ArgVec._n v)%Z /\
  ArgVec._da v ==
    (get (ArgVec._vec v) (ArgVec._n v - 1) - get (ArgVec._vec v) 0)
    / inject_Z (ArgVec._n v - 1) /\
  (1 <= ArgVec._lastIndex v <= ArgVec._n v - 1)%Z.

(** Two axis objects that differ at most in the cursor. *)
Definition same_axis (v w : ArgVec.t) : Prop :=
  ArgVec._vec w = ArgVec._vec v /\ ArgVec._n w = ArgVec._n v /\
  ArgVec._equalSpaced w = ArgVec._equalSpaced v /\ ArgVec._da w = ArgVec._da v.

(** [i] is a bracket of [a]: [1 <= i <= N-1] and
    [args[i-1] <= a <= args[i]]. *)
Definition bracket (l : list Q) (a : Q) (i : Z) : Prop :=
  (1 <= i <= Z.of_nat (List.length l) - 1)%Z /\
  get l (i - 1) <= a <= get l i.

(** A table built over [N >= 2] strictly ascending arguments and [N]
    values; a spline table also holds [N] second derivatives. *)
Definition table_ok (tb : TableImpl.t) : Prop :=
  axis_ok (TableImpl._args tb) /\
  TableImpl._n tb = ArgVec._n (TableImpl._args tb) /\
  Z.of_nat (List.length (TableImpl._vals tb)) = TableImpl._n tb /\
  (TableImpl._iType tb = TableImpl.spline ->
   Z.of_nat (List.length (TableImpl._y2 tb)) = TableImpl._n tb).

(** Two table objects that differ at most in the cursor of their axis. *)
Definition same_table (tb tb' : TableImpl.t) : Prop :=
  same_axis (TableImpl._args tb) (TableImpl._args tb') /\
  TableImpl._iType tb' = TableImpl._iType tb /\
  TableImpl._vals tb' = TableImpl._vals tb /\
  TableImpl._n tb' = TableImpl._n tb /\
  TableImpl._y2 tb' = TableImpl._y2 tb.

(** Put the cursors of the two axes of a 2D table at [cx] and [cy]. *)
Definition set_cursors2 (tb : Table2D.t) (cx cy : Z) : Table2D.t :=
  Table2D.mk (Table2D._kind tb)
    (T2DInterp.set_axes (Table2D._interp tb)
       (ArgVec.set_lastIndex (T2DInterp._xargs (Table2D._interp tb)) cx)
       (ArgVec.set_lastIndex (T2DInterp._yargs (Table2D._interp tb)) cy)).

(** The state of a 2D interpolator built over two ascending axes and a
    grid of [Nx * Ny] values. *)
Definition interp2_ok (s : T2DInterp.t) : Prop :=
  axis_ok (T2DInterp._xargs s) /\ axis_ok (T2DInterp._yargs s) /\
  T2DInterp._ny s = ArgVec._n (T2DInterp._yargs s) /\
  Z.of_nat (List.length (T2DInterp._vals s))
  = (ArgVec._n (T2DInterp._xargs s) * ArgVec._n (T2DInterp._yargs s))%Z.

(** One weight is 1 and the other three are 0. *)
Definition unit_weights (w : Q * Q * Q * Q) : Prop :=
  let '(w00, w10, w01, w11) := w in
  (w00 == 1 /\ w10 == 0 /\ w01 == 0 /\ w11 == 0) \/
  (w00 == 0 /\ w10 == 1 /\ w01 == 0 /\ w11 == 0) \/
  (w00 == 0 /\ w10 == 0 /\ w01 == 1 /\ w11 == 0) \/
  (w00 == 0 /\ w10 == 0 /\ w01 == 0 /\ w11 == 1).

(** *** The spline system, as the specification words it

    Unknowns [z 1 .. z (N-2)]; row [i] has diagonal
    [2*(args[i+1]-args[i-1])], off-diagonals [args[i]-args[i-1]] (towards
    [z (i-1)]) and [args[i+1]-args[i]] (towards [z (i+1)]), and right-hand
    side [rhs_at args vals i]. *)

Definition spline_h (args : list Q) (i : Z) : Q := get args (i + 1) - get args i.

Definition spline_row (args : list Q) (n : Z) (z : Z -> Q) (i : Z) : Q :=
  (if (1 <? i)%Z then spline_h args (i - 1) * z (i - 1)%Z else 0)
  + 2 * (get args (i + 1) - get args (i - 1)) * z i
  + (if (i <? n - 2)%Z then spline_h args i * z (i + 1)%Z else 0).

Definition spline_system (args vals : list Q) (n : Z) (z : Z -> Q) : Prop :=
  forall i, (1 <= i <= n - 2)%Z ->
            spline_row args n z i == TableImpl.rhs_at args vals i.

(** The samples lie on the line [v = m*x + c]. *)
Definition on_line (m c : Q) (args vals : list Q) : Prop :=
  Forall2 (fun x v => v == m * x + c) args vals.

(** *** Intermediate states of the Thomas branch *)

(** [_y2] after the loop that stores the right-hand sides. *)
Definition y2_rhs (args vals : list Q) (n : Z) : list Q :=
  for_up (Z.to_nat (n - 2)) 1%Z (TableImpl.fill_rhs args vals) (TableImpl.y2_init n).

(** The loop state after the forward elimination. *)
Definition thomas_forward (args vals : list Q) (n : Z) : TableImpl.thomas :=
  for_up (Z.to_nat (n - 2)) 1%Z (TableImpl.forward_step args n)
         (TableImpl.mkth (2 * (get args 2 - get args 0))
                         (repeat 0 (Z.to_nat (n - 3)))
                         (y2_rhs args vals n)).

(** The system that the forward loop has reached when it is about to
    treat row [j]: rows below [j] are eliminated and normalised, row [j]
    has lost its lower entry and has pivot [bb], rows above [j] are still
    those of the spline system. *)
Definition forward_rows (args : list Q) (n : Z) (z : Z -> Q) (j : Z)
           (s : TableImpl.thomas) : Prop :=
  (forall k, (1 <= k < j)%Z ->
     z k + (if (k <? n - 2)%Z then get (TableImpl.th_c s) (k - 1) * z (k + 1)%Z else 0)
     == get (TableImpl.th_y2 s) k) /\
  ((j <= n - 2)%Z ->
     TableImpl.th_bb s * z j
     + (if (j <? n - 2)%Z then spline_h args j * z (j + 1)%Z else 0)
     == get (TableImpl.th_y2 s) j) /\
  (forall k, (j < k <= n - 2)%Z -> spline_row args n z k == get (TableImpl.th_y2 s) k).

Definition forward_state (args : list Q) (n : Z) (j : Z) (s : TableImpl.thomas) : Prop :=
  List.length (TableImpl.th_y2 s) = Z.to_nat n /\
  List.length (TableImpl.th_c s) = Z.to_nat (n - 3) /\
  get (TableImpl.th_y2 s) 0 = 0 /\ get (TableImpl.th_y2 s) (n - 1) = 0 /\
  ((j <= n - 2)%Z -> spline_h args j < TableImpl.th_bb s).

(** The system that the back-substitution has reached when it is about to
    treat row [j]: rows above [j] are solved. *)
Definition backward_rows (n : Z) (c : list Q) (z : Z -> Q) (j : Z) (y : list Q) : Prop :=
  (forall k, (j < k <= n - 2)%Z -> z k == get y k) /\
  (forall k, (1 <= k <= j)%Z -> z k + get c (k - 1) * z (k + 1)%Z == get y k).

(** ** Predicates used in the further properties *)

(** [l[k] = first + (start + k) * step] for every position [k] of [l]. *)
Fixpoint uniform_from (first step : Q) (start : Z) (l : list Q) : bool :=
  match l with
  | [] => true
  | x :: t => Qeq_bool x (first + inject_Z start * step)
              && uniform_from first step (start + 1) t
  end.

(** The array is the arithmetic progression [first, first + step, ...]. *)
Definition uniform (first step : Q) (l : list Q) : Prop :=
  uniform_from first step 0 l = true.

(** The spacing test of [ArgVec::ArgVec], for one sample. *)
Definition within_tolerance (args : list Q) (N : Z) (i : Z) : Prop :=
  Qabs ((get args i - get args 0)
        / ((get args (N - 1) - get args 0) / inject_Z (N - 1))
        - inject_Z i) <= ArgVec.tolerance.

(** The value that each 2D interpolator computes once the two axis
    searches have returned the indices [i] and [j]: the body of
    [T2DFloorInterp::interp], [T2DCeilInterp::interp],
    [T2DNearestInterp::interp] and [T2DLinearInterp::interp] after the two
    calls of [upperIndex]. *)
Definition cell_value (k : Table2D.interpolant) (xs ys vals : list Q) (ny : Z)
           (x y : Q) (i j : Z) : Q :=
  match k with
  | Table2D.floor =>
      let i := if Qeq_bool x (get xs i) then (i + 1)%Z else i in
      let j := if Qeq_bool y (get ys j) then (j + 1)%Z else j in
      get vals ((i - 1) * ny + j - 1)
  | Table2D.ceil =>
      let i := if Qeq_bool x (get xs (i - 1)) then (i - 1)%Z else i in
      let j := if Qeq_bool y (get ys (j - 1)) then (j - 1)%Z else j in
      get vals (i * ny + j)
  | Table2D.nearest =>
      let i := if Qltb (x - get xs (i - 1)) (get xs i - x) then (i - 1)%Z else i in
      let j := if Qltb (y - get ys (j - 1)) (get ys j - y) then (j - 1)%Z else j in
      get vals (i * ny + j)
  | Table2D.linear =>
      let ax := (get xs i - x) / (get xs i - get xs (i - 1)) in
      let ay := (get ys j - y) / (get ys j - get ys (j - 1)) in
      let '(w00, w10, w01, w11) := T2DInterp.weights ax ay in
      get vals ((i - 1) * ny + j - 1) * w00 + get vals (i * ny + j - 1) * w10
      + get vals ((i - 1) * ny + j) * w01 + get vals (i * ny + j) * w11
  end.

(** The two components that [T2DLinearInterp::gradient] computes in the
    cell [(i, j)]. *)
Definition cell_gradient (xs ys vals : list Q) (ny : Z) (x y : Q) (i j : Z) : Q * Q :=
  let dx := get xs i - get xs (i - 1) in
  let dy := get ys j - get ys (j - 1) in
  let f00 := get vals ((i - 1) * ny + j - 1) in
  let f01 := get vals ((i - 1) * ny + j) in
  let f10 := get vals (i * ny + j - 1) in
  let f11 := get vals (i * ny + j) in
  let ax := (get xs i - x) / (get xs i - get xs (i - 1)) in
  let bx := 1 - ax in
  let ay := (get ys j - y) / (get ys j - get ys (j - 1)) in
  let by_ := 1 - ay in
  (((f10 - f00) * ay + (f11 - f01) * by_) / dx,
   ((f01 - f00) * ax + (f11 - f10) * bx) / dy).

(** The grid samples the plane [f = p*x + q*y + r]. *)
Definition on_plane (p q r : Q) (xs ys vals : list Q) (ny : Z) : Prop :=
  forall i j, (0 <= i < Z.of_nat (List.length xs))%Z ->
              (0 <= j < Z.of_nat (List.length ys))%Z ->
              get vals (i * ny + j) == p * get xs i + q * get ys j + r.

(** Two indices that [upperIndex] can return for the same query. *)
Definition neighbours (l : list Q) (a : Q) (i i' : Z) : Prop :=
  i = i' \/ (i' = (i + 1)%Z /\ a == get l i) \/ (i = (i' + 1)%Z /\ a == get l i').

(** The value of a non-spline rule on the cell [[xp, xi]] with data
    [vp, vi], as a function of the query point. *)
Definition cell_rule_value (rule : TableImpl.interpolant)
           (xp xi vp vi a : Q) : Q :=
  match rule with
  | TableImpl.linear =>
      let ax := (xi - a) / (xi - xp) in vi * (1 - ax) + vp * ax
  | TableImpl.floor => if Qeq_bool a xi then vi else vp
  | TableImpl.ceil => if Qeq_bool a xp then vp else vi
  | TableImpl.nearest => if Qltb (a - xp) (xi - a) then vp else vi
  | TableImpl.spline => 0
  end.

(** The data never decrease along the table. *)
Definition nondecreasing (vals : list Q) (N : Z) : Prop :=
  forall k, (0 <= k < N - 1)%Z -> get vals k <= get vals (k + 1).

(** * The one-dimensional table over binary64

    The model above computes over exact rationals, so it cannot show what
    rounding or a NaN does.  The module [IEEE] repeats [ArgVec],
    [TableImpl] and [Table] with a C++ [double] as a primitive binary64
    float: the same functions, operation for operation in the order the
    source writes them, with the comparisons of IEEE 754 (every comparison
    with a NaN is false).  It is used to evaluate the source on concrete
    inputs. *)

Module IEEE.

Local Open Scope float_scope.

(** Checked read [v[i]] of a caller-owned array. *)
Definition rd (v : list float) (i : Z) : result float :=
  if ((0 <=? i) && (i <? Z.of_nat (List.length v)))%Z
  then Ok (nth (Z.to_nat i) v 0)
  else Err OutOfBounds.

(** Unchecked read and write of a [std::vector<double>]. *)
Definition get (v : list float) (i : Z) : float := nth (Z.to_nat i) v 0.

Fixpoint upd_nat (v : list float) (i : nat) (x : float) : list float :=
  match v, i with
  | [], _ => []
  | _ :: t, O => x :: t
  | h :: t, S j => h :: upd_nat t j x
  end.

Definition upd (v : list float) (i : Z) (x : float) : list float :=
  if (i <? 0)%Z then v else upd_nat v (Z.to_nat i) x.

(** The conversion of an [int] to [double] (exact for every [int]). *)
Definition of_int (z : Z) : float :=
  if (z <? 0)%Z then - PrimFloat.of_uint63 (Uint63.of_Z (- z))
  else PrimFloat.of_uint63 (Uint63.of_Z z).

(** [std::ceil(x)]: a float with a non-negative exponent is an integer
    already; NaN, the infinities and the zeros are returned as they are. *)
Definition ceil (x : float) : float :=
  match Prim2SF x with
  | S754_finite s m e =>
      if (0 <=? e)%Z then x
      else
        let q := (Zpos m / 2 ^ (- e))%Z in
        if s then - of_int q
        else if (Zpos m mod 2 ^ (- e) =? 0)%Z then of_int q
        else of_int (q + 1)
  | _ => x
  end.

(** [int(x)]: truncation towards zero.  The conversion is undefined when
    [x] is a NaN or an infinity, or when the truncated value is not an
    [int]. *)
Definition to_int (x : float) : result Z :=
  match Prim2SF x with
  | S754_zero _ => Ok 0%Z
  | S754_finite s m e =>
      let q := if (0 <=? e)%Z then (Zpos m * 2 ^ e)%Z
               else (Zpos m / 2 ^ (- e))%Z in
      let z := if s then (- q)%Z else q in
      if ((-2147483648 <=? z) && (z <=? 2147483647))%Z then Ok z
      else Err UndefinedConversion
  | _ => Err UndefinedConversion
  end.

Module ArgVec.

Record t : Type := mk {
  _vec : list float;
  _n : Z;
  _lower_slop : float;
  _upper_slop : float;
  _equalSpaced : bool;
  _da : float;
  _lastIndex : Z   (* mutable *)
}.

Definition set_lastIndex (v : t) (i : Z) : t :=
  mk (_vec v) (_n v) (_lower_slop v) (_upper_slop v) (_equalSpaced v) (_da v) i.

Definition front (v : t) : result float := rd (_vec v) 0.
Definition back (v : t) : result float := rd (_vec v) (_n v - 1).
Definition at_ (v : t) (i : Z) : result float := rd (_vec v) i.

(** The double nearest to [0.01]. *)
Definition tolerance : float := 0x1.47ae147ae147bp-7.

(** The double nearest to [1.e-6]. *)
Definition slop : float := 0x1.0c6f7a0b5ed8dp-20.

Definition spacing_step (vec : list float) (da : float) (i : Z) (eq : bool)
  : result bool :=
  vi <- rd vec i ;;
  v0 <- rd vec 0 ;;
  if PrimFloat.ltb tolerance (PrimFloat.abs ((vi - v0) / da - of_int i))
  then Ok false else Ok eq.

(** [ArgVec::ArgVec(const double* vec, int n)] *)
Definition new (vec : list float) (n : Z) : result t :=
  bk <- rd vec (n - 1) ;;
  fr <- rd vec 0 ;;
  let da := (bk - fr) / of_int (n - 1) in
  eq <- for_loop (Z.to_nat (n - 1)) 1%Z (spacing_step vec da) true ;;
  v1 <- rd vec 1 ;;
  v0 <- rd vec 0 ;;
  vn1 <- rd vec (n - 1) ;;
  vn2 <- rd vec (n - 2) ;;
  Ok (mk vec n ((v1 - v0) * slop) ((vn1 - vn2) * slop) eq da 1%Z).

(** [while (a > _vec[i]) ++i;] *)
Fixpoint nudge_up (fuel : nat) (vec : list float) (a : float) (i : Z) : result Z :=
  match fuel with
  | O => Err OutOfFuel
  | S f =>
      vi <- rd vec i ;;
      if PrimFloat.ltb vi a then nudge_up f vec a (i + 1)%Z else Ok i
  end.

(** [while (a < _vec[i-1]) --i;] *)
Fixpoint nudge_down (fuel : nat) (vec : list float) (a : float) (i : Z) : result Z :=
  match fuel with
  | O => Err OutOfFuel
  | S f =>
      vi <- rd vec (i - 1) ;;
      if PrimFloat.ltb a vi then nudge_down f vec a (i - 1)%Z else Ok i
  end.

Definition nudge (v : t) (a : float) (i : Z) : result Z :=
  let fuel := S (List.length (_vec v)) in
  i <- nudge_up fuel (_vec v) a i ;;
  nudge_down fuel (_vec v) a i.

(** [int i = int(std::ceil((a-front()) / _da)); if (i >= _n) --i;
    if (i == 0) ++i;] *)
Definition estimate (v : t) (fr : float) (a : float) : result Z :=
  i <- to_int (ceil ((a - fr) / _da v)) ;;
  let i := if (i >=? _n v)%Z then (i - 1)%Z else i in
  Ok (if (i =? 0)%Z then (i + 1)%Z else i).

(** The equal-spaced branch of [upperIndex]. *)
Definition upperIndex_equalSpaced (v : t) (a : float) : result Z :=
  fr <- front v ;;
  i <- estimate v fr a ;;
  nudge v a i.

(** [std::upper_bound(first, first+len, a)] *)
Fixpoint upper_bound (fuel : nat) (vec : list float) (first len : Z) (a : float)
  : result Z :=
  if (len <=? 0)%Z then Ok first else
  match fuel with
  | O => Err OutOfFuel
  | S f =>
      let half := Z.shiftr len 1 in
      let middle := (first + half)%Z in
      vm <- rd vec middle ;;
      if PrimFloat.ltb a vm then upper_bound f vec first half a
      else upper_bound f vec (middle + 1)%Z (len - half - 1)%Z a
  end.

(** [std::lower_bound(first, first+len, a)] *)
Fixpoint lower_bound (fuel : nat) (vec : list float) (first len : Z) (a : float)
  : result Z :=
  if (len <=? 0)%Z then Ok first else
  match fuel with
  | O => Err OutOfFuel
  | S f =>
      let half := Z.shiftr len 1 in
      let middle := (first + half)%Z in
      vm <- rd vec middle ;;
      if PrimFloat.ltb vm a then lower_bound f vec (middle + 1)%Z (len - half - 1)%Z a
      else lower_bound f vec first half a
  end.

(** The cursor branch of [upperIndex]. *)
Definition upperIndex_search (v : t) (a : float) : result (Z * t) :=
  let last := _lastIndex v in
  _ <- xassert (last >=? 1)%Z ;;
  _ <- xassert (last <? _n v)%Z ;;
  lo <- rd (_vec v) (last - 1) ;;
  if PrimFloat.ltb a lo then
    _ <- xassert (last - 2 >=? 0)%Z ;;
    prev <- rd (_vec v) (last - 2) ;;
    if PrimFloat.leb prev a then
      Ok ((last - 1)%Z, set_lastIndex v (last - 1))
    else
      p <- upper_bound (Z.to_nat (last - 1)) (_vec v) 0 (last - 1) a ;;
      _ <- xassert (negb (p =? 0)%Z) ;;
      _ <- xassert (negb (p =? last - 1)%Z) ;;
      Ok (p, set_lastIndex v p)
  else
    hi <- rd (_vec v) last ;;
    if PrimFloat.ltb hi a then
      _ <- xassert (last + 1 <? _n v)%Z ;;
      next <- rd (_vec v) (last + 1) ;;
      if PrimFloat.leb a next then
        Ok ((last + 1)%Z, set_lastIndex v (last + 1))
      else
        p <- lower_bound (Z.to_nat (_n v - (last + 1))) (_vec v)
                         (last + 1) (_n v - (last + 1)) a ;;
        _ <- xassert (negb (p =? last + 1)%Z) ;;
        _ <- xassert (negb (p =? _n v)%Z) ;;
        Ok (p, set_lastIndex v p)
    else
      Ok (last, v).

(** [int ArgVec::upperIndex(double a) const] *)
Definition upperIndex (v : t) (a : float) : result (Z * t) :=
  fr <- front v ;;
  if PrimFloat.ltb a fr then Ok (1%Z, v) else
  bk <- back v ;;
  if PrimFloat.ltb bk a then Ok ((_n v - 1)%Z, v) else
  if _equalSpaced v then
    i <- upperIndex_equalSpaced v a ;;
    Ok (i, v)
  else
    upperIndex_search v a.

End ArgVec.

Module TableImpl.

Record t : Type := mk {
  _iType : TableImpl.interpolant;
  _args : ArgVec.t;
  _vals : list float;
  _n : Z;
  _y2 : list float
}.

Definition set_args (tb : t) (av : ArgVec.t) : t :=
  mk (_iType tb) av (_vals tb) (_n tb) (_y2 tb).

Definition rhs_at (args vals : list float) (i : Z) : float :=
  6 * ((get vals (i + 1) - get vals i) / (get args (i + 1) - get args i)
       - (get vals i - get vals (i - 1)) / (get args i - get args (i - 1))).

Record thomas : Type := mkth { th_bb : float; th_c : list float; th_y2 : list float }.

Definition fill_rhs (args vals : list float) (i : Z) (y2 : list float) : list float :=
  upd y2 i (rhs_at args vals i).

Definition forward_step (args : list float) (n : Z) (i : Z) (s : thomas) : thomas :=
  let y2 := upd (th_y2 s) i (get (th_y2 s) i / th_bb s) in
  if (i =? n - 2)%Z then mkth (th_bb s) (th_c s) y2
  else
    let a := get args (i + 1) - get args i in
    let c := upd (th_c s) (i - 1) a in
    let c := upd c (i - 1) (get c (i - 1) / th_bb s) in
    let bb := 2 * (get args (i + 2) - get args i) in
    let bb := bb - a * get c (i - 1) in
    let y2 := upd y2 (i + 1) (get y2 (i + 1) - a * get y2 i) in
    mkth bb c y2.

Definition back_step (c : list float) (i : Z) (y2 : list float) : list float :=
  upd y2 i (get y2 i - get c (i - 1) * get y2 (i + 1)).

Definition y2_init (n : Z) : list float :=
  upd (upd (repeat 0 (Z.to_nat n)) 0 0) (n - 1) 0.

Definition y2_three (args vals : list float) : float :=
  3 * ((get vals 2 - get vals 1) / (get args 2 - get args 1)
       - (get vals 1 - get vals 0) / (get args 1 - get args 0))
    / (get args 2 - get args 0).

Definition thomas_solve (args vals : list float) (n : Z) (y2 : list float)
  : list float :=
  let c := repeat 0 (Z.to_nat (n - 3)) in
  let y2 := for_up (Z.to_nat (n - 2)) 1%Z (fill_rhs args vals) y2 in
  let bb := 2 * (get args 2 - get args 0) in
  let s := for_up (Z.to_nat (n - 2)) 1%Z (forward_step args n) (mkth bb c y2) in
  for_down (Z.to_nat (n - 3)) (n - 3)%Z (back_step (th_c s)) (th_y2 s).

(** [void Table::TableImpl::setupSpline()], compiled without [USE_TMV]. *)
Definition setupSpline (args vals : list float) (n : Z) : result (list float) :=
  let y2 := y2_init n in
  if (n =? 3)%Z then Ok (upd y2 1 (y2_three args vals))
  else if (n - 3 <? 0)%Z then Err LengthError
  else Ok (thomas_solve args vals n y2).

(** [TableImpl::TableImpl(args, vals, N, in)] *)
Definition new (args vals : list float) (N : Z) (i : TableImpl.interpolant)
  : result t :=
  av <- ArgVec.new args N ;;
  match i with
  | TableImpl.spline => y2 <- setupSpline args vals N ;; Ok (mk i av vals N y2)
  | _ => Ok (mk i av vals N [])
  end.

Definition argMin (tb : t) : result float := ArgVec.front (_args tb).
Definition argMax (tb : t) : result float := ArgVec.back (_args tb).

Definition linearInterpolate (tb : t) (a : float) (i : Z) : result float :=
  xi <- ArgVec.at_ (_args tb) i ;;
  xp <- ArgVec.at_ (_args tb) (i - 1) ;;
  let ax := (xi - a) / (xi - xp) in
  let bx := 1 - ax in
  vi <- rd (_vals tb) i ;;
  vp <- rd (_vals tb) (i - 1) ;;
  Ok (vi * bx + vp * ax).

Definition floorInterpolate (tb : t) (a : float) (i : Z) : result float :=
  xi <- ArgVec.at_ (_args tb) i ;;
  let i := if PrimFloat.eqb a xi then (i + 1)%Z else i in
  rd (_vals tb) (i - 1).

Definition ceilInterpolate (tb : t) (a : float) (i : Z) : result float :=
  xp <- ArgVec.at_ (_args tb) (i - 1) ;;
  let i := if PrimFloat.eqb a xp then (i - 1)%Z else i in
  rd (_vals tb) i.

Definition nearestInterpolate (tb : t) (a : float) (i : Z) : result float :=
  xp <- ArgVec.at_ (_args tb) (i - 1) ;;
  xi <- ArgVec.at_ (_args tb) i ;;
  let i := if PrimFloat.ltb (a - xp) (xi - a) then (i - 1)%Z else i in
  rd (_vals tb) i.

Definition splineInterpolate (tb : t) (a : float) (i : Z) : result float :=
  xi <- ArgVec.at_ (_args tb) i ;;
  xp <- ArgVec.at_ (_args tb) (i - 1) ;;
  let h := xi - xp in
  let aa := xi - a in
  let bb := h - aa in
  vp <- rd (_vals tb) (i - 1) ;;
  vi <- rd (_vals tb) i ;;
  yp <- rd (_y2 tb) (i - 1) ;;
  yi <- rd (_y2 tb) i ;;
  Ok ((aa * vp + bb * vi
       - (1 / 6) * aa * bb * ((aa + h) * yp + (bb + h) * yi)) / h).

Definition interpolate (tb : t) : float -> Z -> result float :=
  match _iType tb with
  | TableImpl.linear => linearInterpolate tb
  | TableImpl.floor => floorInterpolate tb
  | TableImpl.ceil => ceilInterpolate tb
  | TableImpl.nearest => nearestInterpolate tb
  | TableImpl.spline => splineInterpolate tb
  end.

(** [double Table::TableImpl::lookup(double a) const] *)
Definition lookup (tb : t) (a : float) : result (float * t) :=
  '(i, av) <- ArgVec.upperIndex (_args tb) a ;;
  val <- interpolate tb a i ;;
  Ok (val, set_args tb av).

End TableImpl.

Module Table.

Definition t : Type := TableImpl.t.

Definition new := TableImpl.new.

(** [double Table::operator()(double a) const] *)
Definition call (tb : t) (a : float) : result (float * t) :=
  lo <- TableImpl.argMin tb ;;
  if PrimFloat.ltb a lo then Ok (0, tb) else
  hi <- TableImpl.argMax tb ;;
  if PrimFloat.ltb hi a then Ok (0, tb) else
  TableImpl.lookup tb a.

(** [double Table::lookup(double a) const] *)
Definition lookup (tb : t) (a : float) : result (float * t) := TableImpl.lookup tb a.

(** [void Table::interpMany(argvec, valvec, N) const] *)
Fixpoint interpMany (tb : t) (argvec : list float) : result (list float * t) :=
  match argvec with
  | [] => Ok ([], tb)
  | a :: rest =>
      '(v, tb') <- TableImpl.lookup tb a ;;
      '(vs, tb'') <- interpMany tb' rest ;;
      Ok (v :: vs, tb'')
  end.

End Table.

End IEEE.


(** * Properties *)

(** ** Comparisons, reads and writes *)

Lemma Qltb_true (x y : Q) : Qltb x y = true <-> x < y.
Proof.
  unfold Qltb. rewrite negb_true_iff, <- not_true_iff_false, Qle_bool_iff.
  split; [apply Qnot_le_lt | apply Qlt_not_le].
Qed.

Lemma Qltb_false (x y : Q) : Qltb x y = false <-> y <= x.
Proof.
  unfold Qltb. rewrite negb_false_iff. apply Qle_bool_iff.
Qed.

Lemma Qle_bool_false (x y : Q) : Qle_bool x y = false <-> y < x.
Proof.
  rewrite <- not_true_iff_false, Qle_bool_iff.
  split; [apply Qnot_le_lt | apply Qlt_not_le].
Qed.

Lemma Qeq_bool_false (x y : Q) : Qeq_bool x y = false <-> ~ x == y.
Proof.
  rewrite <- not_true_iff_false, Qeq_bool_iff. tauto.
Qed.

Lemma rd_ok (v : list Q) (i : Z) :
  (0 <= i < Z.of_nat (List.length v))%Z -> rd v i = Ok (get v i).
Proof.
  intros H. unfold rd, get.
  destruct (Z.leb_spec 0 i); [| lia].
  destruct (Z.ltb_spec i (Z.of_nat (List.length v))); [reflexivity | lia].
Qed.

Lemma rd_inv (v : list Q) (i : Z) (x : Q) :
  rd v i = Ok x -> (0 <= i < Z.of_nat (List.length v))%Z /\ x = get v i.
Proof.
  unfold rd, get.
  destruct (Z.leb_spec 0 i); destruct (Z.ltb_spec i (Z.of_nat (List.length v)));
    simpl; intros E; inversion E; split; auto; lia.
Qed.

Lemma length_upd_nat (v : list Q) (i : nat) (x : Q) :
  List.length (upd_nat v i x) = List.length v.
Proof.
  revert i; induction v as [| h t IH]; intros [| j]; simpl; auto.
Qed.

Lemma length_upd (v : list Q) (i : Z) (x : Q) :
  List.length (upd v i x) = List.length v.
Proof.
  unfold upd. destruct (i <? 0)%Z; auto using length_upd_nat.
Qed.

Lemma nth_upd_nat_same (v : list Q) (i : nat) (x : Q) :
  (i < List.length v)%nat -> nth i (upd_nat v i x) 0 = x.
Proof.
  revert i; induction v as [| h t IH]; intros [| j]; simpl; intros H;
    try lia; auto. apply IH; lia.
Qed.

Lemma nth_upd_nat_other (v : list Q) (i j : nat) (x : Q) :
  i <> j -> nth j (upd_nat v i x) 0 = nth j v 0.
Proof.
  revert i j; induction v as [| h t IH]; intros [| i] [| j]; simpl; intros H;
    try congruence; auto.
Qed.

Lemma get_upd_same (v : list Q) (i : Z) (x : Q) :
  (0 <= i < Z.of_nat (List.length v))%Z -> get (upd v i x) i = x.
Proof.
  intros H. unfold get, upd. destruct (Z.ltb_spec i 0); [lia |].
  apply nth_upd_nat_same. lia.
Qed.

Lemma get_upd_other (v : list Q) (i j : Z) (x : Q) :
  (0 <= j)%Z -> i <> j -> get (upd v i x) j = get v j.
Proof.
  intros Hj H. unfold get, upd. destruct (Z.ltb_spec i 0); [reflexivity |].
  apply nth_upd_nat_other. lia.
Qed.

Lemma get_repeat_zero (k : nat) (i : Z) : get (repeat 0 k) i = 0.
Proof.
  unfold get. generalize (Z.to_nat i) as j.
  induction k as [| k IH]; intros [| j]; simpl; auto.
Qed.

(** ** Strictly ascending arrays *)

Lemma ascendingb_step (l : list Q) (i : nat) :
  ascendingb l = true -> (S i < List.length l)%nat ->
  nth i l 0 < nth (S i) l 0.
Proof.
  revert i; induction l as [| x t IH]; intros i H Hi; simpl in Hi; [lia |].
  destruct t as [| y t']; [simpl in Hi; lia |].
  change (ascendingb (x :: y :: t')) with (Qltb x y && ascendingb (y :: t')) in H.
  apply andb_true_iff in H as [Hxy Ht].
  destruct i as [| i].
  - simpl. now apply Qltb_true.
  - change (nth i (y :: t') 0 < nth (S i) (y :: t') 0).
    apply IH; auto. simpl in *; lia.
Qed.

Lemma ascendingb_lt (l : list Q) (i j : Z) :
  ascendingb l = true -> (0 <= i < j)%Z -> (j < Z.of_nat (List.length l))%Z ->
  get l i < get l j.
Proof.
  intros H Hij Hj. unfold get.
  assert (G : forall d : nat, (Z.to_nat i + S d < List.length l)%nat ->
              nth (Z.to_nat i) l 0 < nth (Z.to_nat i + S d) l 0).
  { induction d as [| d IH]; intros Hd.
    - replace (Z.to_nat i + 1)%nat with (S (Z.to_nat i)) by lia.
      apply ascendingb_step; auto; lia.
    - eapply Qlt_trans; [apply IH; lia |].
      replace (Z.to_nat i + S (S d))%nat with (S (Z.to_nat i + S d)) by lia.
      apply ascendingb_step; auto; lia. }
  replace (Z.to_nat j) with (Z.to_nat i + S (Z.to_nat (j - i - 1)))%nat by lia.
  apply G. lia.
Qed.

Lemma ascendingb_le (l : list Q) (i j : Z) :
  ascendingb l = true -> (0 <= i <= j)%Z -> (j < Z.of_nat (List.length l))%Z ->
  get l i <= get l j.
Proof.
  intros H Hij Hj. destruct (Z.eq_dec i j) as [-> | Hne].
  - apply Qle_refl.
  - apply Qlt_le_weak, ascendingb_lt; auto; lia.
Qed.

(** A value has at most two brackets, and they are neighbours. *)
Lemma bracket_near (l : list Q) (a : Q) (i k : Z) :
  ascendingb l = true ->
  (1 <= i < Z.of_nat (List.length l))%Z -> (1 <= k < Z.of_nat (List.length l))%Z ->
  get l (i - 1) <= a <= get l i -> get l (k - 1) <= a <= get l k ->
  i = k \/ (i = k + 1 /\ a == get l k)%Z \/ (k = i + 1 /\ a == get l i)%Z.
Proof.
  intros H Hi Hk [A1 A2] [B1 B2].
  destruct (Z.lt_trichotomy i k) as [L | [E | G]]; [| now left |].
  - right; right.
    assert (k = i + 1)%Z.
    { destruct (Z.eq_dec k (i + 1)) as [|N]; auto.
      assert (get l i < get l (k - 1)) by (apply ascendingb_lt; auto; lia). lra. }
    subst k. split; auto. replace (i + 1 - 1)%Z with i in B1 by lia. lra.
  - right; left.
    assert (i = k + 1)%Z.
    { destruct (Z.eq_dec i (k + 1)) as [|N]; auto.
      assert (get l k < get l (i - 1)) by (apply ascendingb_lt; auto; lia). lra. }
    subst i. split; auto. replace (k + 1 - 1)%Z with k in A1 by lia. lra.
Qed.

(** ** The correction loops of the equal-spaced branch *)

Lemma nudge_up_spec (vec : list Q) (a : Q) (fuel : nat) (i : Z) :
  (0 <= i < Z.of_nat (List.length vec))%Z ->
  a <= get vec (Z.of_nat (List.length vec) - 1) ->
  (Z.of_nat (List.length vec) - i <= Z.of_nat fuel)%Z ->
  exists i', ArgVec.nudge_up fuel vec a i = Ok i' /\
             (i <= i' < Z.of_nat (List.length vec))%Z /\ a <= get vec i'.
Proof.
  revert i; induction fuel as [| f IH]; intros i Hi Ha Hf; [lia |].
  simpl. rewrite rd_ok by lia. simpl.
  destruct (Qltb (get vec i) a) eqn:E.
  - apply Qltb_true in E.
    assert (i <> Z.of_nat (List.length vec) - 1)%Z.
    { intros ->. lra. }
    destruct (IH (i + 1)%Z) as (i' & R & B & L); try lia; auto.
    exists i'. repeat split; auto; lia.
  - apply Qltb_false in E. exists i. repeat split; auto; lia.
Qed.

Lemma nudge_down_spec (vec : list Q) (a : Q) (fuel : nat) (i : Z) :
  (1 <= i < Z.of_nat (List.length vec))%Z ->
  get vec 0 <= a -> a <= get vec i ->
  (i <= Z.of_nat fuel)%Z ->
  exists i', ArgVec.nudge_down fuel vec a i = Ok i' /\
             (1 <= i' <= i)%Z /\ get vec (i' - 1) <= a <= get vec i'.
Proof.
  revert i; induction fuel as [| f IH]; intros i Hi Ha Hu Hf; [lia |].
  simpl. rewrite rd_ok by lia. simpl.
  destruct (Qltb a (get vec (i - 1))) eqn:E.
  - apply Qltb_true in E.
    assert (i <> 1)%Z.
    { intros ->. simpl in E. lra. }
    destruct (IH (i - 1)%Z) as (i' & R & B & L); try lia; auto.
    { lra. }
    exists i'. repeat split; try tauto; lia.
  - apply Qltb_false in E. exists i. repeat split; auto; lia.
Qed.

(** From any first estimate inside [1 .. N-1], the two loops end on a
    bracket of [a] without leaving the array. *)
Lemma nudge_spec (v : ArgVec.t) (a : Q) (i : Z) :
  axis_ok v -> (1 <= i <= ArgVec._n v - 1)%Z ->
  get (ArgVec._vec v) 0 <= a <= get (ArgVec._vec v) (ArgVec._n v - 1) ->
  exists i', ArgVec.nudge v a i = Ok i' /\ bracket (ArgVec._vec v) a i'.
Proof.
  intros ((Hlen & Hasc) & Hn & _ & _) Hi [Ha Hb].
  unfold ArgVec.nudge.
  destruct (nudge_up_spec (ArgVec._vec v) a (S (List.length (ArgVec._vec v))) i)
    as (i1 & R1 & B1 & L1); try lia.
  { rewrite Hlen; auto. }
  rewrite R1. simpl.
  destruct (nudge_down_spec (ArgVec._vec v) a (S (List.length (ArgVec._vec v))) i1)
    as (i2 & R2 & B2 & L2); try lia; auto.
  exists i2. split; auto. split; auto. lia.
Qed.

Lemma estimate_range (v : ArgVec.t) (a : Q) :
  axis_ok v ->
  get (ArgVec._vec v) 0 <= a <= get (ArgVec._vec v) (ArgVec._n v - 1) ->
  (1 <= ArgVec.estimate v (get (ArgVec._vec v) 0) a <= ArgVec._n v - 1)%Z.
Proof.
  intros ((Hlen & Hasc) & Hn & Hda & _) [Ha Hb].
  set (fr := get (ArgVec._vec v) 0) in *.
  set (bk := get (ArgVec._vec v) (ArgVec._n v - 1)) in *.
  assert (Hfb : fr < bk) by (apply ascendingb_lt; auto; lia).
  assert (Hn1 : 0 < inject_Z (ArgVec._n v - 1)).
  { replace 0 with (inject_Z 0) by reflexivity. rewrite <- Zlt_Qlt. lia. }
  assert (Hdpos : 0 < ArgVec._da v).
  { rewrite Hda. apply Qlt_shift_div_l; auto. lra. }
  assert (Hx0 : 0 <= (a - fr) / ArgVec._da v).
  { apply Qle_shift_div_l; auto. lra. }
  assert (Hx1 : (a - fr) / ArgVec._da v <= inject_Z (ArgVec._n v - 1)).
  { apply Qle_shift_div_r; auto.
    assert (E : inject_Z (ArgVec._n v - 1) * ArgVec._da v == bk - fr).
    { rewrite Hda. field. lra. }
    rewrite E. lra. }
  assert (Hc0 : (0 <= Qceiling ((a - fr) / ArgVec._da v))%Z).
  { apply (Qceiling_resp_le 0) in Hx0. exact Hx0. }
  assert (Hc1 : (Qceiling ((a - fr) / ArgVec._da v) <= ArgVec._n v - 1)%Z).
  { apply Qceiling_resp_le in Hx1. now rewrite Qceiling_Z in Hx1. }
  unfold ArgVec.estimate.
  destruct (Z.geb_spec (Qceiling ((a - fr) / ArgVec._da v)) (ArgVec._n v)); [lia |].
  destruct (Z.eqb_spec (Qceiling ((a - fr) / ArgVec._da v)) 0); lia.
Qed.

Lemma upperIndex_equalSpaced_spec (v : ArgVec.t) (a : Q) :
  axis_ok v ->
  get (ArgVec._vec v) 0 <= a <= get (ArgVec._vec v) (ArgVec._n v - 1) ->
  exists i, ArgVec.upperIndex_equalSpaced v a = Ok i /\ bracket (ArgVec._vec v) a i.
Proof.
  intros Hok Ha. unfold ArgVec.upperIndex_equalSpaced, ArgVec.front.
  pose proof Hok as ((Hlen & Hasc) & Hn & _).
  rewrite rd_ok by lia. simpl.
  apply nudge_spec; auto.
  apply estimate_range; auto.
Qed.

(** ** The bisections of the cursor branch *)

Lemma shiftr1_bounds (len : Z) :
  (0 < len)%Z -> (0 <= Z.shiftr len 1 < len)%Z.
Proof.
  intros H. rewrite Z.shiftr_div_pow2 by lia. change (2 ^ 1)%Z with 2%Z.
  split; [apply Z.div_pos; lia | apply Z.div_lt; lia].
Qed.

Lemma upper_bound_spec (vec : list Q) (a : Q) (fuel : nat) (first len : Z) :
  ascendingb vec = true ->
  (0 <= first)%Z -> (0 <= len)%Z -> (first + len <= Z.of_nat (List.length vec))%Z ->
  (len <= Z.of_nat fuel)%Z ->
  exists p, ArgVec.upper_bound fuel vec first len a = Ok p /\
            (first <= p <= first + len)%Z /\
            (forall k, (first <= k < p)%Z -> get vec k <= a) /\
            (forall k, (p <= k < first + len)%Z -> a < get vec k).
Proof.
  intros Hasc. revert first len.
  induction fuel as [| f IH]; intros first len Hf Hl Hb Hfu.
  - assert (len = 0)%Z by lia. subst len. simpl.
    exists first. repeat split; try lia; intros; lia.
  - simpl. destruct (Z.leb_spec len 0).
    + exists first. repeat split; try lia; intros; lia.
    + pose proof (shiftr1_bounds len H) as Hh.
      set (half := Z.shiftr len 1) in *.
      rewrite rd_ok by lia. simpl.
      destruct (Qltb a (get vec (first + half))) eqn:E.
      * apply Qltb_true in E.
        destruct (IH first half) as (p & R & B & Lo & Hi); try lia.
        exists p. repeat split; auto; try lia.
        intros k Hk. destruct (Z.lt_ge_cases k (first + half)).
        -- apply Hi; lia.
        -- eapply Qlt_le_trans; [exact E |].
           apply ascendingb_le; auto; lia.
      * apply Qltb_false in E.
        destruct (IH (first + half + 1)%Z (len - half - 1)%Z)
          as (p & R & B & Lo & Hi); try lia.
        exists p. repeat split; auto; try lia.
        -- intros k Hk. destruct (Z.lt_ge_cases k (first + half + 1)).
           ++ eapply Qle_trans; [| exact E].
              apply ascendingb_le; auto; lia.
           ++ apply Lo; lia.
        -- intros k Hk. apply Hi; lia.
Qed.

Lemma lower_bound_spec (vec : list Q) (a : Q) (fuel : nat) (first len : Z) :
  ascendingb vec = true ->
  (0 <= first)%Z -> (0 <= len)%Z -> (first + len <= Z.of_nat (List.length vec))%Z ->
  (len <= Z.of_nat fuel)%Z ->
  exists p, ArgVec.lower_bound fuel vec first len a = Ok p /\
            (first <= p <= first + len)%Z /\
            (forall k, (first <= k < p)%Z -> get vec k < a) /\
            (forall k, (p <= k < first + len)%Z -> a <= get vec k).
Proof.
  intros Hasc. revert first len.
  induction fuel as [| f IH]; intros first len Hf Hl Hb Hfu.
  - assert (len = 0)%Z by lia. subst len. simpl.
    exists first. repeat split; try lia; intros; lia.
  - simpl. destruct (Z.leb_spec len 0).
    + exists first. repeat split; try lia; intros; lia.
    + pose proof (shiftr1_bounds len H) as Hh.
      set (half := Z.shiftr len 1) in *.
      rewrite rd_ok by lia. simpl.
      destruct (Qltb (get vec (first + half)) a) eqn:E.
      * apply Qltb_true in E.
        destruct (IH (first + half + 1)%Z (len - half - 1)%Z)
          as (p & R & B & Lo & Hi); try lia.
        exists p. repeat split; auto; try lia.
        -- intros k Hk. destruct (Z.lt_ge_cases k (first + half + 1)).
           ++ eapply Qle_lt_trans; [| exact E].
              apply ascendingb_le; auto; lia.
           ++ apply Lo; lia.
        -- intros k Hk. apply Hi; lia.
      * apply Qltb_false in E.
        destruct (IH first half) as (p & R & B & Lo & Hi); try lia.
        exists p. repeat split; auto; try lia.
        intros k Hk. destruct (Z.lt_ge_cases k (first + half)).
        -- apply Hi; lia.
        -- eapply Qle_trans; [exact E |].
           apply ascendingb_le; auto; lia.
Qed.

(** ** The cursor branch *)

Lemma axis_ok_set_lastIndex (v : ArgVec.t) (i : Z) :
  axis_ok v -> (1 <= i <= ArgVec._n v - 1)%Z ->
  axis_ok (ArgVec.set_lastIndex v i) /\ same_axis v (ArgVec.set_lastIndex v i).
Proof.
  intros (A & B & C & D) Hi. unfold axis_ok, same_axis. simpl. tauto.
Qed.

Lemma same_axis_refl (v : ArgVec.t) : same_axis v v.
Proof. unfold same_axis; tauto. Qed.

Ltac finish_search K1 K2 :=
  split; [reflexivity |];
  split; [| split; [exact K1 | split; [exact K2 | reflexivity]]];
  split; [lia | split].

Lemma upperIndex_search_spec (v : ArgVec.t) (a : Q) :
  axis_ok v ->
  get (ArgVec._vec v) 0 <= a <= get (ArgVec._vec v) (ArgVec._n v - 1) ->
  exists i v', ArgVec.upperIndex_search v a = Ok (i, v') /\
               bracket (ArgVec._vec v) a i /\
               axis_ok v' /\ same_axis v v' /\ ArgVec._lastIndex v' = i.
Proof.
  intros Hok [Ha Hb].
  pose proof Hok as ((Hlen & Hasc) & Hn & Hda & Hc).
  unfold ArgVec.upperIndex_search.
  set (L := ArgVec._lastIndex v) in *. set (vec := ArgVec._vec v) in *.
  set (n := ArgVec._n v) in *.
  destruct (Z.geb_spec L 1) as [_ |]; [| lia].
  destruct (Z.ltb_spec L n) as [_ |]; [| lia]. simpl.
  rewrite rd_ok by lia. simpl.
  destruct (Qltb a (get vec (L - 1))) eqn:E1.
  - (* go lower *)
    apply Qltb_true in E1.
    assert (HL2 : (2 <= L)%Z).
    { destruct (Z.eq_dec L 1) as [e |]; [| lia]. rewrite e in E1. simpl in E1. lra. }
    destruct (Z.geb_spec (L - 2) 0) as [_ |]; [| lia]. simpl.
    rewrite rd_ok by lia. simpl.
    destruct (Qle_bool (get vec (L - 2)) a) eqn:E2.
    + apply Qle_bool_iff in E2.
      destruct (axis_ok_set_lastIndex v (L - 1) Hok) as [K1 K2]; [fold n; lia |].
      exists (L - 1)%Z, (ArgVec.set_lastIndex v (L - 1)).
      finish_search K1 K2.
      * replace (L - 1 - 1)%Z with (L - 2)%Z by lia. exact E2.
      * lra.
    + apply Qle_bool_false in E2.
      destruct (upper_bound_spec vec a (Z.to_nat (L - 1)) 0 (L - 1))
        as (p & R & B & Lo & Hi); auto; try lia.
      rewrite R. simpl.
      assert (Hp0 : p <> 0%Z).
      { intros ->. assert (a < get vec 0) by (apply Hi; lia). lra. }
      assert (HpL : p <> (L - 1)%Z).
      { intros ->. assert (get vec (L - 2) <= a) by (apply Lo; lia). lra. }
      destruct (Z.eqb_spec p 0) as [|_]; [contradiction |].
      destruct (Z.eqb_spec p (L - 1)) as [|_]; [contradiction |]. simpl.
      destruct (axis_ok_set_lastIndex v p Hok) as [K1 K2]; [fold n; lia |].
      exists p, (ArgVec.set_lastIndex v p).
      finish_search K1 K2.
      * apply Lo; lia.
      * apply Qlt_le_weak, Hi; lia.
  - apply Qltb_false in E1.
    rewrite rd_ok by lia. simpl.
    destruct (Qltb (get vec L) a) eqn:E3.
    + (* go higher *)
      apply Qltb_true in E3.
      assert (HL2 : (L + 1 < n)%Z).
      { destruct (Z.eq_dec L (n - 1)) as [e |]; [| lia]. rewrite e in E3. lra. }
      destruct (Z.ltb_spec (L + 1) n) as [_ |]; [| lia]. simpl.
      rewrite rd_ok by lia. simpl.
      destruct (Qle_bool a (get vec (L + 1))) eqn:E4.
      * apply Qle_bool_iff in E4.
        destruct (axis_ok_set_lastIndex v (L + 1) Hok) as [K1 K2]; [fold n; lia |].
        exists (L + 1)%Z, (ArgVec.set_lastIndex v (L + 1)).
        finish_search K1 K2.
        -- replace (L + 1 - 1)%Z with L by lia. lra.
        -- exact E4.
      * apply Qle_bool_false in E4.
        destruct (lower_bound_spec vec a (Z.to_nat (n - (L + 1))) (L + 1) (n - (L + 1)))
          as (p & R & B & Lo & Hi); auto; try lia.
        rewrite R. simpl.
        assert (Hp0 : p <> (L + 1)%Z).
        { intros ->. assert (a <= get vec (L + 1)) by (apply Hi; lia). lra. }
        assert (HpL : p <> n).
        { intros ->. assert (get vec (n - 1) < a) by (apply Lo; lia). lra. }
        destruct (Z.eqb_spec p (L + 1)) as [|_]; [contradiction |].
        destruct (Z.eqb_spec p n) as [|_]; [contradiction |]. simpl.
        destruct (axis_ok_set_lastIndex v p Hok) as [K1 K2]; [fold n; lia |].
        exists p, (ArgVec.set_lastIndex v p).
        finish_search K1 K2.
        -- apply Qlt_le_weak, Lo; lia.
        -- apply Hi; lia.
    + apply Qltb_false in E3.
      exists L, v. pose proof (same_axis_refl v) as K2.
      finish_search Hok K2; auto.
Qed.

(** ** [upperIndex] as a whole *)

Lemma same_axis_trans (u v w : ArgVec.t) :
  same_axis u v -> same_axis v w -> same_axis u w.
Proof.
  unfold same_axis. intros (A & B & C & D) (A' & B' & C' & D').
  repeat split; congruence.
Qed.

Lemma upperIndex_spec (v : ArgVec.t) (a : Q) :
  axis_ok v ->
  exists i v',
    ArgVec.upperIndex v a = Ok (i, v') /\
    axis_ok v' /\ same_axis v v' /\
    (1 <= i <= ArgVec._n v - 1)%Z /\
    (a < get (ArgVec._vec v) 0 -> i = 1%Z) /\
    (get (ArgVec._vec v) (ArgVec._n v - 1) < a -> i = (ArgVec._n v - 1)%Z) /\
    (get (ArgVec._vec v) 0 <= a <= get (ArgVec._vec v) (ArgVec._n v - 1) ->
     bracket (ArgVec._vec v) a i).
Proof.
  intros Hok. pose proof Hok as ((Hlen & Hasc) & Hn & Hda & Hc).
  assert (Hfb : get (ArgVec._vec v) 0 < get (ArgVec._vec v) (ArgVec._n v - 1))
    by (apply ascendingb_lt; auto; lia).
  unfold ArgVec.upperIndex, ArgVec.front, ArgVec.back.
  rewrite rd_ok by lia. simpl.
  destruct (Qltb a (get (ArgVec._vec v) 0)) eqn:E1.
  { apply Qltb_true in E1. exists 1%Z, v.
    repeat split; auto using same_axis_refl; try tauto; try lia; lra. }
  apply Qltb_false in E1.
  rewrite rd_ok by lia. simpl.
  destruct (Qltb (get (ArgVec._vec v) (ArgVec._n v - 1)) a) eqn:E2.
  { apply Qltb_true in E2. exists (ArgVec._n v - 1)%Z, v.
    repeat split; auto using same_axis_refl; try tauto; try lia; lra. }
  apply Qltb_false in E2.
  destruct (ArgVec._equalSpaced v).
  - destruct (upperIndex_equalSpaced_spec v a Hok) as (i & R & B); [lra |].
    rewrite R. simpl. exists i, v.
    pose proof B as [B1 _].
    split; [reflexivity |]. split; [exact Hok |]. split; [apply same_axis_refl |].
    split; [lia |]. split; [lra |]. split; [lra | auto].
  - destruct (upperIndex_search_spec v a Hok) as (i & v' & R & B & K1 & K2 & _); [lra |].
    rewrite R. exists i, v'.
    pose proof B as [B1 _].
    split; [reflexivity |]. split; [exact K1 |]. split; [exact K2 |].
    split; [lia |]. split; [lra |]. split; [lra | auto].
Qed.

(** ** The constructor *)

Lemma spacing_loop_ok (vec : list Q) (da : Q) (count : nat) (i : Z) (eq : bool) :
  (1 <= i)%Z -> (i + Z.of_nat count <= Z.of_nat (List.length vec))%Z ->
  exists b, for_loop count i (ArgVec.spacing_step vec da) eq = Ok b.
Proof.
  revert i eq; induction count as [| k IH]; intros i eq Hi Hb; simpl.
  - now exists eq.
  - unfold ArgVec.spacing_step at 1. rewrite !rd_ok by lia. simpl.
    destruct (Qltb _ _); simpl; apply IH; lia.
Qed.

Lemma ArgVec_new_ok (vec : list Q) (n : Z) :
  (2 <= n)%Z -> ascending vec n ->
  exists v, ArgVec.new vec n = Ok v /\ axis_ok v /\
            ArgVec._vec v = vec /\ ArgVec._n v = n /\ ArgVec._lastIndex v = 1%Z.
Proof.
  intros Hn [Hlen Hasc]. unfold ArgVec.new.
  rewrite !rd_ok by lia. cbn [bind].
  destruct (spacing_loop_ok vec
              ((get vec (n - 1) - get vec 0) / inject_Z (n - 1))
              (Z.to_nat (n - 1)) 1 true) as (b & R); try lia.
  rewrite R. cbn [bind].
  eexists. split; [reflexivity |]. unfold axis_ok, ascending. simpl.
  repeat split; auto; try lia; reflexivity.
Qed.

Lemma axis_ok_with_equalSpaced (b : bool) (v : ArgVec.t) :
  axis_ok v -> axis_ok (ArgVec.with_equalSpaced b v).
Proof. unfold axis_ok. simpl. tauto. Qed.

Lemma reachable_ok (v0 v : ArgVec.t) :
  axis_ok v0 -> ArgVec.reachable v0 v -> axis_ok v /\ same_axis v0 v.
Proof.
  intros H0 R. induction R as [| v a i v' R IH Hstep].
  - split; auto using same_axis_refl.
  - destruct IH as [Hv Hs].
    destruct (upperIndex_spec v a Hv) as (i' & w & E & K1 & K2 & _).
    rewrite Hstep in E. inversion E; subst.
    split; auto. eapply same_axis_trans; eauto.
Qed.

(** ** Claim C1 *)

(** C1.  For an axis built over [N >= 2] strictly ascending values and made
    to take either branch ([path = true]: equal-spaced arithmetic,
    [path = false]: cursor and bisection), in any cursor state [v] that
    earlier queries can leave behind, [upperIndex v a] returns an index [i]
    with [1 <= i <= N-1]; if [a] lies in [[args[0], args[N-1]]] then
    [args[i-1] <= a <= args[i]]; if [a < args[0]] then [i = 1]; if
    [a > args[N-1]] then [i = N-1]. *)
Theorem upperIndex_bracket
        (args : list Q) (N : Z) (path : bool) (built v : ArgVec.t) (a : Q) :
  (2 <= N)%Z -> ascending args N ->
  ArgVec.new args N = Ok built ->
  ArgVec.reachable (ArgVec.with_equalSpaced path built) v ->
  exists i v',
    ArgVec.upperIndex v a = Ok (i, v') /\
    (1 <= i <= N - 1)%Z /\
    (get args 0 <= a <= get args (N - 1) -> get args (i - 1) <= a <= get args i) /\
    (a < get args 0 -> i = 1%Z) /\
    (get args (N - 1) < a -> i = (N - 1)%Z).
Proof.
  intros HN Hasc Hnew Hreach.
  destruct (ArgVec_new_ok args N HN Hasc) as (b & E & Hok & Hvec & Hn & _).
  rewrite Hnew in E. inversion E; subst b. clear E.
  apply (axis_ok_with_equalSpaced path) in Hok.
  destruct (reachable_ok _ _ Hok Hreach) as [Hv (Sv & Sn & _)].
  simpl in Sv, Sn. rewrite Hvec in Sv. rewrite Hn in Sn.
  destruct (upperIndex_spec v a Hv) as (i & v' & R & _ & _ & Hi & Hlo & Hhi & Hin).
  rewrite Sv, Sn in *.
  exists i, v'. split; [exact R |]. split; [exact Hi |].
  split; [| split; assumption].
  intros Hr. destruct (Hin Hr) as [_ B]. exact B.
Qed.

Lemma upperIndex_bracket_witness :
  exists i v',
    ArgVec.upperIndex
      (ArgVec.with_equalSpaced false
         (ArgVec.mk [0; 1; 3; 4] 4 (1 # 1000000) (1 # 1000000) false (4 # 3) 1))
      (7 # 2) = Ok (i, v') /\
    (1 <= i <= 4 - 1)%Z /\
    (get [0; 1; 3; 4] 0 <= 7 # 2 <= get [0; 1; 3; 4] (4 - 1) ->
     get [0; 1; 3; 4] (i - 1) <= 7 # 2 <= get [0; 1; 3; 4] i) /\
    (7 # 2 < get [0; 1; 3; 4] 0 -> i = 1%Z) /\
    (get [0; 1; 3; 4] (4 - 1) < 7 # 2 -> i = (4 - 1)%Z).
Proof.
  apply (upperIndex_bracket [0; 1; 3; 4] 4 false
           (ArgVec.mk [0; 1; 3; 4] 4 (1 # 1000000) (1 # 1000000) false (4 # 3) 1)).
  - lia.
  - split; reflexivity.
  - reflexivity.
  - apply ArgVec.reach_init.
Defined.

(** ** Loop invariants *)

Lemma for_up_inv {St : Type} (P : Z -> St -> Prop) (body : Z -> St -> St)
      (count : nat) (i : Z) (s : St) :
  P i s ->
  (forall j t, (i <= j < i + Z.of_nat count)%Z -> P j t -> P (j + 1)%Z (body j t)) ->
  P (i + Z.of_nat count)%Z (for_up count i body s).
Proof.
  revert i s; induction count as [| k IH]; intros i s H0 Hstep.
  - simpl. now rewrite Z.add_0_r.
  - simpl for_up.
    replace (i + Z.of_nat (S k))%Z with (i + 1 + Z.of_nat k)%Z by lia.
    apply IH.
    + apply Hstep; auto; lia.
    + intros j t Hj. apply Hstep; lia.
Qed.

Lemma for_down_inv {St : Type} (P : Z -> St -> Prop) (body : Z -> St -> St)
      (count : nat) (i : Z) (s : St) :
  P i s ->
  (forall j t, (i - Z.of_nat count < j <= i)%Z -> P j t -> P (j - 1)%Z (body j t)) ->
  P (i - Z.of_nat count)%Z (for_down count i body s).
Proof.
  revert i s; induction count as [| k IH]; intros i s H0 Hstep.
  - simpl. now rewrite Z.sub_0_r.
  - simpl for_down.
    replace (i - Z.of_nat (S k))%Z with (i - 1 - Z.of_nat k)%Z by lia.
    apply IH.
    + apply Hstep; auto; lia.
    + intros j t Hj. apply Hstep; lia.
Qed.

(** ** The size of the spline coefficients *)

Lemma length_y2_init (n : Z) : List.length (TableImpl.y2_init n) = Z.to_nat n.
Proof.
  unfold TableImpl.y2_init. now rewrite !length_upd, repeat_length.
Qed.

Lemma length_thomas_solve (args vals : list Q) (n : Z) (y2 : list Q) :
  List.length (TableImpl.thomas_solve args vals n y2) = List.length y2.
Proof.
  unfold TableImpl.thomas_solve.
  set (P := fun (_ : Z) (l : list Q) => List.length l = List.length y2).
  set (PS := fun (_ : Z) (s : TableImpl.thomas) =>
               List.length (TableImpl.th_y2 s) = List.length y2).
  assert (H1 : P (1 + Z.of_nat (Z.to_nat (n - 2)))%Z
                 (for_up (Z.to_nat (n - 2)) 1 (TableImpl.fill_rhs args vals) y2)).
  { apply for_up_inv; [reflexivity |].
    intros j t _ Ht. unfold P, TableImpl.fill_rhs in *. now rewrite length_upd. }
  match goal with |- context [for_up ?c ?i (TableImpl.forward_step args n) ?s] =>
    assert (H2 : PS (i + Z.of_nat c)%Z (for_up c i (TableImpl.forward_step args n) s))
  end.
  { apply for_up_inv; [exact H1 |].
    intros j t _ Ht. unfold PS, TableImpl.forward_step in *.
    destruct (j =? n - 2)%Z; simpl; now rewrite ?length_upd. }
  match goal with |- context [for_down ?c ?i ?b ?s] =>
    apply (for_down_inv P b c i s)
  end; [exact H2 |].
  intros j t _ Ht. unfold P, TableImpl.back_step in *. now rewrite length_upd.
Qed.

Lemma length_setupSpline (args vals : list Q) (n : Z) (y2 : list Q) :
  TableImpl.setupSpline args vals n = Ok y2 -> List.length y2 = Z.to_nat n.
Proof.
  unfold TableImpl.setupSpline.
  destruct (n =? 3)%Z; [| destruct (n - 3 <? 0)%Z]; intros E; inversion E.
  - now rewrite length_upd, length_y2_init.
  - now rewrite length_thomas_solve, length_y2_init.
Qed.

Lemma setupSpline_ok (args vals : list Q) (n : Z) :
  (3 <= n)%Z -> exists y2, TableImpl.setupSpline args vals n = Ok y2.
Proof.
  intros H. unfold TableImpl.setupSpline.
  destruct (n =? 3)%Z; [eauto |].
  destruct (Z.ltb_spec (n - 3) 0); [lia | eauto].
Qed.

(** ** Construction of a table *)

Lemma TableImpl_new_inv (args vals : list Q) (N : Z) (rule : TableImpl.interpolant)
      (tb : TableImpl.t) :
  (2 <= N)%Z -> ascending args N -> Z.of_nat (List.length vals) = N ->
  TableImpl.new args vals N rule = Ok tb ->
  table_ok tb /\ ArgVec._vec (TableImpl._args tb) = args /\
  TableImpl._vals tb = vals /\ TableImpl._n tb = N /\
  TableImpl._iType tb = rule /\ ArgVec._lastIndex (TableImpl._args tb) = 1%Z.
Proof.
  intros HN Hasc Hv. unfold TableImpl.new.
  destruct (ArgVec_new_ok args N HN Hasc) as (v & E & Hok & Hvec & Hn & Hc).
  rewrite E. cbn [bind].
  assert (G : forall y2, (rule = TableImpl.spline -> List.length y2 = Z.to_nat N) ->
              Ok (TableImpl.mk rule v vals N y2) = Ok tb ->
              table_ok tb /\ ArgVec._vec (TableImpl._args tb) = args /\
              TableImpl._vals tb = vals /\ TableImpl._n tb = N /\
              TableImpl._iType tb = rule /\
              ArgVec._lastIndex (TableImpl._args tb) = 1%Z).
  { intros y2 Hy E'. inversion E'; subst tb. unfold table_ok. simpl.
    split; [| repeat split; auto].
    split; [exact Hok |]. split; [congruence |]. split; [exact Hv |].
    intros Hr. rewrite (Hy Hr). lia. }
  destruct rule; try (intros E'; eapply G; [discriminate | exact E']).
  destruct (TableImpl.setupSpline args vals N) as [y2 |] eqn:Es; cbn [bind];
    [| discriminate].
  intros E'. eapply G; [| exact E']. intros _. eapply length_setupSpline; eauto.
Qed.

Lemma TableImpl_new_ok (args vals : list Q) (N : Z) (rule : TableImpl.interpolant) :
  (2 <= N)%Z -> ascending args N ->
  (rule = TableImpl.spline -> 3 <= N)%Z ->
  exists tb, TableImpl.new args vals N rule = Ok tb.
Proof.
  intros HN Hasc Hs. unfold TableImpl.new.
  destruct (ArgVec_new_ok args N HN Hasc) as (v & E & _).
  rewrite E. cbn [bind].
  destruct rule; eauto.
  destruct (setupSpline_ok args vals N (Hs eq_refl)) as (y2 & Ey).
  rewrite Ey. cbn [bind]. eauto.
Qed.

Lemma table_ok_set_cursor (tb : TableImpl.t) (c : Z) :
  table_ok tb -> (1 <= c <= TableImpl._n tb - 1)%Z ->
  table_ok (Table.set_cursor tb c) /\ same_table tb (Table.set_cursor tb c).
Proof.
  intros (A & B & C & D) Hc.
  destruct (axis_ok_set_lastIndex (TableImpl._args tb) c A) as [K1 K2]; [lia |].
  unfold table_ok, same_table, Table.set_cursor. simpl. tauto.
Qed.


Lemma same_table_trans (t1 t2 t3 : TableImpl.t) :
  same_table t1 t2 -> same_table t2 t3 -> same_table t1 t3.
Proof.
  unfold same_table. intros (A & B & C & D & E) (A' & B' & C' & D' & E').
  split; [eapply same_axis_trans; eauto |]. repeat split; congruence.
Qed.

Lemma same_table_sym (t1 t2 : TableImpl.t) :
  same_table t1 t2 -> same_table t2 t1.
Proof.
  unfold same_table, same_axis. intros ((A1 & A2 & A3 & A4) & B & C & D & E).
  repeat split; congruence.
Qed.

(** ** The five interpolation rules *)

Lemma sample_bracket (l : list Q) (a : Q) (i k : Z) :
  ascendingb l = true -> bracket l a i ->
  (0 <= k < Z.of_nat (List.length l))%Z -> a == get l k ->
  k = i \/ k = (i - 1)%Z.
Proof.
  intros Hasc [Hi [B1 B2]] Hk Ha.
  destruct (Z.lt_ge_cases k (i - 1)) as [L | G].
  - assert (get l k < get l (i - 1)) by (apply ascendingb_lt; auto; lia). lra.
  - destruct (Z.lt_ge_cases i k) as [L' | G']; [| lia].
    assert (get l i < get l k) by (apply ascendingb_lt; auto; lia). lra.
Qed.

Ltac table_reads Hok :=
  let A := fresh "Hax" in
  let Hlen := fresh "Hlen" in
  let Hasc := fresh "Hasc" in
  let Hn := fresh "Hn" in
  let Hnn := fresh "Hnn" in
  let Hv := fresh "Hvals" in
  let Hy := fresh "Hy2" in
  pose proof Hok as (A & Hnn & Hv & Hy);
  pose proof A as ((Hlen & Hasc) & Hn & _).

Lemma interpolate_ok (tb : TableImpl.t) (a : Q) (i : Z) :
  table_ok tb -> (1 <= i <= TableImpl._n tb - 1)%Z ->
  exists val, TableImpl.interpolate tb a i = Ok val.
Proof.
  intros Hok Hi. table_reads Hok.
  unfold TableImpl.interpolate.
  destruct (TableImpl._iType tb) eqn:Ety.
  - unfold TableImpl.linearInterpolate, ArgVec.at_.
    rewrite !rd_ok by lia. cbn [bind]. eauto.
  - unfold TableImpl.floorInterpolate, ArgVec.at_.
    rewrite rd_ok by lia. cbn [bind].
    destruct (Qeq_bool _ _); rewrite rd_ok by lia; eauto.
  - unfold TableImpl.ceilInterpolate, ArgVec.at_.
    rewrite rd_ok by lia. cbn [bind].
    destruct (Qeq_bool _ _); rewrite rd_ok by lia; eauto.
  - unfold TableImpl.nearestInterpolate, ArgVec.at_.
    rewrite !rd_ok by lia. cbn [bind].
    destruct (Qltb _ _); rewrite rd_ok by lia; eauto.
  - specialize (Hy2 eq_refl).
    unfold TableImpl.splineInterpolate, ArgVec.at_.
    rewrite !rd_ok by lia. cbn [bind]. eauto.
Qed.

(** At a sample point every rule returns the sample's own value, whichever
    of the (at most two) brackets of the point is used. *)
Lemma interpolate_at_sample (tb : TableImpl.t) (a : Q) (i k : Z) :
  table_ok tb -> bracket (ArgVec._vec (TableImpl._args tb)) a i ->
  (0 <= k < TableImpl._n tb)%Z ->
  a == get (ArgVec._vec (TableImpl._args tb)) k ->
  exists val, TableImpl.interpolate tb a i = Ok val /\
              val == get (TableImpl._vals tb) k.
Proof.
  intros Hok Hb Hk Ha. table_reads Hok.
  pose proof Hb as [Hi [B1 B2]].
  set (vec := ArgVec._vec (TableImpl._args tb)) in *.
  assert (Hlt : get vec (i - 1) < get vec i) by (apply ascendingb_lt; auto; lia).
  assert (Hki : k = i \/ k = (i - 1)%Z).
  { apply (sample_bracket vec a); auto. lia. }
  unfold TableImpl.interpolate.
  destruct (TableImpl._iType tb) eqn:Ety.
  - unfold TableImpl.linearInterpolate, ArgVec.at_. fold vec.
    rewrite !rd_ok by lia. cbn [bind].
    eexists; split; [reflexivity |].
    destruct Hki as [-> | ->]; rewrite Ha; field; lra.
  - unfold TableImpl.floorInterpolate, ArgVec.at_. fold vec.
    rewrite rd_ok by lia. cbn [bind].
    destruct (Qeq_bool a (get vec i)) eqn:E.
    + apply Qeq_bool_iff in E. rewrite rd_ok by lia.
      eexists; split; [reflexivity |].
      destruct Hki as [-> | ->].
      * replace (i + 1 - 1)%Z with i by lia. reflexivity.
      * lra.
    + apply Qeq_bool_false in E. rewrite rd_ok by lia.
      eexists; split; [reflexivity |].
      destruct Hki as [-> | ->]; [contradiction | reflexivity].
  - unfold TableImpl.ceilInterpolate, ArgVec.at_. fold vec.
    rewrite rd_ok by lia. cbn [bind].
    destruct (Qeq_bool a (get vec (i - 1))) eqn:E.
    + apply Qeq_bool_iff in E. rewrite rd_ok by lia.
      eexists; split; [reflexivity |].
      destruct Hki as [-> | ->]; [lra | reflexivity].
    + apply Qeq_bool_false in E. rewrite rd_ok by lia.
      eexists; split; [reflexivity |].
      destruct Hki as [-> | ->]; [reflexivity | contradiction].
  - unfold TableImpl.nearestInterpolate, ArgVec.at_. fold vec.
    rewrite !rd_ok by lia. cbn [bind].
    destruct (Qltb (a - get vec (i - 1)) (get vec i - a)) eqn:E.
    + apply Qltb_true in E. rewrite rd_ok by lia.
      eexists; split; [reflexivity |].
      destruct Hki as [-> | ->]; [lra | reflexivity].
    + apply Qltb_false in E. rewrite rd_ok by lia.
      eexists; split; [reflexivity |].
      destruct Hki as [-> | ->]; [reflexivity | lra].
  - specialize (Hy2 eq_refl).
    unfold TableImpl.splineInterpolate, ArgVec.at_. fold vec.
    rewrite !rd_ok by lia. cbn [bind].
    eexists; split; [reflexivity |].
    destruct Hki as [-> | ->]; rewrite Ha; field; lra.
Qed.

Lemma interpolate_same_table (tb tb' : TableImpl.t) (a : Q) (i : Z) :
  same_table tb tb' ->
  TableImpl.interpolate tb' a i = TableImpl.interpolate tb a i.
Proof.
  intros ((Hv & _) & Hty & Hvals & _ & Hy).
  unfold TableImpl.interpolate. rewrite Hty.
  destruct (TableImpl._iType tb);
    unfold TableImpl.linearInterpolate, TableImpl.floorInterpolate,
      TableImpl.ceilInterpolate, TableImpl.nearestInterpolate,
      TableImpl.splineInterpolate, ArgVec.at_;
    now rewrite ?Hv, ?Hvals, ?Hy.
Qed.

(** ** [lookup] *)

Lemma lookup_spec (tb : TableImpl.t) (a : Q) :
  table_ok tb ->
  exists i val tb',
    TableImpl.lookup tb a = Ok (val, tb') /\
    table_ok tb' /\ same_table tb tb' /\
    TableImpl.interpolate tb a i = Ok val /\
    (1 <= i <= TableImpl._n tb - 1)%Z /\
    (a < get (ArgVec._vec (TableImpl._args tb)) 0 -> i = 1%Z) /\
    (get (ArgVec._vec (TableImpl._args tb)) (TableImpl._n tb - 1) < a ->
     i = (TableImpl._n tb - 1)%Z) /\
    (get (ArgVec._vec (TableImpl._args tb)) 0 <= a
       <= get (ArgVec._vec (TableImpl._args tb)) (TableImpl._n tb - 1) ->
     bracket (ArgVec._vec (TableImpl._args tb)) a i).
Proof.
  intros Hok. table_reads Hok.
  destruct (upperIndex_spec (TableImpl._args tb) a Hax)
    as (i & av & R & K1 & K2 & Hi & Hlo & Hhi & Hin).
  destruct (interpolate_ok tb a i Hok) as (val & Ev); [lia |].
  unfold TableImpl.lookup. rewrite R. cbn [bind]. rewrite Ev. cbn [bind].
  exists i, val, (TableImpl.set_args tb av).
  rewrite Hnn.
  split; [reflexivity |].
  pose proof K2 as (S1 & S2 & _).
  split; [| split; [| split; [exact Ev | split; [exact Hi | tauto]]]].
  - unfold table_ok. simpl. rewrite S2. tauto.
  - unfold same_table. simpl. tauto.
Qed.

(** The value returned by [lookup] does not depend on the cursor. *)
Lemma lookup_cursor_indep (t1 t2 : TableImpl.t) (a : Q) :
  table_ok t1 -> table_ok t2 -> same_table t1 t2 ->
  exists v1 v2 t1' t2',
    TableImpl.lookup t1 a = Ok (v1, t1') /\
    TableImpl.lookup t2 a = Ok (v2, t2') /\
    v1 == v2 /\
    table_ok t1' /\ table_ok t2' /\ same_table t1' t2' /\ same_table t1 t1'.
Proof.
  intros H1 H2 Hs.
  destruct (lookup_spec t1 a H1) as (i1 & v1 & t1' & R1 & K1 & S1 & E1 & B1 & Lo1 & Hi1 & In1).
  destruct (lookup_spec t2 a H2) as (i2 & v2 & t2' & R2 & K2 & S2 & E2 & B2 & Lo2 & Hi2 & In2).
  exists v1, v2, t1', t2'.
  split; [exact R1 |]. split; [exact R2 |].
  assert (Hss : same_table t1' t2').
  { eapply same_table_trans; [apply same_table_sym; exact S1 |].
    exact (same_table_trans _ _ _ Hs S2). }
  split; [| tauto].
  rewrite (interpolate_same_table t1 t2 a i2 Hs) in E2.
  pose proof Hs as ((Hv & _) & _ & _ & Hn & _).
  rewrite Hv, Hn in *.
  table_reads H1.
  set (vec := ArgVec._vec (TableImpl._args t1)) in *.
  assert (Hfb : get vec 0 < get vec (TableImpl._n t1 - 1))
    by (apply ascendingb_lt; auto; lia).
  assert (Heq : i1 = i2 -> v1 == v2).
  { intros ->. rewrite E1 in E2. inversion E2. reflexivity. }
  destruct (Qlt_le_dec a (get vec 0)) as [L | G].
  { apply Heq. rewrite Lo1, Lo2; auto. }
  destruct (Qlt_le_dec (get vec (TableImpl._n t1 - 1)) a) as [L' | G'].
  { apply Heq. rewrite Hi1, Hi2; auto. }
  assert (Br1 : bracket vec a i1) by (apply In1; split; auto).
  assert (Br2 : bracket vec a i2) by (apply In2; split; auto).
  pose proof Br1 as [R1' B1']. pose proof Br2 as [R2' B2'].
  destruct (bracket_near vec a i1 i2 Hasc) as [E | [[E Ha] | [E Ha]]];
    auto; try lia.
  - destruct (interpolate_at_sample t1 a i1 i2 H1 Br1) as (w1 & W1 & Q1); auto; try lia.
    destruct (interpolate_at_sample t1 a i2 i2 H1 Br2) as (w2 & W2 & Q2); auto; try lia.
    rewrite E1 in W1. rewrite E2 in W2. inversion W1; inversion W2; subst.
    rewrite Q1, Q2. reflexivity.
  - destruct (interpolate_at_sample t1 a i1 i1 H1 Br1) as (w1 & W1 & Q1); auto; try lia.
    destruct (interpolate_at_sample t1 a i2 i1 H1 Br2) as (w2 & W2 & Q2); auto; try lia.
    rewrite E1 in W1. rewrite E2 in W2. inversion W1; inversion W2; subst.
    rewrite Q1, Q2. reflexivity.
Qed.

(** ** Tables as the constructor builds them *)

Lemma built_table (args vals : list Q) (N : Z) (rule : TableImpl.interpolant)
      (built : Table.t) (c : Z) :
  (2 <= N)%Z -> ascending args N -> Z.of_nat (List.length vals) = N ->
  Table.new args vals N rule = Ok built -> (1 <= c <= N - 1)%Z ->
  table_ok (Table.set_cursor built c) /\
  ArgVec._vec (TableImpl._args (Table.set_cursor built c)) = args /\
  TableImpl._vals (Table.set_cursor built c) = vals /\
  TableImpl._n (Table.set_cursor built c) = N /\
  TableImpl._iType (Table.set_cursor built c) = rule.
Proof.
  intros HN Hasc Hv Hnew Hc.
  destruct (TableImpl_new_inv args vals N rule built HN Hasc Hv Hnew)
    as (Hok & Hvec & Hvals & Hn & Hty & _).
  destruct (table_ok_set_cursor built c Hok) as [K _]; [lia |].
  split; [exact K |]. simpl. auto.
Qed.


(** ** The range check of [Table::operator()] *)

Lemma argMin_argMax (tb : TableImpl.t) :
  table_ok tb ->
  Table.argMin tb = Ok (get (ArgVec._vec (TableImpl._args tb)) 0) /\
  Table.argMax tb =
    Ok (get (ArgVec._vec (TableImpl._args tb)) (TableImpl._n tb - 1)).
Proof.
  intros Hok. table_reads Hok.
  unfold Table.argMin, Table.argMax, TableImpl.argMin, TableImpl.argMax,
    ArgVec.front, ArgVec.back.
  rewrite Hnn. split; apply rd_ok; lia.
Qed.

Lemma call_in_range (tb : TableImpl.t) (x : Q) :
  table_ok tb ->
  get (ArgVec._vec (TableImpl._args tb)) 0 <= x
    <= get (ArgVec._vec (TableImpl._args tb)) (TableImpl._n tb - 1) ->
  Table.call tb x = Table.lookup tb x.
Proof.
  intros Hok [X1 X2]. destruct (argMin_argMax tb Hok) as [Emin Emax].
  unfold Table.call. rewrite Emin. cbn [bind].
  destruct (Qltb x _) eqn:E1; [apply Qltb_true in E1; lra |].
  rewrite Emax. cbn [bind].
  destruct (Qltb _ x) eqn:E2; [apply Qltb_true in E2; lra |].
  reflexivity.
Qed.

Lemma call_out_of_range (tb : TableImpl.t) (x : Q) :
  table_ok tb ->
  x < get (ArgVec._vec (TableImpl._args tb)) 0 \/
  get (ArgVec._vec (TableImpl._args tb)) (TableImpl._n tb - 1) < x ->
  Table.call tb x = Ok (0, tb).
Proof.
  intros Hok Hout. destruct (argMin_argMax tb Hok) as [Emin Emax].
  unfold Table.call. rewrite Emin. cbn [bind].
  destruct (Qltb x _) eqn:E1; [reflexivity |].
  apply Qltb_false in E1. rewrite Emax. cbn [bind].
  destruct (Qltb _ x) eqn:E2; [reflexivity |].
  apply Qltb_false in E2. lra.
Qed.

(** The value at a sample point, through [lookup]. *)
Lemma lookup_at_sample (tb : TableImpl.t) (k : Z) :
  table_ok tb -> (0 <= k < TableImpl._n tb)%Z ->
  exists v tb',
    TableImpl.lookup tb (get (ArgVec._vec (TableImpl._args tb)) k) = Ok (v, tb') /\
    v == get (TableImpl._vals tb) k.
Proof.
  intros Hok Hk. table_reads Hok.
  set (vec := ArgVec._vec (TableImpl._args tb)) in *.
  assert (Hr : get vec 0 <= get vec k <= get vec (TableImpl._n tb - 1)).
  { split; apply ascendingb_le; auto; lia. }
  destruct (lookup_spec tb (get vec k) Hok)
    as (i & val & tb' & R & _ & _ & Ei & Hi & _ & _ & Hbr).
  specialize (Hbr Hr).
  destruct (interpolate_at_sample tb (get vec k) i k Hok) as (w & W & Qw); auto.
  - reflexivity.
  - rewrite Ei in W. inversion W; subst w. exists val, tb'. auto.
Qed.

(** ** Claim C2 *)

(** C2, as stated, fails for the spline rule.  On the spline table over
    [args = [0, 3, 4]] and [vals = [0.1, 0, 0]], [operator()] at
    [argMin() = 0] is answered from the first cell, where [aa = h = 3] and
    [bb = 0], and returns [(3 * 0.1) / 3], which is 0.10000000000000002 in
    binary64 and not [vals[0] = 0.1]. *)
Lemma spline_call_at_argMin_rounds :
  exists tb tb',
    IEEE.Table.new [0; 3; 4]%float [0x1.999999999999ap-4; 0; 0]%float 3
                   TableImpl.spline = Ok tb /\
    IEEE.TableImpl.argMin tb = Ok 0%float /\
    IEEE.Table.call tb 0%float = Ok (0x1.999999999999bp-4%float, tb') /\
    PrimFloat.eqb 0x1.999999999999bp-4 0x1.999999999999ap-4 = false.
Proof.
  do 2 eexists.
  split; [vm_compute; reflexivity |].
  split; [vm_compute; reflexivity |].
  split; [vm_compute; reflexivity |].
  vm_compute; reflexivity.
Qed.

(** C2, amended.  For a table of any rule, in any cursor state, the
    range-checked accessor [Table::operator()] returns exactly 0 when
    [a < argMin()] or [a > argMax()] and returns what [Table::lookup]
    returns when [a] lies in [[argMin(), argMax()]]; at [a = argMin()] it
    returns [vals[0]] for the linear, floor, ceil and nearest rules. *)
Theorem call_range_checked
        (args vals : list Q) (N : Z) (rule : TableImpl.interpolant)
        (built : Table.t) (c : Z) (a : Q) :
  (2 <= N)%Z -> ascending args N -> Z.of_nat (List.length vals) = N ->
  Table.new args vals N rule = Ok built -> (1 <= c <= N - 1)%Z ->
  let tb := Table.set_cursor built c in
  Table.argMin tb = Ok (get args 0) /\
  Table.argMax tb = Ok (get args (N - 1)) /\
  (a < get args 0 \/ get args (N - 1) < a -> Table.call tb a = Ok (0, tb)) /\
  (get args 0 <= a <= get args (N - 1) -> Table.call tb a = Table.lookup tb a) /\
  (rule <> TableImpl.spline ->
   exists v tb', Table.call tb (get args 0) = Ok (v, tb') /\ v == get vals 0).
Proof.
  intros HN Hasc Hv Hnew Hc tb.
  destruct (built_table args vals N rule built c HN Hasc Hv Hnew Hc)
    as (Hok & Hvec & Hvals & Hn & Hty).
  fold tb in Hok, Hvec, Hvals, Hn, Hty.
  destruct (argMin_argMax tb Hok) as [Emin Emax].
  pose proof (call_in_range tb) as Hin.
  pose proof (call_out_of_range tb a Hok) as Hout.
  destruct (lookup_at_sample tb 0 Hok) as (v & tb' & R & Qv); [lia |].
  rewrite Hvec, Hn in *. rewrite Hvals in Qv.
  split; [exact Emin |]. split; [exact Emax |]. split; [exact Hout |].
  split; [exact (Hin a Hok) |].
  intros _. exists v, tb'. split; [| exact Qv].
  rewrite Hin; auto.
  pose proof Hasc as [Hlen Hascb].
  split; [apply Qle_refl | apply ascendingb_le; auto; lia].
Qed.

Lemma call_range_checked_witness :
  let built := TableImpl.mk TableImpl.nearest
                 (ArgVec.mk [0; 1; 3] 3 (1 # 1000000) (2 # 1000000) false (3 # 2) 1)
                 [10; 20; 30] 3 [] in
  let tb := Table.set_cursor built 2 in
  Table.argMin tb = Ok (get [0; 1; 3] 0) /\
  Table.argMax tb = Ok (get [0; 1; 3] (3 - 1)) /\
  (-1 < get [0; 1; 3] 0 \/ get [0; 1; 3] (3 - 1) < -1 -> Table.call tb (-1) = Ok (0, tb)) /\
  (get [0; 1; 3] 0 <= -1 <= get [0; 1; 3] (3 - 1) ->
   Table.call tb (-1) = Table.lookup tb (-1)) /\
  (TableImpl.nearest <> TableImpl.spline ->
   exists v tb', Table.call tb (get [0; 1; 3] 0) = Ok (v, tb') /\ v == get [10; 20; 30] 0).
Proof.
  apply (call_range_checked [0; 1; 3] [10; 20; 30] 3 TableImpl.nearest).
  - lia.
  - split; reflexivity.
  - reflexivity.
  - reflexivity.
  - lia.
Defined.

(** ** Claim C3 *)

(** C3.  For a table with the linear, floor, ceil or nearest rule, in any
    cursor state, and every sample index [0 <= k < N]: evaluating the table
    at [args[k]], through [Table::lookup] or through [Table::operator()],
    returns [vals[k]]. *)
Theorem sample_point_exact
        (args vals : list Q) (N : Z) (rule : TableImpl.interpolant)
        (built : Table.t) (c k : Z) :
  (2 <= N)%Z -> ascending args N -> Z.of_nat (List.length vals) = N ->
  rule <> TableImpl.spline ->
  Table.new args vals N rule = Ok built -> (1 <= c <= N - 1)%Z ->
  (0 <= k < N)%Z ->
  exists v tb',
    Table.lookup (Table.set_cursor built c) (get args k) = Ok (v, tb') /\
    Table.call (Table.set_cursor built c) (get args k) = Ok (v, tb') /\
    v == get vals k.
Proof.
  intros HN Hasc Hv Hrule Hnew Hc Hk.
  destruct (built_table args vals N rule built c HN Hasc Hv Hnew Hc)
    as (Hok & Hvec & Hvals & Hn & Hty).
  destruct (lookup_at_sample (Table.set_cursor built c) k Hok)
    as (v & tb' & R & Qv); [lia |].
  pose proof (call_in_range (Table.set_cursor built c) (get args k) Hok) as Hin.
  rewrite Hvec, Hn in *. rewrite Hvals in Qv.
  pose proof Hasc as [Hlen Hascb].
  exists v, tb'. split; [exact R |]. split; [| exact Qv].
  rewrite Hin; [exact R |].
  split; apply ascendingb_le; auto; lia.
Qed.

Lemma sample_point_exact_witness :
  exists v tb',
    Table.lookup
      (Table.set_cursor
         (TableImpl.mk TableImpl.floor
            (ArgVec.mk [0; 1; 2; 3] 4 (1 # 1000000) (1 # 1000000) true (3 # 3) 1)
            [10; 20; 30; 40] 4 []) 1)
      (get [0; 1; 2; 3] 1) = Ok (v, tb') /\
    Table.call
      (Table.set_cursor
         (TableImpl.mk TableImpl.floor
            (ArgVec.mk [0; 1; 2; 3] 4 (1 # 1000000) (1 # 1000000) true (3 # 3) 1)
            [10; 20; 30; 40] 4 []) 1)
      (get [0; 1; 2; 3] 1) = Ok (v, tb') /\
    v == get [10; 20; 30; 40] 1.
Proof.
  apply (sample_point_exact [0; 1; 2; 3] [10; 20; 30; 40] 4 TableImpl.floor).
  - lia.
  - split; reflexivity.
  - reflexivity.
  - discriminate.
  - reflexivity.
  - lia.
  - lia.
Defined.

(** The example of the specification: [args = [0,1,2,3]],
    [vals = [10,20,30,40]], evaluated at [1.0]. *)
Example floor_and_ceil_at_one :
  forall rule, rule <> TableImpl.spline ->
  exists tb,
    Table.new [0; 1; 2; 3] [10; 20; 30; 40] 4 rule = Ok tb /\
    exists v tb', Table.call tb 1 = Ok (v, tb') /\ v == 20.
Proof.
  intros [] H; try congruence;
    (eexists; split; [reflexivity |];
     eexists; eexists; split; [vm_compute; reflexivity | reflexivity]).
Qed.

(** ** Claim C7 *)






(** ** The two-dimensional interpolators *)

Lemma T2DInterp_new_inv (xargs yargs vals : list Q) (Nx Ny : Z) (s : T2DInterp.t) :
  (2 <= Nx)%Z -> (2 <= Ny)%Z -> ascending xargs Nx -> ascending yargs Ny ->
  Z.of_nat (List.length vals) = (Nx * Ny)%Z ->
  T2DInterp.new xargs yargs vals Nx Ny = Ok s ->
  interp2_ok s /\
  ArgVec._vec (T2DInterp._xargs s) = xargs /\ ArgVec._n (T2DInterp._xargs s) = Nx /\
  ArgVec._vec (T2DInterp._yargs s) = yargs /\ ArgVec._n (T2DInterp._yargs s) = Ny /\
  T2DInterp._vals s = vals /\ T2DInterp._ny s = Ny.
Proof.
  intros Hx Hy Ax Ay Hv. unfold T2DInterp.new.
  destruct (ArgVec_new_ok xargs Nx Hx Ax) as (xa & Ex & Kx & Vx & Nx' & _).
  destruct (ArgVec_new_ok yargs Ny Hy Ay) as (ya & Ey & Ky & Vy & Ny' & _).
  rewrite Ex, Ey. cbn [bind]. intros E; inversion E; subst s. clear E.
  unfold interp2_ok. simpl. rewrite Nx', Ny'. tauto.
Qed.

Lemma interp2_ok_set_axes (s : T2DInterp.t) (xa ya : ArgVec.t) :
  interp2_ok s ->
  axis_ok xa -> same_axis (T2DInterp._xargs s) xa ->
  axis_ok ya -> same_axis (T2DInterp._yargs s) ya ->
  interp2_ok (T2DInterp.set_axes s xa ya).
Proof.
  intros (A & B & C & D) Kx (_ & Sx & _) Ky (_ & Sy & _).
  unfold interp2_ok. simpl. rewrite Sx, Sy. tauto.
Qed.

Lemma grid_index_bounds (nx ny i j : Z) :
  (0 <= i < nx)%Z -> (0 <= j < ny)%Z -> (0 <= i * ny + j < nx * ny)%Z.
Proof. intros Hi Hj. nia. Qed.

(** Both axis searches of a 2D interpolator succeed. *)
Lemma axes_spec (s : T2DInterp.t) (x y : Q) :
  interp2_ok s ->
  exists i xa j ya,
    ArgVec.upperIndex (T2DInterp._xargs s) x = Ok (i, xa) /\
    ArgVec.upperIndex (T2DInterp._yargs s) y = Ok (j, ya) /\
    ArgVec._vec xa = ArgVec._vec (T2DInterp._xargs s) /\
    ArgVec._vec ya = ArgVec._vec (T2DInterp._yargs s) /\
    (1 <= i <= ArgVec._n (T2DInterp._xargs s) - 1)%Z /\
    (1 <= j <= ArgVec._n (T2DInterp._yargs s) - 1)%Z /\
    interp2_ok (T2DInterp.set_axes s xa ya) /\
    (get (ArgVec._vec (T2DInterp._xargs s)) 0 <= x
       <= get (ArgVec._vec (T2DInterp._xargs s)) (ArgVec._n (T2DInterp._xargs s) - 1) ->
     bracket (ArgVec._vec (T2DInterp._xargs s)) x i) /\
    (get (ArgVec._vec (T2DInterp._yargs s)) 0 <= y
       <= get (ArgVec._vec (T2DInterp._yargs s)) (ArgVec._n (T2DInterp._yargs s) - 1) ->
     bracket (ArgVec._vec (T2DInterp._yargs s)) y j).
Proof.
  intros Hok. pose proof Hok as (Kx & Ky & _).
  destruct (upperIndex_spec _ x Kx) as (i & xa & Rx & Kx' & Sx & Hi & _ & _ & Bx).
  destruct (upperIndex_spec _ y Ky) as (j & ya & Ry & Ky' & Sy & Hj & _ & _ & By).
  exists i, xa, j, ya.
  split; [exact Rx |]. split; [exact Ry |].
  split; [apply Sx |]. split; [apply Sy |].
  split; [exact Hi |]. split; [exact Hj |].
  split; [apply interp2_ok_set_axes; auto |]. auto.
Qed.

Ltac interp2_reads Hok :=
  let Kx := fresh "Kx" in
  let Ky := fresh "Ky" in
  let Hny := fresh "Hny" in
  let Hvl := fresh "Hvl" in
  let Hlx := fresh "Hlx" in
  let Hly := fresh "Hly" in
  let Hax := fresh "Hascx" in
  let Hay := fresh "Hascy" in
  let Hnx := fresh "Hnx2" in
  let Hny2 := fresh "Hny2" in
  pose proof Hok as (Kx & Ky & Hny & Hvl);
  pose proof Kx as ((Hlx & Hax) & Hnx & _);
  pose proof Ky as ((Hly & Hay) & Hny2 & _).

Ltac rd_grid :=
  rewrite rd_ok by (match goal with H : Z.of_nat (List.length _) = (_ * _)%Z |- _ =>
                      rewrite H end; nia).

Lemma T2DLinear_interp_ok (s : T2DInterp.t) (x y : Q) :
  interp2_ok s ->
  exists v s', T2DLinearInterp.interp s x y = Ok (v, s') /\ interp2_ok s'.
Proof.
  intros Hok. interp2_reads Hok.
  destruct (axes_spec s x y Hok) as (i & xa & j & ya & Rx & Ry & Vx & Vy & Hi & Hj & K & _).
  unfold T2DLinearInterp.interp, ArgVec.at_. rewrite Rx. cbn [bind].
  rewrite Ry. cbn [bind]. rewrite Vx, Vy, Hny.
  rewrite !rd_ok by lia. cbn [bind]. unfold T2DInterp.weights.
  repeat rd_grid. cbn [bind]. eauto.
Qed.

Lemma T2DLinear_gradient_ok (s : T2DInterp.t) (x y : Q) :
  interp2_ok s ->
  exists dfdx dfdy s', T2DLinearInterp.gradient s x y = Ok (dfdx, dfdy, s') /\
                       interp2_ok s'.
Proof.
  intros Hok. interp2_reads Hok.
  destruct (axes_spec s x y Hok) as (i & xa & j & ya & Rx & Ry & Vx & Vy & Hi & Hj & K & _).
  unfold T2DLinearInterp.gradient, ArgVec.at_. rewrite Rx. cbn [bind].
  rewrite Ry. cbn [bind]. rewrite Vx, Vy, Hny.
  rewrite !rd_ok by lia. cbn [bind].
  repeat rd_grid. cbn [bind]. eauto.
Qed.

Lemma T2DFloor_interp_ok (s : T2DInterp.t) (x y : Q) :
  interp2_ok s ->
  exists v s', T2DFloorInterp.interp s x y = Ok (v, s') /\ interp2_ok s'.
Proof.
  intros Hok. interp2_reads Hok.
  destruct (axes_spec s x y Hok) as (i & xa & j & ya & Rx & Ry & Vx & Vy & Hi & Hj & K & _).
  unfold T2DFloorInterp.interp, ArgVec.at_. rewrite Rx. cbn [bind].
  rewrite Ry. cbn [bind]. rewrite Vx, Vy, Hny.
  rewrite !rd_ok by lia. cbn [bind].
  destruct (Qeq_bool x _); destruct (Qeq_bool y _); rd_grid; cbn [bind]; eauto.
Qed.

Lemma T2DCeil_interp_ok (s : T2DInterp.t) (x y : Q) :
  interp2_ok s ->
  exists v s', T2DCeilInterp.interp s x y = Ok (v, s') /\ interp2_ok s'.
Proof.
  intros Hok. interp2_reads Hok.
  destruct (axes_spec s x y Hok) as (i & xa & j & ya & Rx & Ry & Vx & Vy & Hi & Hj & K & _).
  unfold T2DCeilInterp.interp, ArgVec.at_. rewrite Rx. cbn [bind].
  rewrite Ry. cbn [bind]. rewrite Vx, Vy, Hny.
  rewrite !rd_ok by lia. cbn [bind].
  destruct (Qeq_bool x _); destruct (Qeq_bool y _); rd_grid; cbn [bind]; eauto.
Qed.

Lemma T2DNearest_interp_ok (s : T2DInterp.t) (x y : Q) :
  interp2_ok s ->
  exists v s', T2DNearestInterp.interp s x y = Ok (v, s') /\ interp2_ok s'.
Proof.
  intros Hok. interp2_reads Hok.
  destruct (axes_spec s x y Hok) as (i & xa & j & ya & Rx & Ry & Vx & Vy & Hi & Hj & K & _).
  unfold T2DNearestInterp.interp, ArgVec.at_. rewrite Rx. cbn [bind].
  rewrite Ry. cbn [bind]. rewrite Vx, Vy, Hny.
  rewrite !rd_ok by lia. cbn [bind].
  destruct (Qltb (x - _) _); destruct (Qltb (y - _) _); rd_grid; cbn [bind]; eauto.
Qed.

Lemma Table2D_lookup_ok (tb : Table2D.t) (x y : Q) :
  interp2_ok (Table2D._interp tb) ->
  exists v tb', Table2D.lookup tb x y = Ok (v, tb') /\
                interp2_ok (Table2D._interp tb') /\
                Table2D._kind tb' = Table2D._kind tb.
Proof.
  intros Hok. unfold Table2D.lookup, Table2D.interp_of.
  destruct (Table2D._kind tb) eqn:Ek.
  - destruct (T2DFloor_interp_ok _ x y Hok) as (v & s' & R & K).
    rewrite R. cbn [bind]. eauto.
  - destruct (T2DCeil_interp_ok _ x y Hok) as (v & s' & R & K).
    rewrite R. cbn [bind]. eauto.
  - destruct (T2DNearest_interp_ok _ x y Hok) as (v & s' & R & K).
    rewrite R. cbn [bind]. eauto.
  - destruct (T2DLinear_interp_ok _ x y Hok) as (v & s' & R & K).
    rewrite R. cbn [bind]. eauto.
Qed.

Lemma built_table2 (xargs yargs vals : list Q) (Nx Ny : Z)
      (kind : Table2D.interpolant) (built : Table2D.t) (cx cy : Z) :
  (2 <= Nx)%Z -> (2 <= Ny)%Z -> ascending xargs Nx -> ascending yargs Ny ->
  Z.of_nat (List.length vals) = (Nx * Ny)%Z ->
  Table2D.new xargs yargs vals Nx Ny kind = Ok built ->
  (1 <= cx <= Nx - 1)%Z -> (1 <= cy <= Ny - 1)%Z ->
  let s := Table2D._interp (set_cursors2 built cx cy) in
  interp2_ok s /\ Table2D._kind (set_cursors2 built cx cy) = kind /\
  ArgVec._vec (T2DInterp._xargs s) = xargs /\ ArgVec._n (T2DInterp._xargs s) = Nx /\
  ArgVec._vec (T2DInterp._yargs s) = yargs /\ ArgVec._n (T2DInterp._yargs s) = Ny /\
  T2DInterp._vals s = vals /\ T2DInterp._ny s = Ny.
Proof.
  intros Hx Hy Ax Ay Hv Hnew Hcx Hcy. unfold Table2D.new in Hnew.
  destruct (T2DInterp.new xargs yargs vals Nx Ny) as [s0 |] eqn:E;
    cbn [bind] in Hnew; [| discriminate].
  inversion Hnew; subst built. clear Hnew.
  destruct (T2DInterp_new_inv xargs yargs vals Nx Ny s0 Hx Hy Ax Ay Hv E)
    as (Hok & Vx & Nx' & Vy & Ny' & Vv & Hny).
  destruct Hok as (Kx & Ky & Hn & Hl).
  destruct (axis_ok_set_lastIndex _ cx Kx) as [Kx' _]; [lia |].
  destruct (axis_ok_set_lastIndex _ cy Ky) as [Ky' _]; [lia |].
  unfold interp2_ok. simpl. tauto.
Qed.

(** ** Claim C4 *)

(** C4.  For a 2D table built with the floor, ceil or nearest rule, in any
    cursor state, [gradient(x, y)] raises a runtime error at every query
    point, and so does [gradientMany] on every non-empty list of queries. *)
Theorem gradient_rejected
        (xargs yargs vals : list Q) (Nx Ny : Z) (kind : Table2D.interpolant)
        (built : Table2D.t) (cx cy : Z) (x y : Q) (rest : list (Q * Q)) :
  kind <> Table2D.linear ->
  Table2D.new xargs yargs vals Nx Ny kind = Ok built ->
  (exists msg, Table2D.gradient (set_cursors2 built cx cy) x y
               = Err (RuntimeError msg)) /\
  (exists msg, Table2D.gradientMany (set_cursors2 built cx cy) ((x, y) :: rest)
               = Err (RuntimeError msg)).
Proof.
  intros Hk Hnew. unfold Table2D.new in Hnew.
  destruct (T2DInterp.new xargs yargs vals Nx Ny) as [s0 |];
    cbn [bind] in Hnew; [| discriminate].
  inversion Hnew; subst built. clear Hnew.
  unfold Table2D.gradientMany, Table2D.gradient, set_cursors2. simpl.
  destruct kind; try congruence; simpl; eauto.
Qed.

Lemma gradient_rejected_witness :
  (exists msg,
      Table2D.gradient
        (set_cursors2
           (Table2D.mk Table2D.floor
              (T2DInterp.mk
                 (ArgVec.mk [0; 1] 2 (1 # 1000000) (1 # 1000000) true (1 # 1) 1)
                 (ArgVec.mk [0; 2] 2 (2 # 1000000) (2 # 1000000) true (2 # 1) 1)
                 [1; 2; 3; 4] 2)) 1 1) (1 # 2) 1
      = Err (RuntimeError msg)) /\
  (exists msg,
      Table2D.gradientMany
        (set_cursors2
           (Table2D.mk Table2D.floor
              (T2DInterp.mk
                 (ArgVec.mk [0; 1] 2 (1 # 1000000) (1 # 1000000) true (1 # 1) 1)
                 (ArgVec.mk [0; 2] 2 (2 # 1000000) (2 # 1000000) true (2 # 1) 1)
                 [1; 2; 3; 4] 2)) 1 1) (((1 # 2), 1) :: [(0, 0)])
      = Err (RuntimeError msg)).
Proof.
  apply (gradient_rejected [0; 1] [0; 2] [1; 2; 3; 4] 2 2 Table2D.floor).
  - discriminate.
  - reflexivity.
Defined.

(** ** Claim C9 *)

(** C9.  For a bilinear 2D table, in any cursor state, and every cell
    [(i, j)]: evaluating at a corner [(xargs[i'], yargs[j'])] of the cell,
    [i'] in [{i-1, i}] and [j'] in [{j-1, j}], returns the grid value
    [vals[i'*Ny + j']]; in the cell that the two axis searches select, one
    area weight is 1 and the other three are 0. *)
Theorem bilinear_exact_at_corners
        (xargs yargs vals : list Q) (Nx Ny : Z) (built : Table2D.t)
        (cx cy i j i' j' : Z) :
  (2 <= Nx)%Z -> (2 <= Ny)%Z -> ascending xargs Nx -> ascending yargs Ny ->
  Z.of_nat (List.length vals) = (Nx * Ny)%Z ->
  Table2D.new xargs yargs vals Nx Ny Table2D.linear = Ok built ->
  (1 <= cx <= Nx - 1)%Z -> (1 <= cy <= Ny - 1)%Z ->
  (1 <= i <= Nx - 1)%Z -> (1 <= j <= Ny - 1)%Z ->
  i' = (i - 1)%Z \/ i' = i -> j' = (j - 1)%Z \/ j' = j ->
  let tb := set_cursors2 built cx cy in
  let x := get xargs i' in
  let y := get yargs j' in
  (exists v tb', Table2D.lookup tb x y = Ok (v, tb') /\
                 v == get vals (i' * Ny + j')) /\
  (exists I xa J ya,
      ArgVec.upperIndex (T2DInterp._xargs (Table2D._interp tb)) x = Ok (I, xa) /\
      ArgVec.upperIndex (T2DInterp._yargs (Table2D._interp tb)) y = Ok (J, ya) /\
      unit_weights
        (T2DInterp.weights
           ((get xargs I - x) / (get xargs I - get xargs (I - 1)))
           ((get yargs J - y) / (get yargs J - get yargs (J - 1))))).
Proof.
  intros Hx Hy Ax Ay Hv Hnew Hcx Hcy Hi Hj Hi' Hj' tb x y.
  destruct (built_table2 xargs yargs vals Nx Ny Table2D.linear built cx cy
              Hx Hy Ax Ay Hv Hnew Hcx Hcy)
    as (Hok & Hkind & Vx & Nx' & Vy & Ny' & Vv & Hny).
  fold tb in Hok, Hkind, Vx, Nx', Vy, Ny', Vv, Hny.
  pose proof Ax as [Hlx Hascx]. pose proof Ay as [Hly Hascy].
  assert (Hi0 : (0 <= i' < Nx)%Z) by lia.
  assert (Hj0 : (0 <= j' < Ny)%Z) by lia.
  destruct (axes_spec _ x y Hok)
    as (I & xa & J & ya & Rx & Ry & Vxa & Vya & HI & HJ & K & Bx & By).
  rewrite Vx, Nx' in *. rewrite Vy, Ny' in *.
  assert (BI : bracket xargs x I).
  { apply Bx. split; apply ascendingb_le; auto; lia. }
  assert (BJ : bracket yargs y J).
  { apply By. split; apply ascendingb_le; auto; lia. }
  assert (HxI : get xargs (I - 1) < get xargs I) by (apply ascendingb_lt; auto; lia).
  assert (HyJ : get yargs (J - 1) < get yargs J) by (apply ascendingb_lt; auto; lia).
  assert (CI : i' = I \/ i' = (I - 1)%Z).
  { apply (sample_bracket xargs x); auto; [lia | reflexivity]. }
  assert (CJ : j' = J \/ j' = (J - 1)%Z).
  { apply (sample_bracket yargs y); auto; [lia | reflexivity]. }
  split.
  - unfold Table2D.lookup, Table2D.interp_of. rewrite Hkind.
    unfold T2DLinearInterp.interp, ArgVec.at_.
    rewrite Rx. cbn [bind]. rewrite Ry. cbn [bind].
    rewrite Vxa, Vya, Hny, Vv.
    rewrite !rd_ok by lia. cbn [bind]. unfold T2DInterp.weights.
    repeat rd_grid. cbn [bind].
    eexists; eexists; split; [reflexivity |].
    unfold x, y.
    destruct CI as [-> | ->]; destruct CJ as [-> | ->].
    + field; lra.
    + replace ((I * Ny + J - 1))%Z with (I * Ny + (J - 1))%Z by lia. field; lra.
    + replace ((I - 1) * Ny + J)%Z with ((I - 1) * Ny + J)%Z by lia. field; lra.
    + replace ((I - 1) * Ny + J - 1)%Z with ((I - 1) * Ny + (J - 1))%Z by lia.
      field; lra.
  - exists I, xa, J, ya. split; [exact Rx |]. split; [exact Ry |].
    unfold unit_weights, T2DInterp.weights, x, y.
    destruct CI as [-> | ->]; destruct CJ as [-> | ->].
    + right; right; right. repeat split; field; lra.
    + right; left. repeat split; field; lra.
    + right; right; left. repeat split; field; lra.
    + left. repeat split; field; lra.
Qed.

Lemma bilinear_exact_at_corners_witness :
  let tb := set_cursors2
              (Table2D.mk Table2D.linear
                 (T2DInterp.mk
                    (ArgVec.mk [0; 1; 3] 3 (1 # 1000000) (2 # 1000000) false (3 # 2) 1)
                    (ArgVec.mk [0; 2] 2 (2 # 1000000) (2 # 1000000) true (2 # 1) 1)
                    [1; 2; 3; 4; 5; 6] 2)) 2 1 in
  let x := get [0; 1; 3] 1 in
  let y := get [0; 2] 0 in
  (exists v tb', Table2D.lookup tb x y = Ok (v, tb') /\
                 v == get [1; 2; 3; 4; 5; 6] (1 * 2 + 0)) /\
  (exists I xa J ya,
      ArgVec.upperIndex (T2DInterp._xargs (Table2D._interp tb)) x = Ok (I, xa) /\
      ArgVec.upperIndex (T2DInterp._yargs (Table2D._interp tb)) y = Ok (J, ya) /\
      unit_weights
        (T2DInterp.weights
           ((get [0; 1; 3] I - x) / (get [0; 1; 3] I - get [0; 1; 3] (I - 1)))
           ((get [0; 2] J - y) / (get [0; 2] J - get [0; 2] (J - 1))))).
Proof.
  apply (bilinear_exact_at_corners [0; 1; 3] [0; 2] [1; 2; 3; 4; 5; 6] 3 2
           (Table2D.mk Table2D.linear
              (T2DInterp.mk
                 (ArgVec.mk [0; 1; 3] 3 (1 # 1000000) (2 # 1000000) false (3 # 2) 1)
                 (ArgVec.mk [0; 2] 2 (2 # 1000000) (2 # 1000000) true (2 # 1) 1)
                 [1; 2; 3; 4; 5; 6] 2)) 2 1 1 1 1 0).
  - lia.
  - lia.
  - split; reflexivity.
  - split; reflexivity.
  - reflexivity.
  - reflexivity.
  - lia.
  - lia.
  - lia.
  - lia.
  - right; reflexivity.
  - left; reflexivity.
Defined.

(** ** Claim C10, and X21: the lookup pipeline is total over exact arithmetic *)

Lemma Qeq_bool_same (x : Q) : Qeq_bool x x = true.
Proof. apply Qeq_bool_iff. reflexivity. Qed.

(** C10 fails on the code for a NaN query on an equal-spaced axis.  A NaN
    passes both range tests of [upperIndex] (every comparison with it is
    false), so on [args = [0, 1, 2]] the equal-spaced branch reaches
    [int(std::ceil((a - front()) / _da))] with a NaN operand: an undefined
    conversion, whose result then indexes [_vec].  The cursor branch, taken
    on [args = [0, 1, 3]], answers the same query from the cursor's cell
    and reads inside the arrays. *)
Lemma nan_query_on_equal_spaced_axis :
  exists tb tb' v t,
    IEEE.Table.new [0; 1; 2]%float [5; 6; 7]%float 3 TableImpl.linear = Ok tb /\
    IEEE.ArgVec._equalSpaced (IEEE.TableImpl._args tb) = true /\
    IEEE.Table.lookup tb nan = Err UndefinedConversion /\
    IEEE.Table.call tb nan = Err UndefinedConversion /\
    IEEE.Table.new [0; 1; 3]%float [5; 6; 7]%float 3 TableImpl.linear = Ok tb' /\
    IEEE.ArgVec._equalSpaced (IEEE.TableImpl._args tb') = false /\
    IEEE.Table.lookup tb' nan = Ok (v, t).
Proof.
  do 4 eexists.
  split; [vm_compute; reflexivity |].
  split; [vm_compute; reflexivity |].
  split; [vm_compute; reflexivity |].
  split; [vm_compute; reflexivity |].
  split; [vm_compute; reflexivity |].
  split; [vm_compute; reflexivity |].
  vm_compute; reflexivity.
Qed.

(** X21.  Over exact arithmetic, so for every query that is a number, and
    over [N >= 2] strictly ascending arguments the lookup pipeline never
    fails: on either branch and from any cursor in [[1, N-1]],
    [upperIndex] returns an index in [[1, N-1]] and leaves the cursor in
    [[1, N-1]] (no loop runs out, no read leaves the array, no assertion
    fails); every rule then reads its values inside the array for every
    index in [[1, N-1]], also when the floor rule moves to [N] and the ceil
    rule to [0]; [lookup] returns a value; and so does the lookup of a 2D
    table of any rule over an [Nx * Ny] grid. *)
Theorem lookup_total_in_bounds
        (args vals : list Q) (N : Z) (rule : TableImpl.interpolant)
        (built : Table.t) (path : bool) (c : Z) (a : Q)
        (xargs yargs vals2 : list Q) (Nx Ny : Z) (kind : Table2D.interpolant)
        (built2 : Table2D.t) (cx cy : Z) (x y : Q) :
  (2 <= N)%Z -> ascending args N -> Z.of_nat (List.length vals) = N ->
  Table.new args vals N rule = Ok built -> (1 <= c <= N - 1)%Z ->
  (2 <= Nx)%Z -> (2 <= Ny)%Z -> ascending xargs Nx -> ascending yargs Ny ->
  Z.of_nat (List.length vals2) = (Nx * Ny)%Z ->
  Table2D.new xargs yargs vals2 Nx Ny kind = Ok built2 ->
  (1 <= cx <= Nx - 1)%Z -> (1 <= cy <= Ny - 1)%Z ->
  let tb := Table.set_cursor built c in
  (exists i v',
      ArgVec.upperIndex (ArgVec.with_equalSpaced path (TableImpl._args tb)) a
      = Ok (i, v') /\
      (1 <= i <= N - 1)%Z /\ (1 <= ArgVec._lastIndex v' <= N - 1)%Z) /\
  (forall i, (1 <= i <= N - 1)%Z ->
             exists val, TableImpl.interpolate tb a i = Ok val) /\
  TableImpl.floorInterpolate tb (get args (N - 1)) (N - 1) = Ok (get vals (N - 1)) /\
  TableImpl.ceilInterpolate tb (get args 0) 1 = Ok (get vals 0) /\
  (exists v tb', Table.lookup tb a = Ok (v, tb')) /\
  (exists v tb2', Table2D.lookup (set_cursors2 built2 cx cy) x y = Ok (v, tb2')).
Proof.
  intros HN Hasc Hv Hnew Hc Hx Hy Ax Ay Hv2 Hnew2 Hcx Hcy tb.
  destruct (built_table args vals N rule built c HN Hasc Hv Hnew Hc)
    as (Hok & Hvec & Hvals & Hn & Hty).
  fold tb in Hok, Hvec, Hvals, Hn, Hty.
  pose proof Hasc as [Hlen Hascb].
  pose proof Hok as (Kax & Hnn & _).
  assert (HnA : ArgVec._n (TableImpl._args tb) = N) by congruence.
  split; [| split; [| split; [| split; [| split]]]].
  - pose proof (axis_ok_with_equalSpaced path _ Kax) as Kp.
    destruct (upperIndex_spec _ a Kp) as (i & v' & R & K' & S' & Hi & _).
    change (ArgVec._n (ArgVec.with_equalSpaced path (TableImpl._args tb)))
      with (ArgVec._n (TableImpl._args tb)) in Hi.
    rewrite HnA in Hi.
    exists i, v'. split; [exact R |]. split; [exact Hi |].
    destruct K' as (_ & _ & _ & Hcur). destruct S' as (_ & Sn & _).
    change (ArgVec._n (ArgVec.with_equalSpaced path (TableImpl._args tb)))
      with (ArgVec._n (TableImpl._args tb)) in Sn.
    rewrite Sn, HnA in Hcur. exact Hcur.
  - intros i Hi. apply interpolate_ok; auto. lia.
  - unfold TableImpl.floorInterpolate, ArgVec.at_. rewrite Hvec, Hvals.
    rewrite rd_ok by lia. cbn [bind]. rewrite Qeq_bool_same.
    replace (N - 1 + 1 - 1)%Z with (N - 1)%Z by lia. apply rd_ok. lia.
  - unfold TableImpl.ceilInterpolate, ArgVec.at_. rewrite Hvec, Hvals.
    rewrite rd_ok by lia. cbn [bind]. change (1 - 1)%Z with 0%Z.
    rewrite Qeq_bool_same. apply rd_ok. lia.
  - destruct (lookup_spec tb a Hok) as (i & val & tb' & R & _).
    exists val, tb'. exact R.
  - destruct (built_table2 xargs yargs vals2 Nx Ny kind built2 cx cy
                Hx Hy Ax Ay Hv2 Hnew2 Hcx Hcy) as (Hok2 & _).
    destruct (Table2D_lookup_ok _ x y Hok2) as (v & tb2' & R & _).
    exists v, tb2'. exact R.
Qed.

Lemma lookup_total_in_bounds_witness :
  let tb := Table.set_cursor
              (TableImpl.mk TableImpl.ceil
                 (ArgVec.mk [0; 1; 3; 7] 4 (1 # 1000000) (4 # 1000000) false (7 # 3) 1)
                 [5; 6; 2; 9] 4 []) 3 in
  (exists i v',
      ArgVec.upperIndex (ArgVec.with_equalSpaced true (TableImpl._args tb)) 0
      = Ok (i, v') /\
      (1 <= i <= 4 - 1)%Z /\ (1 <= ArgVec._lastIndex v' <= 4 - 1)%Z) /\
  (forall i, (1 <= i <= 4 - 1)%Z ->
             exists val, TableImpl.interpolate tb 0 i = Ok val) /\
  TableImpl.floorInterpolate tb (get [0; 1; 3; 7] (4 - 1)) (4 - 1)
  = Ok (get [5; 6; 2; 9] (4 - 1)) /\
  TableImpl.ceilInterpolate tb (get [0; 1; 3; 7] 0) 1 = Ok (get [5; 6; 2; 9] 0) /\
  (exists v tb', Table.lookup tb 0 = Ok (v, tb')) /\
  (exists v tb2',
      Table2D.lookup
        (set_cursors2
           (Table2D.mk Table2D.ceil
              (T2DInterp.mk
                 (ArgVec.mk [0; 1; 3] 3 (1 # 1000000) (2 # 1000000) false (3 # 2) 1)
                 (ArgVec.mk [0; 2] 2 (2 # 1000000) (2 # 1000000) true (2 # 1) 1)
                 [1; 2; 3; 4; 5; 6] 2)) 2 1) 0 0 = Ok (v, tb2')).
Proof.
  apply (lookup_total_in_bounds [0; 1; 3; 7] [5; 6; 2; 9] 4 TableImpl.ceil
           (TableImpl.mk TableImpl.ceil
              (ArgVec.mk [0; 1; 3; 7] 4 (1 # 1000000) (4 # 1000000) false (7 # 3) 1)
              [5; 6; 2; 9] 4 [])
           true 3 0
           [0; 1; 3] [0; 2] [1; 2; 3; 4; 5; 6] 3 2 Table2D.ceil
           (Table2D.mk Table2D.ceil
              (T2DInterp.mk
                 (ArgVec.mk [0; 1; 3] 3 (1 # 1000000) (2 # 1000000) false (3 # 2) 1)
                 (ArgVec.mk [0; 2] 2 (2 # 1000000) (2 # 1000000) true (2 # 1) 1)
                 [1; 2; 3; 4; 5; 6] 2)) 2 1 0 0).
  - lia.
  - split; reflexivity.
  - reflexivity.
  - reflexivity.
  - lia.
  - lia.
  - lia.
  - split; reflexivity.
  - split; reflexivity.
  - reflexivity.
  - reflexivity.
  - lia.
  - lia.
Defined.

(** ** Claim C6 *)

(** C6, as stated, fails at an interior sample point.  On [args = [0,1,2]]
    (which passes the spacing test) the query 2 followed by the query 1
    gives index 1 on the equal-spaced branch and index 2 on the cursor
    branch: after the query 2 the cursor is 2, and 1 = args[1] still lies in
    the cursor's cell [[args[1], args[2]]]. *)
Lemma paths_disagree_at_interior_sample :
  exists built after_eq after_cur i j w1 w2,
    ArgVec.new [0; 1; 2] 3 = Ok built /\
    ArgVec._equalSpaced built = true /\
    ArgVec.upperIndex (ArgVec.with_equalSpaced true built) 2 = Ok (2%Z, after_eq) /\
    ArgVec.upperIndex (ArgVec.with_equalSpaced false built) 2 = Ok (2%Z, after_cur) /\
    ArgVec.upperIndex after_eq 1 = Ok (i, w1) /\
    ArgVec.upperIndex after_cur 1 = Ok (j, w2) /\
    i = 1%Z /\ j = 2%Z /\ i <> j.
Proof.
  do 7 eexists.
  split; [reflexivity |]. split; [reflexivity |].
  split; [vm_compute; reflexivity |]. split; [vm_compute; reflexivity |].
  split; [vm_compute; reflexivity |]. split; [vm_compute; reflexivity |].
  split; [reflexivity |]. split; [reflexivity | discriminate].
Qed.

(** C6, amended.  On an array that passes the spacing test, from any
    cursor states that earlier queries leave behind, both branches return
    an index; the two indices are equal whenever [a] is not an interior
    sample point [args[k]], [1 <= k <= N-2]; at an interior sample point
    [args[k]] each branch returns [k] or [k+1]. *)
Theorem paths_agree_off_samples
        (args : list Q) (N : Z) (built v_eq v_cur : ArgVec.t) (a : Q) :
  (2 <= N)%Z -> ascending args N ->
  ArgVec.new args N = Ok built -> ArgVec._equalSpaced built = true ->
  ArgVec.reachable (ArgVec.with_equalSpaced true built) v_eq ->
  ArgVec.reachable (ArgVec.with_equalSpaced false built) v_cur ->
  exists i j w1 w2,
    ArgVec.upperIndex v_eq a = Ok (i, w1) /\
    ArgVec.upperIndex v_cur a = Ok (j, w2) /\
    ((forall k, (1 <= k <= N - 2)%Z -> ~ a == get args k) -> i = j) /\
    (forall k, (1 <= k <= N - 2)%Z -> a == get args k ->
               (i = k \/ i = (k + 1)%Z) /\ (j = k \/ j = (k + 1)%Z)).
Proof.
  intros HN Hasc Hnew Heq Hr1 Hr2.
  destruct (ArgVec_new_ok args N HN Hasc) as (b & E & Hok & Hvec & Hn & _).
  rewrite Hnew in E. inversion E; subst b. clear E.
  pose proof Hasc as [Hlen Hascb].
  destruct (reachable_ok _ _ (axis_ok_with_equalSpaced true _ Hok) Hr1)
    as [K1 (V1 & N1 & _)].
  destruct (reachable_ok _ _ (axis_ok_with_equalSpaced false _ Hok) Hr2)
    as [K2 (V2 & N2 & _)].
  simpl in V1, N1, V2, N2. rewrite Hvec in V1, V2. rewrite Hn in N1, N2.
  destruct (upperIndex_spec v_eq a K1) as (i & w1 & R1 & _ & _ & Hi & Lo1 & Hi1 & In1).
  destruct (upperIndex_spec v_cur a K2) as (j & w2 & R2 & _ & _ & Hj & Lo2 & Hi2 & In2).
  rewrite V1, N1 in *. rewrite V2, N2 in *.
  assert (Hfb : get args 0 < get args (N - 1)) by (apply ascendingb_lt; auto; lia).
  exists i, j, w1, w2. split; [exact R1 |]. split; [exact R2 |]. split.
  - intros Hoff.
    destruct (Qlt_le_dec a (get args 0)) as [L | G].
    { rewrite Lo1, Lo2; auto. }
    destruct (Qlt_le_dec (get args (N - 1)) a) as [L' | G'].
    { rewrite Hi1, Hi2; auto. }
    assert (B1 : bracket args a i) by (apply In1; split; auto).
    assert (B2 : bracket args a j) by (apply In2; split; auto).
    pose proof B1 as [B1r B1v]. pose proof B2 as [B2r B2v].
    destruct (bracket_near args a i j Hascb) as [E | [[E Ha] | [E Ha]]];
      auto; try lia.
    + exfalso. apply (Hoff j); auto. lia.
    + exfalso. apply (Hoff i); auto. lia.
  - intros k Hk Ha.
    assert (Hr : get args 0 <= a <= get args (N - 1)).
    { rewrite Ha. split; apply ascendingb_le; auto; lia. }
    pose proof (In1 Hr) as B1. pose proof (In2 Hr) as B2.
    assert (E1 : k = i \/ k = (i - 1)%Z)
      by (apply (sample_bracket args a); auto; lia).
    assert (E2 : k = j \/ k = (j - 1)%Z)
      by (apply (sample_bracket args a); auto; lia).
    lia.
Qed.

Lemma paths_agree_off_samples_witness :
  exists i j w1 w2,
    ArgVec.upperIndex
      (ArgVec.with_equalSpaced true
         (ArgVec.mk [0; 1; 2] 3 (1 # 1000000) (1 # 1000000) true (2 # 2) 1))
      (3 # 2) = Ok (i, w1) /\
    ArgVec.upperIndex
      (ArgVec.with_equalSpaced false
         (ArgVec.mk [0; 1; 2] 3 (1 # 1000000) (1 # 1000000) true (2 # 2) 1))
      (3 # 2) = Ok (j, w2) /\
    ((forall k, (1 <= k <= 3 - 2)%Z -> ~ 3 # 2 == get [0; 1; 2] k) -> i = j) /\
    (forall k, (1 <= k <= 3 - 2)%Z -> 3 # 2 == get [0; 1; 2] k ->
               (i = k \/ i = (k + 1)%Z) /\ (j = k \/ j = (k + 1)%Z)).
Proof.
  apply (paths_agree_off_samples [0; 1; 2] 3
           (ArgVec.mk [0; 1; 2] 3 (1 # 1000000) (1 # 1000000) true (2 # 2) 1)).
  - lia.
  - split; reflexivity.
  - reflexivity.
  - reflexivity.
  - apply ArgVec.reach_init.
  - apply ArgVec.reach_init.
Defined.

(** ** The Thomas branch solves the spline system *)

Lemma alg_done (bb a zj zn y : Q) :
  0 < bb -> (bb * zj + a * zn == y <-> zj + (a / bb) * zn == y / bb).
Proof.
  intros Hb. split; intros H.
  - rewrite <- H. field. lra.
  - assert (E : bb * zj + a * zn == bb * (zj + a / bb * zn)) by (field; lra).
    rewrite E, H. field. lra.
Qed.

Lemma alg_last (bb zj y : Q) :
  0 < bb -> (bb * zj + 0 == y <-> zj + 0 == y / bb).
Proof.
  intros Hb. split; intros H.
  - rewrite <- H. field. lra.
  - assert (E : bb * zj + 0 == bb * (zj + 0)) by ring.
    rewrite E, H. field. lra.
Qed.

Lemma alg_cur (bb a d zj zn rest y yn : Q) :
  zj + (a / bb) * zn == y / bb ->
  (a * zj + d * zn + rest == yn <->
   (d - a * (a / bb)) * zn + rest == yn - a * (y / bb)).
Proof.
  intros H.
  assert (E : zj == y / bb - a / bb * zn) by lra.
  split; intros G.
  - rewrite E in G. lra.
  - rewrite E. lra.
Qed.

Lemma alg_back (zj zn c yj yn : Q) :
  zn == yn -> (zj + c * zn == yj <-> zj == yj - c * yn).
Proof.
  intros H. rewrite H. split; intros G; lra.
Qed.

Lemma alg_pivot (bb a hn : Q) :
  0 < a -> 0 < hn -> a < bb -> hn < 2 * (a + hn) - a * (a / bb).
Proof.
  intros Ha Hh Hb.
  assert (a / bb < 1) by (apply Qlt_shift_div_r; lra).
  assert (a * (a / bb) < a * 1) by (apply Qmult_lt_l; auto).
  lra.
Qed.

Section Thomas.

Variables (args vals : list Q) (n : Z).
Hypothesis Hn : (4 <= n)%Z.
Hypothesis Hasc : ascending args n.

Let h := spline_h args.

Lemma h_pos (i : Z) : (0 <= i <= n - 2)%Z -> 0 < h i.
Proof.
  intros Hi. destruct Hasc as [Hlen Hb]. unfold h, spline_h.
  assert (get args i < get args (i + 1)) by (apply ascendingb_lt; auto; lia).
  lra.
Qed.

Lemma get_y2_init (k : Z) : get (TableImpl.y2_init n) k = 0.
Proof.
  unfold TableImpl.y2_init.
  assert (Z : forall v i, (forall j, get v j = 0) -> forall j, get (upd v i 0) j = 0).
  { intros v i Hv j. unfold get, upd. destruct (i <? 0)%Z; [apply Hv |].
    destruct (Nat.eq_dec (Z.to_nat i) (Z.to_nat j)) as [E | E].
    - rewrite <- E. destruct (Nat.lt_ge_cases (Z.to_nat i) (List.length v)).
      + now apply nth_upd_nat_same.
      + apply nth_overflow. now rewrite length_upd_nat.
    - rewrite nth_upd_nat_other by auto. apply (Hv j). }
  apply Z, Z. intros j. apply get_repeat_zero.
Qed.

Lemma y2_rhs_spec :
  List.length (y2_rhs args vals n) = Z.to_nat n /\
  (forall k, (1 <= k <= n - 2)%Z ->
             get (y2_rhs args vals n) k = TableImpl.rhs_at args vals k) /\
  get (y2_rhs args vals n) 0 = 0 /\ get (y2_rhs args vals n) (n - 1) = 0.
Proof.
  unfold y2_rhs.
  set (P := fun (j : Z) (y : list Q) =>
              List.length y = Z.to_nat n /\
              (forall k, (1 <= k < j)%Z -> get y k = TableImpl.rhs_at args vals k) /\
              get y 0 = 0 /\ get y (n - 1) = 0).
  assert (G : P (1 + Z.of_nat (Z.to_nat (n - 2)))%Z
                (for_up (Z.to_nat (n - 2)) 1 (TableImpl.fill_rhs args vals)
                        (TableImpl.y2_init n))).
  { apply for_up_inv.
    - unfold P. rewrite length_y2_init, !get_y2_init.
      repeat split; auto. intros k Hk; lia.
    - intros j y Hj (L & R & Z0 & Zn). unfold P, TableImpl.fill_rhs.
      rewrite length_upd. split; [exact L |]. split; [| split].
      + intros k Hk. destruct (Z.eq_dec k j) as [-> | Hne].
        * apply get_upd_same. lia.
        * rewrite get_upd_other by lia. apply R. lia.
      + rewrite get_upd_other by lia. exact Z0.
      + rewrite get_upd_other by lia. exact Zn. }
  destruct G as (L & R & Z0 & Zn). repeat split; auto.
  intros k Hk. apply R. lia.
Qed.

(** What one iteration of the forward loop (before the last) writes. *)
Lemma forward_step_effect (j : Z) (s : TableImpl.thomas) :
  (1 <= j < n - 2)%Z ->
  List.length (TableImpl.th_y2 s) = Z.to_nat n ->
  List.length (TableImpl.th_c s) = Z.to_nat (n - 3) ->
  let s' := TableImpl.forward_step args n j s in
  List.length (TableImpl.th_y2 s') = Z.to_nat n /\
  List.length (TableImpl.th_c s') = Z.to_nat (n - 3) /\
  TableImpl.th_bb s' = 2 * (get args (j + 2) - get args j) - h j * (h j / TableImpl.th_bb s) /\
  get (TableImpl.th_c s') (j - 1) = h j / TableImpl.th_bb s /\
  (forall k, (0 <= k)%Z -> k <> (j - 1)%Z ->
             get (TableImpl.th_c s') k = get (TableImpl.th_c s) k) /\
  get (TableImpl.th_y2 s') j = get (TableImpl.th_y2 s) j / TableImpl.th_bb s /\
  get (TableImpl.th_y2 s') (j + 1)
  = get (TableImpl.th_y2 s) (j + 1)
    - h j * (get (TableImpl.th_y2 s) j / TableImpl.th_bb s) /\
  (forall k, (0 <= k)%Z -> k <> j -> k <> (j + 1)%Z ->
             get (TableImpl.th_y2 s') k = get (TableImpl.th_y2 s) k).
Proof.
  intros Hj Ly Lc s'. unfold s', TableImpl.forward_step.
  destruct (Z.eqb_spec j (n - 2)) as [E | _]; [lia |]. cbn [TableImpl.th_bb TableImpl.th_c TableImpl.th_y2].
  change (get args (j + 1) - get args j) with (h j).
  assert (Ec : get (upd (upd (TableImpl.th_c s) (j - 1) (h j)) (j - 1)
                        (get (upd (TableImpl.th_c s) (j - 1) (h j)) (j - 1)
                         / TableImpl.th_bb s)) (j - 1)
               = h j / TableImpl.th_bb s).
  { rewrite get_upd_same by (rewrite length_upd; lia).
    rewrite get_upd_same by lia. reflexivity. }
  rewrite !length_upd. rewrite Ec.
  split; [exact Ly |]. split; [exact Lc |]. split; [reflexivity |].
  split; [reflexivity |]. split; [| split; [| split]].
  - intros k Hk Hne. rewrite !get_upd_other by lia. reflexivity.
  - rewrite get_upd_other by lia. apply get_upd_same. lia.
  - rewrite get_upd_same by (rewrite length_upd; lia).
    rewrite get_upd_other by lia. rewrite get_upd_same by lia. reflexivity.
  - intros k Hk N1 N2. rewrite !get_upd_other by lia. reflexivity.
Qed.

Lemma forward_last_effect (s : TableImpl.thomas) :
  List.length (TableImpl.th_y2 s) = Z.to_nat n ->
  let s' := TableImpl.forward_step args n (n - 2) s in
  List.length (TableImpl.th_y2 s') = Z.to_nat n /\
  TableImpl.th_c s' = TableImpl.th_c s /\
  get (TableImpl.th_y2 s') (n - 2) = get (TableImpl.th_y2 s) (n - 2) / TableImpl.th_bb s /\
  (forall k, (0 <= k)%Z -> k <> (n - 2)%Z ->
             get (TableImpl.th_y2 s') k = get (TableImpl.th_y2 s) k).
Proof.
  intros Ly s'. unfold s', TableImpl.forward_step.
  rewrite Z.eqb_refl. cbn [TableImpl.th_bb TableImpl.th_c TableImpl.th_y2].
  rewrite length_upd. split; [exact Ly |]. split; [reflexivity |]. split.
  - apply get_upd_same. lia.
  - intros k Hk Hne. apply get_upd_other; lia.
Qed.

Ltac zfix := repeat match goal with
  | |- context [(?j + 1 - 1)%Z] => replace (j + 1 - 1)%Z with j by lia
  | |- context [(?j + 1 + 1)%Z] => replace (j + 1 + 1)%Z with (j + 2)%Z by lia
  | H : context [(?j + 1 - 1)%Z] |- _ => replace (j + 1 - 1)%Z with j in H by lia
  | H : context [(?j + 1 + 1)%Z] |- _ => replace (j + 1 + 1)%Z with (j + 2)%Z in H by lia
  end.

Lemma forward_rows_init (z : Z -> Q) :
  spline_system args vals n z <->
  forward_rows args n z 1
    (TableImpl.mkth (2 * (get args 2 - get args 0))
                    (repeat 0 (Z.to_nat (n - 3))) (y2_rhs args vals n)).
Proof.
  destruct y2_rhs_spec as (_ & R & _).
  unfold forward_rows, spline_system. cbn [TableImpl.th_bb TableImpl.th_c TableImpl.th_y2].
  split.
  - intros S. split; [intros k Hk; lia |]. split.
    + intros _. rewrite R by lia. rewrite <- (S 1%Z) by lia.
      unfold spline_row. change (1 <? 1)%Z with false. cbv iota.
      change (1 + 1)%Z with 2%Z. change (1 - 1)%Z with 0%Z.
      destruct (1 <? n - 2)%Z; ring.
    + intros k Hk. rewrite R by lia. apply S. lia.
  - intros (_ & C & U) i Hi. destruct (Z.eq_dec i 1) as [-> | Hne].
    + specialize (C ltac:(lia)). rewrite R in C by lia. rewrite <- C.
      unfold spline_row. change (1 <? 1)%Z with false. cbv iota.
      change (1 + 1)%Z with 2%Z. change (1 - 1)%Z with 0%Z.
      destruct (1 <? n - 2)%Z; ring.
    + rewrite <- R by lia. apply U. lia.
Qed.

Lemma forward_state_init :
  forward_state args n 1
    (TableImpl.mkth (2 * (get args 2 - get args 0))
                    (repeat 0 (Z.to_nat (n - 3))) (y2_rhs args vals n)).
Proof.
  destruct y2_rhs_spec as (L & _ & Z0 & Zn).
  unfold forward_state. cbn [TableImpl.th_bb TableImpl.th_c TableImpl.th_y2].
  rewrite repeat_length. repeat split; auto.
  intros _. pose proof (h_pos 0%Z ltac:(lia)) as H0.
  pose proof (h_pos 1%Z ltac:(lia)) as H1.
  unfold h, spline_h in H0, H1. unfold spline_h.
  change (0 + 1)%Z with 1%Z in H0. change (1 + 1)%Z with 2%Z in *. lra.
Qed.

(** One iteration of the forward loop keeps the solution set. *)
Lemma forward_rows_step (j : Z) (s : TableImpl.thomas) (z : Z -> Q) :
  (1 <= j <= n - 2)%Z -> forward_state args n j s ->
  forward_state args n (j + 1) (TableImpl.forward_step args n j s) /\
  (forward_rows args n z j s <->
   forward_rows args n z (j + 1) (TableImpl.forward_step args n j s)).
Proof.
  intros Hj (Ly & Lc & Z0 & Zn & Hp). specialize (Hp ltac:(lia)).
  pose proof (h_pos j ltac:(lia)) as Hhj.
  assert (Hbb : 0 < TableImpl.th_bb s) by (unfold h in Hhj; lra).
  destruct (Z.eq_dec j (n - 2)) as [-> | Hne].
  - (* the last row: only the division *)
    destruct (forward_last_effect s Ly) as (Ly' & Ec & Ej & Eo).
    set (s' := TableImpl.forward_step args n (n - 2) s) in *.
    split.
    + unfold forward_state. rewrite Ly', Ec, !Eo by lia.
      repeat split; auto. intros; lia.
    + unfold forward_rows. rewrite Ec.
      destruct (Z.ltb_spec (n - 2) (n - 2)) as [|_]; [lia |].
      split.
      * intros (A1 & A2 & A3). split; [| split].
        -- intros k Hk. destruct (Z.eq_dec k (n - 2)) as [-> | Hk'].
           ++ destruct (Z.ltb_spec (n - 2) (n - 2)) as [|_]; [lia |].
              rewrite Ej. apply alg_last; auto. apply A2. lia.
           ++ rewrite Eo by lia. apply A1. lia.
        -- intros; lia.
        -- intros; lia.
      * intros (B1 & _ & _). split; [| split].
        -- intros k Hk. rewrite <- Eo by lia. apply B1. lia.
        -- intros _. specialize (B1 (n - 2)%Z ltac:(lia)).
           destruct (Z.ltb_spec (n - 2) (n - 2)) as [|_]; [lia |].
           rewrite Ej in B1. apply alg_last; auto.
        -- intros; lia.
  - destruct (forward_step_effect j s ltac:(lia) Ly Lc)
      as (Ly' & Lc' & Ebb & Ecj & Eco & Eyj & Eyn & Eyo).
    set (s' := TableImpl.forward_step args n j s) in *.
    pose proof (h_pos (j + 1)%Z ltac:(lia)) as Hhn.
    assert (E2 : 2 * (get args (j + 2) - get args j) == 2 * (h j + h (j + 1))).
    { unfold h, spline_h. zfix. ring. }
    split.
    + unfold forward_state. rewrite Ly', Lc', !Eyo by lia.
      repeat split; auto. intros _. rewrite Ebb.
      pose proof (alg_pivot (TableImpl.th_bb s) (h j) (h (j + 1)) Hhj Hhn Hp).
      unfold h in *. lra.
    + unfold forward_rows.
      assert (Hrow : forall zz : Z -> Q,
                 spline_row args n zz (j + 1)
                 == h j * zz j + 2 * (get args (j + 2) - get args j) * zz (j + 1)%Z
                    + (if (j + 1 <? n - 2)%Z then h (j + 1) * zz (j + 2)%Z else 0)).
      { intros zz. unfold spline_row.
        destruct (Z.ltb_spec 1 (j + 1)) as [_ |]; [| lia]. zfix. reflexivity. }
      destruct (Z.ltb_spec j (n - 2)) as [_ |]; [| lia].
      split.
      * intros (A1 & A2 & A3). specialize (A2 ltac:(lia)).
        assert (Dj : z j + h j / TableImpl.th_bb s * z (j + 1)%Z
                     == get (TableImpl.th_y2 s) j / TableImpl.th_bb s).
        { apply alg_done; auto. }
        split; [| split].
        -- intros k Hk. destruct (Z.eq_dec k j) as [-> | Hk'].
           ++ destruct (Z.ltb_spec j (n - 2)) as [_ |]; [| lia].
              rewrite Ecj, Eyj. exact Dj.
           ++ rewrite Eco, Eyo by lia. apply A1. lia.
        -- intros _. rewrite Ebb, Eyn. zfix.
           specialize (A3 (j + 1)%Z ltac:(lia)). rewrite Hrow in A3.
           exact (proj1 (alg_cur _ _ _ _ _ _ _ _ Dj) A3).
        -- intros k Hk. rewrite Eyo by lia. apply A3. lia.
      * intros (B1 & B2 & B3). specialize (B2 ltac:(lia)).
        assert (Dj : z j + h j / TableImpl.th_bb s * z (j + 1)%Z
                     == get (TableImpl.th_y2 s) j / TableImpl.th_bb s).
        { specialize (B1 j ltac:(lia)).
          destruct (Z.ltb_spec j (n - 2)) as [_ |]; [| lia].
          rewrite Ecj, Eyj in B1. exact B1. }
        split; [| split].
        -- intros k Hk. specialize (B1 k ltac:(lia)).
           rewrite Eco, Eyo in B1 by lia. exact B1.
        -- intros _. apply alg_done; auto.
        -- intros k Hk. destruct (Z.eq_dec k (j + 1)) as [-> | Hk'].
           ++ rewrite Hrow. rewrite Ebb, Eyn in B2. zfix.
              exact (proj2 (alg_cur _ _ _ _ _ _ _ _ Dj) B2).
           ++ rewrite <- Eyo by lia. apply B3. lia.
Qed.

Lemma thomas_forward_spec :
  forward_state args n (n - 1) (thomas_forward args vals n) /\
  forall z, spline_system args vals n z <->
            forward_rows args n z (n - 1) (thomas_forward args vals n).
Proof.
  unfold thomas_forward.
  set (P := fun (j : Z) (s : TableImpl.thomas) =>
              forward_state args n j s /\
              forall z, spline_system args vals n z <-> forward_rows args n z j s).
  replace (n - 1)%Z with (1 + Z.of_nat (Z.to_nat (n - 2)))%Z by lia.
  apply (for_up_inv P).
  - split; [apply forward_state_init | apply forward_rows_init].
  - intros j s Hj [St Eq].
    split; [apply forward_rows_step; auto; lia |].
    intros z. rewrite (Eq z). apply forward_rows_step; auto; lia.
Qed.

(** One iteration of the back-substitution keeps the solution set. *)
Lemma backward_rows_step (c : list Q) (j : Z) (y : list Q) (z : Z -> Q) :
  (1 <= j <= n - 3)%Z -> List.length y = Z.to_nat n ->
  (backward_rows n c z j y <-> backward_rows n c z (j - 1) (TableImpl.back_step c j y)).
Proof.
  intros Hj Ly. unfold backward_rows, TableImpl.back_step. split.
  - intros [A1 A2]. split.
    + intros k Hk. destruct (Z.eq_dec k j) as [-> | Hk'].
      * rewrite get_upd_same by lia.
        apply (proj1 (alg_back _ _ _ _ _ (A1 (j + 1)%Z ltac:(lia)))).
        apply A2. lia.
      * rewrite get_upd_other by lia. apply A1. lia.
    + intros k Hk. rewrite get_upd_other by lia. apply A2. lia.
  - intros [B1 B2].
    assert (Hn1 : z (j + 1)%Z == get y (j + 1)).
    { specialize (B1 (j + 1)%Z ltac:(lia)).
      rewrite get_upd_other in B1 by lia. exact B1. }
    split.
    + intros k Hk. specialize (B1 k ltac:(lia)).
      rewrite get_upd_other in B1 by lia. exact B1.
    + intros k Hk. destruct (Z.eq_dec k j) as [-> | Hk'].
      * specialize (B1 j ltac:(lia)). rewrite get_upd_same in B1 by lia.
        apply (proj2 (alg_back _ _ _ _ _ Hn1)). exact B1.
      * specialize (B2 k ltac:(lia)). rewrite get_upd_other in B2 by lia. exact B2.
Qed.

Lemma thomas_solve_eq :
  TableImpl.thomas_solve args vals n (TableImpl.y2_init n)
  = for_down (Z.to_nat (n - 3)) (n - 3)%Z
             (TableImpl.back_step (TableImpl.th_c (thomas_forward args vals n)))
             (TableImpl.th_y2 (thomas_forward args vals n)).
Proof. reflexivity. Qed.

(** The Thomas branch returns the one solution of the spline system. *)
Lemma thomas_solve_spec :
  let y2 := TableImpl.thomas_solve args vals n (TableImpl.y2_init n) in
  List.length y2 = Z.to_nat n /\ get y2 0 = 0 /\ get y2 (n - 1) = 0 /\
  forall z, spline_system args vals n z <->
            forall k, (1 <= k <= n - 2)%Z -> z k == get y2 k.
Proof.
  intros y2. unfold y2. rewrite thomas_solve_eq.
  destruct thomas_forward_spec as [(Ly & Lc & Z0 & Zn & _) Eq].
  set (sF := thomas_forward args vals n) in *.
  set (c := TableImpl.th_c sF) in *.
  set (P := fun (j : Z) (y : list Q) =>
              List.length y = Z.to_nat n /\ get y 0 = 0 /\ get y (n - 1) = 0 /\
              forall z, spline_system args vals n z <-> backward_rows n c z j y).
  assert (G : P (n - 3 - Z.of_nat (Z.to_nat (n - 3)))%Z
                (for_down (Z.to_nat (n - 3)) (n - 3) (TableImpl.back_step c)
                          (TableImpl.th_y2 sF))).
  { apply (for_down_inv P).
    - split; [exact Ly |]. split; [exact Z0 |]. split; [exact Zn |].
      intros z. rewrite (Eq z). unfold forward_rows, backward_rows. fold c. split.
      + intros (A1 & _ & _). split.
        * intros k Hk. assert (k = n - 2)%Z by lia. subst k.
          specialize (A1 (n - 2)%Z ltac:(lia)).
          destruct (Z.ltb_spec (n - 2) (n - 2)) as [|_]; [lia |]. lra.
        * intros k Hk. specialize (A1 k ltac:(lia)).
          destruct (Z.ltb_spec k (n - 2)) as [_ |]; [| lia]. exact A1.
      + intros [B1 B2]. split; [| split].
        * intros k Hk. destruct (Z.ltb_spec k (n - 2)).
          -- apply B2. lia.
          -- specialize (B1 k ltac:(lia)). lra.
        * intros; lia.
        * intros; lia.
    - intros j y Hj (L & Y0 & Yn & E).
      split; [| split; [| split]].
      + unfold TableImpl.back_step. now rewrite length_upd.
      + unfold TableImpl.back_step. rewrite get_upd_other by lia. exact Y0.
      + unfold TableImpl.back_step. rewrite get_upd_other by lia. exact Yn.
      + intros z. rewrite (E z). apply backward_rows_step; auto. lia. }
  replace (n - 3 - Z.of_nat (Z.to_nat (n - 3)))%Z with 0%Z in G by lia.
  destruct G as (L & Y0 & Yn & E).
  split; [exact L |]. split; [exact Y0 |]. split; [exact Yn |].
  intros z. rewrite (E z). unfold backward_rows. split.
  - intros [A _] k Hk. apply A. lia.
  - intros A. split; [intros k Hk; apply A; lia | intros; lia].
Qed.

End Thomas.

(** ** The [USE_TMV] branch sets up the same system *)

Lemma spline_system_ext (args vals : list Q) (n : Z) (z z' : Z -> Q) :
  (forall k, (1 <= k <= n - 2)%Z -> z k == z' k) ->
  spline_system args vals n z -> spline_system args vals n z'.
Proof.
  intros E S i Hi. rewrite <- (S i Hi). unfold spline_row.
  rewrite <- (E i Hi).
  destruct (Z.ltb_spec 1 i); destruct (Z.ltb_spec i (n - 2));
    rewrite <- ?(E (i - 1)%Z) by lia; rewrite <- ?(E (i + 1)%Z) by lia;
    reflexivity.
Qed.

Lemma tmv_system_spec (args vals : list Q) (n : Z) :
  (4 <= n)%Z ->
  let M := fst (TableImpl.tmv_system args vals n) in
  let rhs := snd (TableImpl.tmv_system args vals n) in
  (forall i, (1 <= i <= n - 2)%Z ->
     get (TableImpl.sb_diag M) (i - 1) = 2 * (get args (i + 1) - get args (i - 1))) /\
  (forall i, (1 <= i <= n - 3)%Z ->
     get (TableImpl.sb_off M) (i - 1) = get args (i + 1) - get args i) /\
  (forall i, (1 <= i <= n - 2)%Z -> get rhs (i - 1) = TableImpl.rhs_at args vals i).
Proof.
  intros Hn M rhs. unfold M, rhs, TableImpl.tmv_system. clear M rhs.
  set (M0 := TableImpl.mksb (repeat 0 (Z.to_nat (n - 2))) (repeat 0 (Z.to_nat (n - 3)))).
  set (P1 := fun (j : Z) (M : TableImpl.SymBand) =>
               List.length (TableImpl.sb_diag M) = Z.to_nat (n - 2) /\
               List.length (TableImpl.sb_off M) = Z.to_nat (n - 3) /\
               forall i, (1 <= i < j)%Z ->
                 get (TableImpl.sb_off M) (i - 1) = get args (i + 1) - get args i).
  assert (G1 : P1 (1 + Z.of_nat (Z.to_nat (n - 3)))%Z
                  (for_up (Z.to_nat (n - 3)) 1 (TableImpl.set_off args) M0)).
  { apply for_up_inv.
    - unfold P1, M0. simpl. rewrite !repeat_length.
      repeat split; auto. intros; lia.
    - intros j M Hj (Ld & Lo & E). unfold P1, TableImpl.set_off. simpl.
      rewrite length_upd. repeat split; auto.
      intros i Hi. destruct (Z.eq_dec i j) as [-> | Hne].
      + apply get_upd_same. lia.
      + rewrite get_upd_other by lia. apply E. lia. }
  set (M1 := for_up (Z.to_nat (n - 3)) 1 (TableImpl.set_off args) M0) in *.
  set (P2 := fun (j : Z) (s : TableImpl.SymBand * list Q) =>
               List.length (TableImpl.sb_diag (fst s)) = Z.to_nat (n - 2) /\
               List.length (snd s) = Z.to_nat (n - 2) /\
               TableImpl.sb_off (fst s) = TableImpl.sb_off M1 /\
               forall i, (1 <= i < j)%Z ->
                 get (TableImpl.sb_diag (fst s)) (i - 1)
                 = 2 * (get args (i + 1) - get args (i - 1)) /\
                 get (snd s) (i - 1) = TableImpl.rhs_at args vals i).
  assert (G2 : P2 (1 + Z.of_nat (Z.to_nat (n - 2)))%Z
                  (for_up (Z.to_nat (n - 2)) 1 (TableImpl.set_diag_rhs args vals)
                          (M1, repeat 0 (Z.to_nat (n - 2))))).
  { apply for_up_inv.
    - destruct G1 as (Ld & Lo & E). unfold P2. simpl. rewrite repeat_length.
      repeat split; auto; intros; lia.
    - intros j s Hj (Ld & Lr & Eo & E). unfold P2, TableImpl.set_diag_rhs. simpl.
      rewrite !length_upd. split; [exact Ld |]. split; [exact Lr |].
      split; [exact Eo |].
      intros i Hi. destruct (Z.eq_dec i j) as [-> | Hne].
      + rewrite !get_upd_same by lia. auto.
      + rewrite !get_upd_other by lia. apply E. lia. }
  destruct G1 as (_ & _ & E1). destruct G2 as (_ & _ & Eo & E2).
  split; [| split].
  - intros i Hi. apply E2. lia.
  - intros i Hi. rewrite Eo. apply E1. lia.
  - intros i Hi. apply E2. lia.
Qed.

Lemma solves_spline_system (args vals solution : list Q) (n : Z) :
  (4 <= n)%Z ->
  TableImpl.solves (fst (TableImpl.tmv_system args vals n)) (n - 2)
                   (snd (TableImpl.tmv_system args vals n)) solution ->
  spline_system args vals n (fun i => get solution (i - 1)).
Proof.
  intros Hn [_ S] i Hi.
  destruct (tmv_system_spec args vals n Hn) as (Ed & Eo & Er).
  specialize (S (i - 1)%Z ltac:(lia)). rewrite Er in S by lia. rewrite <- S.
  unfold TableImpl.symband_mul_row, spline_row, spline_h. rewrite Ed by lia.
  destruct (Z.ltb_spec 1 i); destruct (Z.ltb_spec 0 (i - 1)); try lia;
    destruct (Z.ltb_spec i (n - 2)); destruct (Z.ltb_spec (i - 1) (n - 2 - 1));
    try lia;
    rewrite ?(Eo i) by lia;
    try (replace (i - 1 - 1)%Z with ((i - 1) - 1)%Z by lia;
         rewrite (Eo (i - 1)%Z) by lia);
    replace (i - 1 + 1)%Z with i by lia;
    replace (i + 1 - 1)%Z with i by lia; reflexivity.
Qed.

Lemma setupSpline_tmv_spec (solve : TableImpl.SymBand -> list Q -> list Q)
      (args vals : list Q) (n : Z) :
  (4 <= n)%Z ->
  let y2 := TableImpl.setupSpline_tmv solve args vals n in
  let solution := solve (fst (TableImpl.tmv_system args vals n))
                        (snd (TableImpl.tmv_system args vals n)) in
  List.length y2 = Z.to_nat n /\ get y2 0 = 0 /\ get y2 (n - 1) = 0 /\
  forall k, (1 <= k <= n - 2)%Z -> get y2 k = get solution (k - 1).
Proof.
  intros Hn y2 solution. unfold y2, TableImpl.setupSpline_tmv.
  destruct (Z.eqb_spec n 3) as [|_]; [lia |].
  destruct (TableImpl.tmv_system args vals n) as [M rhs] eqn:Es.
  simpl in solution. fold solution.
  set (P := fun (j : Z) (y : list Q) =>
              List.length y = Z.to_nat n /\ get y 0 = 0 /\ get y (n - 1) = 0 /\
              forall k, (1 <= k < j)%Z -> get y k = get solution (k - 1)).
  assert (G : P (1 + Z.of_nat (Z.to_nat (n - 2)))%Z
                (for_up (Z.to_nat (n - 2)) 1 (TableImpl.copy_solution solution)
                        (TableImpl.y2_init n))).
  { apply for_up_inv.
    - unfold P. rewrite length_y2_init, !get_y2_init.
      repeat split; auto. intros; lia.
    - intros j y Hj (L & Y0 & Yn & E). unfold P, TableImpl.copy_solution.
      rewrite length_upd. split; [exact L |].
      rewrite !get_upd_other by lia. split; [exact Y0 |]. split; [exact Yn |].
      intros k Hk. destruct (Z.eq_dec k j) as [-> | Hne].
      + apply get_upd_same. lia.
      + rewrite get_upd_other by lia. apply E. lia. }
  destruct G as (L & Y0 & Yn & E).
  repeat split; auto. intros k Hk. apply E. lia.
Qed.

(** ** Claim C5 *)

(** C5.  For [N >= 4] strictly ascending arguments, the Thomas branch of
    [setupSpline] and the [USE_TMV] branch, whose library solver is any
    [solve] with [M * solve M rhs = rhs] for the matrix and right-hand side
    that the branch builds, both return a solution of the tridiagonal
    system with diagonal [2*(args[i+1]-args[i-1])], off-diagonals
    [args[i+1]-args[i]] and the stated right-hand side, and the two
    coefficient vectors are equal entry by entry. *)
Theorem spline_solvers_agree
        (args vals : list Q) (n : Z)
        (solve : TableImpl.SymBand -> list Q -> list Q) (y2 : list Q) :
  (4 <= n)%Z -> ascending args n -> Z.of_nat (List.length vals) = n ->
  TableImpl.setupSpline args vals n = Ok y2 ->
  TableImpl.solves (fst (TableImpl.tmv_system args vals n)) (n - 2)
                   (snd (TableImpl.tmv_system args vals n))
                   (solve (fst (TableImpl.tmv_system args vals n))
                          (snd (TableImpl.tmv_system args vals n))) ->
  let y2' := TableImpl.setupSpline_tmv solve args vals n in
  spline_system args vals n (get y2) /\
  spline_system args vals n (get y2') /\
  List.length y2' = List.length y2 /\
  forall k, (0 <= k < n)%Z -> get y2' k == get y2 k.
Proof.
  intros Hn Hasc Hv Hset Hsol y2'.
  unfold TableImpl.setupSpline in Hset.
  destruct (Z.eqb_spec n 3) as [| _]; [lia |].
  destruct (Z.ltb_spec (n - 3) 0) as [| _]; [lia |].
  inversion Hset; subst y2. clear Hset.
  destruct (thomas_solve_spec args vals n Hn Hasc) as (L & Y0 & Yn & U).
  destruct (setupSpline_tmv_spec solve args vals n Hn) as (L' & Y0' & Yn' & E').
  fold y2' in L', Y0', Yn', E'.
  set (y2 := TableImpl.thomas_solve args vals n (TableImpl.y2_init n)) in *.
  assert (S1 : spline_system args vals n (get y2)).
  { apply U. intros; reflexivity. }
  assert (S2 : spline_system args vals n (get y2')).
  { apply (spline_system_ext args vals n
             (fun i => get (solve (fst (TableImpl.tmv_system args vals n))
                                  (snd (TableImpl.tmv_system args vals n))) (i - 1))).
    - intros k Hk. rewrite E' by lia. reflexivity.
    - apply solves_spline_system; auto. }
  split; [exact S1 |]. split; [exact S2 |]. split; [congruence |].
  intros k Hk.
  destruct (Z.eq_dec k 0) as [-> | N0]; [rewrite Y0, Y0'; reflexivity |].
  destruct (Z.eq_dec k (n - 1)) as [-> | N1]; [rewrite Yn, Yn'; reflexivity |].
  apply (proj1 (U (get y2')) S2). lia.
Qed.

Lemma spline_solvers_agree_witness :
  let solve := fun (_ : TableImpl.SymBand) (_ : list Q) => [54 # 23; 60 # 23] in
  let y2 := [0; 6912 # 2944; 480 # 184; 0] in
  let y2' := TableImpl.setupSpline_tmv solve [0; 1; 2; 4] [0; 1; 4; 16] 4 in
  spline_system [0; 1; 2; 4] [0; 1; 4; 16] 4 (get y2) /\
  spline_system [0; 1; 2; 4] [0; 1; 4; 16] 4 (get y2') /\
  List.length y2' = List.length y2 /\
  forall k, (0 <= k < 4)%Z -> get y2' k == get y2 k.
Proof.
  apply (spline_solvers_agree [0; 1; 2; 4] [0; 1; 4; 16] 4
           (fun _ _ => [54 # 23; 60 # 23])).
  - lia.
  - split; reflexivity.
  - reflexivity.
  - vm_compute. reflexivity.
  - split; [reflexivity |].
    intros i Hi. assert (E : i = 0%Z \/ i = 1%Z) by lia.
    destruct E as [-> | ->]; vm_compute; reflexivity.
Defined.

(** ** Tables that sample a straight line *)

Lemma on_line_get (m c : Q) (args vals : list Q) :
  on_line m c args vals ->
  List.length vals = List.length args /\
  forall k, (0 <= k < Z.of_nat (List.length args))%Z ->
            get vals k == m * get args k + c.
Proof.
  unfold on_line. induction 1 as [| x v xs vs Hxv HF [IHl IHg]].
  - split; [reflexivity |]. simpl. intros; lia.
  - split; [simpl; congruence |].
    intros k Hk. unfold get. destruct (Z.to_nat k) as [| p] eqn:Ek.
    + exact Hxv.
    + specialize (IHg (Z.of_nat p)). unfold get in IHg.
      rewrite Nat2Z.id in IHg. apply IHg. simpl in Hk. lia.
Qed.

Lemma rhs_at_line (m c : Q) (args vals : list Q) (n i : Z) :
  ascending args n -> on_line m c args vals -> (1 <= i <= n - 2)%Z ->
  TableImpl.rhs_at args vals i == 0.
Proof.
  intros [Hlen Hasc] Hl Hi. destruct (on_line_get m c args vals Hl) as [_ G].
  assert (H1 : get args (i - 1) < get args i) by (apply ascendingb_lt; auto; lia).
  assert (H2 : get args i < get args (i + 1)) by (apply ascendingb_lt; auto; lia).
  unfold TableImpl.rhs_at.
  rewrite (G (i + 1)%Z), (G i), (G (i - 1)%Z) by lia. field. lra.
Qed.

Lemma get_upd_cases (v : list Q) (i k : Z) (x : Q) :
  get (upd v i x) k = x \/ get (upd v i x) k = get v k.
Proof.
  unfold get, upd. destruct (i <? 0)%Z; [now right |].
  destruct (Nat.eq_dec (Z.to_nat i) (Z.to_nat k)) as [E | E].
  - rewrite <- E. destruct (Nat.lt_ge_cases (Z.to_nat i) (List.length v)).
    + left. now apply nth_upd_nat_same.
    + right. rewrite !nth_overflow; auto. now rewrite length_upd_nat.
  - right. now apply nth_upd_nat_other.
Qed.

Lemma upd_zero (v : list Q) (i : Z) (x : Q) :
  (forall k, get v k == 0) -> x == 0 -> forall k, get (upd v i x) k == 0.
Proof.
  intros Hv Hx k. destruct (get_upd_cases v i k x) as [-> | ->]; auto.
Qed.

Lemma thomas_solve_zero (args vals : list Q) (n : Z) :
  (forall i, (1 <= i <= n - 2)%Z -> TableImpl.rhs_at args vals i == 0) ->
  forall k, get (TableImpl.thomas_solve args vals n (TableImpl.y2_init n)) k == 0.
Proof.
  intros Hr. unfold TableImpl.thomas_solve.
  set (P := fun (_ : Z) (y : list Q) => forall k, get y k == 0).
  set (PS := fun (_ : Z) (s : TableImpl.thomas) =>
               forall k, get (TableImpl.th_y2 s) k == 0).
  assert (H1 : P (1 + Z.of_nat (Z.to_nat (n - 2)))%Z
                 (for_up (Z.to_nat (n - 2)) 1 (TableImpl.fill_rhs args vals)
                         (TableImpl.y2_init n))).
  { apply for_up_inv.
    - intros k. rewrite get_y2_init. reflexivity.
    - intros j y Hj Hy. unfold P, TableImpl.fill_rhs.
      apply upd_zero; auto. apply Hr. lia. }
  match goal with |- context [for_up ?cnt ?i (TableImpl.forward_step args n) ?s] =>
    assert (H2 : PS (i + Z.of_nat cnt)%Z
                    (for_up cnt i (TableImpl.forward_step args n) s))
  end.
  { apply for_up_inv; [exact H1 |].
    intros j s _ Hs. unfold PS, TableImpl.forward_step in *.
    assert (Z1 : forall k, get (upd (TableImpl.th_y2 s) j
                                    (get (TableImpl.th_y2 s) j / TableImpl.th_bb s)) k
                           == 0).
    { apply upd_zero; auto. rewrite (Hs j). unfold Qdiv. ring. }
    destruct (j =? n - 2)%Z; cbn [TableImpl.th_y2]; [exact Z1 |].
    apply upd_zero; auto. rewrite (Z1 (j + 1)%Z), (Z1 j). ring. }
  match goal with |- context [for_down ?cnt ?i ?b ?s] =>
    apply (for_down_inv P b cnt i s)
  end; [exact H2 |].
  intros j y _ Hy. unfold P, TableImpl.back_step.
  apply upd_zero; auto. rewrite (Hy j), (Hy (j + 1)%Z). ring.
Qed.

Lemma setupSpline_line (m c : Q) (args vals : list Q) (n : Z) (y2 : list Q) :
  ascending args n -> on_line m c args vals ->
  TableImpl.setupSpline args vals n = Ok y2 ->
  forall k, get y2 k == 0.
Proof.
  intros Hasc Hl. unfold TableImpl.setupSpline.
  destruct (Z.eqb_spec n 3) as [-> | Hne].
  - intros E; inversion E; subst y2. clear E.
    apply upd_zero; [intros k; rewrite get_y2_init; reflexivity |].
    pose proof (rhs_at_line m c args vals 3 1 Hasc Hl ltac:(lia)) as R.
    unfold TableImpl.rhs_at in R. unfold TableImpl.y2_three.
    change (1 + 1)%Z with 2%Z in R. change (1 - 1)%Z with 0%Z in R.
    destruct Hasc as [Hlen Hb].
    assert (get args 0 < get args 2) by (apply ascendingb_lt; auto; lia).
    set (e := (get vals 2 - get vals 1) / (get args 2 - get args 1)
              - (get vals 1 - get vals 0) / (get args 1 - get args 0)) in *.
    assert (E0 : e == 0) by lra.
    rewrite E0. field. lra.
  - destruct (n - 3 <? 0)%Z; intros E; inversion E; subst y2.
    apply thomas_solve_zero. intros i Hi. eapply rhs_at_line; eauto.
Qed.

(** ** Claim C8 *)

(** C8.  For a spline table whose values lie on a straight line
    [vals[k] = m*args[k] + c] over strictly ascending arguments (equally
    spaced ones in particular): every second-derivative coefficient is
    zero; [splineInterpolate(a, i)] equals [m*a + c] in every cell [i]; and
    the lookup of every in-range query [a] returns [m*a + c]. *)
Theorem spline_of_line
        (args vals : list Q) (N : Z) (m c : Q) (built : Table.t) (cur : Z) (a : Q) :
  (2 <= N)%Z -> ascending args N -> on_line m c args vals ->
  Table.new args vals N TableImpl.spline = Ok built ->
  (1 <= cur <= N - 1)%Z ->
  let tb := Table.set_cursor built cur in
  (forall k, (0 <= k < N)%Z -> get (TableImpl._y2 tb) k == 0) /\
  (forall i, (1 <= i <= N - 1)%Z ->
     exists v, TableImpl.splineInterpolate tb a i = Ok v /\ v == m * a + c) /\
  (get args 0 <= a <= get args (N - 1) ->
   exists v tb', Table.lookup tb a = Ok (v, tb') /\ v == m * a + c).
Proof.
  intros HN Hasc Hl Hnew Hc tb.
  pose proof Hasc as [Hlen Hascb].
  destruct (on_line_get m c args vals Hl) as [Lv G].
  assert (Hv : Z.of_nat (List.length vals) = N) by lia.
  destruct (built_table args vals N TableImpl.spline built cur HN Hasc Hv Hnew Hc)
    as (Hok & Hvec & Hvals & Hn & Hty).
  fold tb in Hok, Hvec, Hvals, Hn, Hty.
  assert (Hz : forall k, get (TableImpl._y2 tb) k == 0).
  { unfold Table.new, TableImpl.new in Hnew.
    destruct (ArgVec.new args N) as [av |]; cbn [bind] in Hnew; [| discriminate].
    destruct (TableImpl.setupSpline args vals N) as [y2 |] eqn:Es;
      cbn [bind] in Hnew; [| discriminate].
    inversion Hnew; subst built. simpl.
    eapply setupSpline_line; eauto. }
  assert (Hsp : forall i, (1 <= i <= N - 1)%Z ->
            exists v, TableImpl.splineInterpolate tb a i = Ok v /\ v == m * a + c).
  { intros i Hi. pose proof Hok as (_ & _ & _ & Hy). specialize (Hy Hty).
    assert (Hlt : get args (i - 1) < get args i) by (apply ascendingb_lt; auto; lia).
    unfold TableImpl.splineInterpolate, ArgVec.at_.
    rewrite Hvec, Hvals. rewrite !rd_ok by lia. cbn [bind].
    eexists; split; [reflexivity |].
    rewrite (Hz (i - 1)%Z), (Hz i), (G i), (G (i - 1)%Z) by lia.
    field. lra. }
  split; [intros k _; apply Hz |]. split; [exact Hsp |].
  intros Hr.
  destruct (lookup_spec tb a Hok) as (i & val & tb' & R & _ & _ & Ei & Hi & _).
  unfold TableImpl.interpolate in Ei. rewrite Hty in Ei.
  destruct (Hsp i ltac:(lia)) as (v & Ev & Qv).
  rewrite Ei in Ev. inversion Ev; subst v.
  exists val, tb'. split; [exact R | exact Qv].
Qed.

Lemma spline_of_line_witness :
  let tb := Table.set_cursor
              (TableImpl.mk TableImpl.spline
                 (ArgVec.mk [0; 1; 2; 3] 4 (1 # 1000000) (1 # 1000000) true (3 # 3) 1)
                 [1; 3; 5; 7] 4
                 [0; 0 # 960; 0 # 60; 0]) 2 in
  (forall k, (0 <= k < 4)%Z -> get (TableImpl._y2 tb) k == 0) /\
  (forall i, (1 <= i <= 4 - 1)%Z ->
     exists v, TableImpl.splineInterpolate tb (1 # 2) i = Ok v /\
               v == 2 * (1 # 2) + 1) /\
  (get [0; 1; 2; 3] 0 <= 1 # 2 <= get [0; 1; 2; 3] (4 - 1) ->
   exists v tb', Table.lookup tb (1 # 2) = Ok (v, tb') /\ v == 2 * (1 # 2) + 1).
Proof.
  apply (spline_of_line [0; 1; 2; 3] [1; 3; 5; 7] 4 2 1).
  - lia.
  - split; reflexivity.
  - repeat constructor.
  - vm_compute. reflexivity.
  - lia.
Defined.

(** * Further properties of the axis search *)

(** ** Which branch [upperIndex] took *)

Lemma upperIndex_cases (v : ArgVec.t) (a : Q) (i : Z) (v' : ArgVec.t) :
  axis_ok v -> ArgVec.upperIndex v a = Ok (i, v') ->
  (v' = v /\ (a < get (ArgVec._vec v) 0 \/
              get (ArgVec._vec v) (ArgVec._n v - 1) < a \/
              ArgVec._equalSpaced v = true)) \/
  (ArgVec._equalSpaced v = false /\
   bracket (ArgVec._vec v) a i /\ ArgVec._lastIndex v' = i /\
   axis_ok v' /\ same_axis v v').
Proof.
  intros Hok. pose proof Hok as ((Hlen & Hasc) & Hn & _).
  unfold ArgVec.upperIndex, ArgVec.front, ArgVec.back.
  rewrite rd_ok by lia. cbn [bind].
  destruct (Qltb a (get (ArgVec._vec v) 0)) eqn:E1.
  { apply Qltb_true in E1. intros E; inversion E; subst. left. auto. }
  apply Qltb_false in E1. rewrite rd_ok by lia. cbn [bind].
  destruct (Qltb (get (ArgVec._vec v) (ArgVec._n v - 1)) a) eqn:E2.
  { apply Qltb_true in E2. intros E; inversion E; subst. left. auto. }
  apply Qltb_false in E2.
  destruct (ArgVec._equalSpaced v) eqn:Es.
  - destruct (ArgVec.upperIndex_equalSpaced v a); cbn [bind]; intros E;
      inversion E; subst. left. auto.
  - intros E. right.
    destruct (upperIndex_search_spec v a Hok) as (i0 & w & R & B & K1 & K2 & Hc);
      [split; auto |].
    rewrite R in E. injection E as Ei Ev. rewrite Ev in *. rewrite Ei in *.
    split; [reflexivity |]. split; [exact B |]. split; [exact Hc |].
    split; [exact K1 | exact K2].
Qed.

(** ** Built axes and the states they reach *)

Lemma built_axis (args : list Q) (N : Z) (path : bool) (built v : ArgVec.t) :
  (2 <= N)%Z -> ascending args N -> ArgVec.new args N = Ok built ->
  ArgVec.reachable (ArgVec.with_equalSpaced path built) v ->
  axis_ok v /\ ArgVec._vec v = args /\ ArgVec._n v = N /\
  ArgVec._equalSpaced v = path.
Proof.
  intros HN Hasc Hnew Hreach.
  destruct (ArgVec_new_ok args N HN Hasc) as (b & E & Hok & Hvec & Hn & _).
  rewrite Hnew in E. inversion E; subst b. clear E.
  apply (axis_ok_with_equalSpaced path) in Hok.
  destruct (reachable_ok _ _ Hok Hreach) as [Hv (Sv & Sn & Se & _)].
  simpl in Sv, Sn, Se. split; [exact Hv |]. split; [congruence |].
  split; congruence.
Qed.

(** ** X1: a repeated query *)

(** X1.  Asking [upperIndex] the same value twice gives the same index,
    and the second call leaves the cursor where the first one put it: on
    either branch, from any cursor state that earlier queries leave. *)
Theorem upperIndex_repeat
        (args : list Q) (N : Z) (path : bool) (built v v' : ArgVec.t)
        (a : Q) (i : Z) :
  (2 <= N)%Z -> ascending args N -> ArgVec.new args N = Ok built ->
  ArgVec.reachable (ArgVec.with_equalSpaced path built) v ->
  ArgVec.upperIndex v a = Ok (i, v') ->
  ArgVec.upperIndex v' a = Ok (i, v').
Proof.
  intros HN Hasc Hnew Hreach Hq.
  destruct (built_axis args N path built v HN Hasc Hnew Hreach) as (Hok & _).
  destruct (upperIndex_cases v a i v' Hok Hq)
    as [[-> _] | (Es & [Hi [B1 B2]] & Hc & Hok' & (Sv & Sn & Se & _))];
    [exact Hq |].
  pose proof Hok' as ((Hlen & Hascb) & Hn' & _).
  rewrite Sv in Hlen.
  assert (Hf : get (ArgVec._vec v) 0 <= a).
  { eapply Qle_trans; [| exact B1]. apply ascendingb_le; auto; try lia.
    destruct Hok as ((_ & H) & _); exact H. }
  assert (Hb : a <= get (ArgVec._vec v) (ArgVec._n v - 1)).
  { eapply Qle_trans; [exact B2 |]. rewrite <- Sn, <- Hlen.
    apply ascendingb_le; auto; try lia.
    destruct Hok as ((_ & H) & _); exact H. }
  unfold ArgVec.upperIndex, ArgVec.front, ArgVec.back.
  rewrite Sv, Sn, Se, Es. rewrite rd_ok by lia. cbn [bind].
  destruct (Qltb a _) eqn:E1; [apply Qltb_true in E1; lra |].
  rewrite rd_ok by lia. cbn [bind].
  destruct (Qltb _ a) eqn:E2; [apply Qltb_true in E2; lra |].
  unfold ArgVec.upperIndex_search. rewrite Hc, Sv, Sn.
  destruct (Z.geb_spec i 1) as [_ |]; [| lia].
  destruct (Z.ltb_spec i (ArgVec._n v)) as [_ |]; [| lia]. cbn [bind xassert].
  rewrite rd_ok by lia. cbn [bind].
  destruct (Qltb a (get (ArgVec._vec v) (i - 1))) eqn:E3;
    [apply Qltb_true in E3; lra |].
  rewrite rd_ok by lia. cbn [bind].
  destruct (Qltb (get (ArgVec._vec v) i) a) eqn:E4;
    [apply Qltb_true in E4; lra |].
  reflexivity.
Qed.

Lemma upperIndex_repeat_witness :
  ArgVec.upperIndex
    (ArgVec.mk [0; 1; 3; 7] 4 (1 # 1000000) (4 # 1000000) false (7 # 3) 3) 5
  = Ok (3%Z, ArgVec.mk [0; 1; 3; 7] 4 (1 # 1000000) (4 # 1000000) false (7 # 3) 3).
Proof.
  apply (upperIndex_repeat [0; 1; 3; 7] 4 false
           (ArgVec.mk [0; 1; 3; 7] 4 (1 # 1000000) (4 # 1000000) false (7 # 3) 1)
           (ArgVec.mk [0; 1; 3; 7] 4 (1 # 1000000) (4 # 1000000) false (7 # 3) 1)).
  - lia.
  - split; reflexivity.
  - reflexivity.
  - apply ArgVec.reach_init.
  - vm_compute. reflexivity.
Defined.

(** ** X2: the index grows with the query *)

(** X2.  If [a < b] then the index returned for [a] is at most the index
    returned for [b], whatever the two cursor states (reachable, on either
    branch) in which the two queries are made. *)
Theorem upperIndex_monotone
        (args : list Q) (N : Z) (path : bool) (built v1 v2 w1 w2 : ArgVec.t)
        (a b : Q) (i j : Z) :
  (2 <= N)%Z -> ascending args N -> ArgVec.new args N = Ok built ->
  ArgVec.reachable (ArgVec.with_equalSpaced path built) v1 ->
  ArgVec.reachable (ArgVec.with_equalSpaced path built) v2 ->
  a < b ->
  ArgVec.upperIndex v1 a = Ok (i, w1) ->
  ArgVec.upperIndex v2 b = Ok (j, w2) ->
  (i <= j)%Z.
Proof.
  intros HN Hasc Hnew R1 R2 Hab Q1 Q2.
  destruct (built_axis args N path built v1 HN Hasc Hnew R1) as (K1 & V1 & N1 & _).
  destruct (built_axis args N path built v2 HN Hasc Hnew R2) as (K2 & V2 & N2 & _).
  destruct (upperIndex_spec v1 a K1) as (i' & u1 & E1 & _ & _ & Hi & Lo1 & Hi1 & In1).
  destruct (upperIndex_spec v2 b K2) as (j' & u2 & E2 & _ & _ & Hj & Lo2 & Hi2 & In2).
  rewrite Q1 in E1. rewrite Q2 in E2. inversion E1; inversion E2; subst i' u1 j' u2.
  rewrite V1, N1 in *. rewrite V2, N2 in *.
  destruct Hasc as [Hlen Hascb].
  destruct (Qlt_le_dec a (get args 0)) as [L | G]; [rewrite (Lo1 L); lia |].
  destruct (Qlt_le_dec (get args (N - 1)) b) as [L' | G']; [rewrite (Hi2 L'); lia |].
  destruct (In1 ltac:(split; [exact G | lra])) as [_ [A1 A2]].
  destruct (In2 ltac:(split; [lra | exact G'])) as [_ [B1 B2]].
  destruct (Z.le_gt_cases i j) as [|Hlt]; [assumption |].
  assert (get args j <= get args (i - 1)) by (apply ascendingb_le; auto; lia).
  lra.
Qed.

Lemma upperIndex_monotone_witness : (2 <= 3)%Z.
Proof.
  apply (upperIndex_monotone [0; 1; 3; 7] 4 false
           (ArgVec.mk [0; 1; 3; 7] 4 (1 # 1000000) (4 # 1000000) false (7 # 3) 1)
           (ArgVec.mk [0; 1; 3; 7] 4 (1 # 1000000) (4 # 1000000) false (7 # 3) 1)
           (ArgVec.mk [0; 1; 3; 7] 4 (1 # 1000000) (4 # 1000000) false (7 # 3) 1)
           (ArgVec.mk [0; 1; 3; 7] 4 (1 # 1000000) (4 # 1000000) false (7 # 3) 2)
           (ArgVec.mk [0; 1; 3; 7] 4 (1 # 1000000) (4 # 1000000) false (7 # 3) 3)
           2 5).
  - lia.
  - split; reflexivity.
  - reflexivity.
  - apply ArgVec.reach_init.
  - apply ArgVec.reach_init.
  - reflexivity.
  - vm_compute. reflexivity.
  - vm_compute. reflexivity.
Defined.

(** ** X3: the spacing test of the constructor *)

Lemma spacing_loop_spec (vec : list Q) (da : Q) (count : nat) (i : Z)
      (eq b : bool) :
  (1 <= i)%Z -> (i + Z.of_nat count <= Z.of_nat (List.length vec))%Z ->
  for_loop count i (ArgVec.spacing_step vec da) eq = Ok b ->
  (b = true <->
   eq = true /\
   forall k, (i <= k < i + Z.of_nat count)%Z ->
             Qabs ((get vec k - get vec 0) / da - inject_Z k) <= ArgVec.tolerance).
Proof.
  revert i eq; induction count as [| c IH]; intros i eq Hi Hb.
  - simpl. intros E; inversion E; subst b. split.
    + intros ->. split; [reflexivity |]. intros; lia.
    + tauto.
  - simpl for_loop. unfold ArgVec.spacing_step at 1.
    rewrite !rd_ok by lia. cbn [bind].
    destruct (Qltb ArgVec.tolerance
                   (Qabs ((get vec i - get vec 0) / da - inject_Z i))) eqn:E;
      cbn [bind]; intros R; apply IH in R; try lia; rewrite R; clear R.
    + apply Qltb_true in E. split; [intros [F _]; discriminate |].
      intros [_ H]. specialize (H i ltac:(lia)).
      exfalso. apply (Qlt_not_le _ _ E H).
    + apply Qltb_false in E. split.
      * intros [-> H]. split; [reflexivity |].
        intros k Hk. destruct (Z.eq_dec k i) as [-> | Hne]; [exact E |].
        apply H. lia.
      * intros [-> H]. split; [reflexivity |]. intros k Hk. apply H. lia.
Qed.

Lemma ArgVec_new_fields (vec : list Q) (n : Z) (v : ArgVec.t) :
  ArgVec.new vec n = Ok v ->
  exists eq,
    for_loop (Z.to_nat (n - 1)) 1%Z
             (ArgVec.spacing_step vec
                ((get vec (n - 1) - get vec 0) / inject_Z (n - 1))) true = Ok eq /\
    ArgVec._equalSpaced v = eq /\ ArgVec._vec v = vec /\ ArgVec._n v = n /\
    ArgVec._da v = (get vec (n - 1) - get vec 0) / inject_Z (n - 1) /\
    ArgVec._lastIndex v = 1%Z.
Proof.
  unfold ArgVec.new.
  destruct (rd vec (n - 1)) as [bk |] eqn:R1; cbn [bind]; [| discriminate].
  destruct (rd vec 0) as [fr |] eqn:R2; cbn [bind]; [| discriminate].
  apply rd_inv in R1 as [_ ->]. apply rd_inv in R2 as [_ ->].
  destruct (for_loop _ _ _ _) as [eq |] eqn:R3; cbn [bind]; [| discriminate].
  destruct (rd vec 1) as [v1 |]; cbn [bind]; [| discriminate].
  destruct (rd vec (n - 2)) as [vn2 |]; cbn [bind]; [| discriminate].
  intros E; inversion E; subst v. simpl. exists eq.
  repeat split; reflexivity.
Qed.

(** X3.  The constructor marks an axis as equally spaced exactly when every
    sample [args[i]], [1 <= i <= N-1], lies within the tolerance 0.01 of its
    place [i] on the grid of step [(args[N-1]-args[0])/(N-1)]; an axis of two
    samples is always marked. *)
Theorem equalSpaced_iff (args : list Q) (N : Z) (built : ArgVec.t) :
  (2 <= N)%Z -> ascending args N -> ArgVec.new args N = Ok built ->
  (ArgVec._equalSpaced built = true <->
   forall i, (1 <= i <= N - 1)%Z -> within_tolerance args N i) /\
  (N = 2%Z -> ArgVec._equalSpaced built = true).
Proof.
  intros HN [Hlen Hasc] Hnew.
  destruct (ArgVec_new_fields args N built Hnew) as (eq & L & Es & _).
  apply spacing_loop_spec in L; try lia. rewrite Es.
  assert (Hiff : eq = true <->
                 forall i, (1 <= i <= N - 1)%Z -> within_tolerance args N i).
  { rewrite L. unfold within_tolerance. split.
    - intros [_ H] i Hi. apply H. lia.
    - intros H. split; [reflexivity |]. intros k Hk. apply H. lia. }
  split; [exact Hiff |].
  intros ->. apply Hiff. intros i Hi. assert (i = 1)%Z by lia. subst i.
  unfold within_tolerance. change (2 - 1)%Z with 1%Z.
  assert (H01 : get args 0 < get args 1) by (apply ascendingb_lt; auto; lia).
  assert (E : (get args 1 - get args 0) / ((get args 1 - get args 0) / inject_Z 1)
              - inject_Z 1 == 0).
  { change (inject_Z 1) with 1. field. lra. }
  rewrite E. discriminate.
Qed.

Lemma equalSpaced_iff_witness :
  (ArgVec._equalSpaced
     (ArgVec.mk [0; 1; 3] 3 (1 # 1000000) (2 # 1000000) false (3 # 2) 1) = true <->
   forall i, (1 <= i <= 3 - 1)%Z -> within_tolerance [0; 1; 3] 3 i) /\
  (3%Z = 2%Z ->
   ArgVec._equalSpaced
     (ArgVec.mk [0; 1; 3] 3 (1 # 1000000) (2 # 1000000) false (3 # 2) 1) = true).
Proof.
  apply (equalSpaced_iff [0; 1; 3] 3).
  - lia.
  - split; reflexivity.
  - reflexivity.
Defined.

(** ** X4: exactly uniform axes *)

Lemma uniform_from_get (first step : Q) (l : list Q) (start : Z) :
  uniform_from first step start l = true ->
  forall k, (0 <= k < Z.of_nat (List.length l))%Z ->
            get l k == first + inject_Z (start + k) * step.
Proof.
  revert start; induction l as [| x t IH]; intros start H k Hk.
  - simpl in Hk. lia.
  - simpl in H. apply andb_true_iff in H as [Hx Ht].
    apply Qeq_bool_iff in Hx. unfold get.
    destruct (Z.to_nat k) as [| p] eqn:Ek.
    + assert (k = 0)%Z by lia. subst k. rewrite Z.add_0_r. exact Hx.
    + simpl nth. specialize (IH (start + 1)%Z Ht (Z.of_nat p)).
      unfold get in IH. rewrite Nat2Z.id in IH.
      replace (start + k)%Z with (start + 1 + Z.of_nat p)%Z by lia.
      apply IH. simpl in Hk. lia.
Qed.

Lemma uniform_from_ascendingb (first step : Q) (l : list Q) (start : Z) :
  0 < step -> uniform_from first step start l = true -> ascendingb l = true.
Proof.
  intros Hs. revert start; induction l as [| x t IH]; intros start H;
    [reflexivity |].
  simpl in H. apply andb_true_iff in H as [Hx Ht].
  destruct t as [| y t']; [reflexivity |].
  change (Qltb x y && ascendingb (y :: t') = true).
  apply andb_true_iff. split; [| exact (IH _ Ht)].
  simpl in Ht. apply andb_true_iff in Ht as [Hy _].
  apply Qeq_bool_iff in Hx. apply Qeq_bool_iff in Hy.
  apply Qltb_true. rewrite Hx, Hy. rewrite inject_Z_plus.
  change (inject_Z 1) with 1. lra.
Qed.

Lemma nudge_up_stays (fuel : nat) (vec : list Q) (a : Q) (i : Z) :
  (0 <= i < Z.of_nat (List.length vec))%Z -> a <= get vec i ->
  ArgVec.nudge_up (S fuel) vec a i = Ok i.
Proof.
  intros Hi Ha. simpl. rewrite rd_ok by lia. cbn [bind].
  destruct (Qltb (get vec i) a) eqn:E; [apply Qltb_true in E; lra | reflexivity].
Qed.

Lemma nudge_down_stays (fuel : nat) (vec : list Q) (a : Q) (i : Z) :
  (1 <= i <= Z.of_nat (List.length vec))%Z -> get vec (i - 1) <= a ->
  ArgVec.nudge_down (S fuel) vec a i = Ok i.
Proof.
  intros Hi Ha. simpl. rewrite rd_ok by lia. cbn [bind].
  destruct (Qltb a (get vec (i - 1))) eqn:E; [apply Qltb_true in E; lra | reflexivity].
Qed.

(** X4.  On an axis that is exactly the arithmetic progression
    [first, first + step, ...] with [step > 0], the constructor selects the
    equal-spaced branch, and for every query [a] inside the range
    [upperIndex] returns [max 1 (ceil ((a - first) / step))]: the index
    arithmetic is already right and the correction loops move nothing. *)
Theorem uniform_index
        (first step : Q) (args : list Q) (N : Z) (built : ArgVec.t) (a : Q) :
  (2 <= N)%Z -> Z.of_nat (List.length args) = N ->
  uniform first step args -> 0 < step ->
  ArgVec.new args N = Ok built ->
  first <= a <= first + inject_Z (N - 1) * step ->
  ArgVec._equalSpaced built = true /\
  ArgVec.upperIndex built a
  = Ok (Z.max 1 (Qceiling ((a - first) / step)), built).
Proof.
  intros HN Hlen Hu Hs Hnew [Ha Hb].
  pose proof (uniform_from_get first step args 0 Hu) as G.
  assert (Hasc : ascending args N).
  { split; [exact Hlen |]. exact (uniform_from_ascendingb first step args 0 Hs Hu). }
  destruct (ArgVec_new_fields args N built Hnew) as (eq & L & Es & Hvec & Hn & Hda & _).
  assert (G0 : get args 0 == first).
  { rewrite (G 0%Z) by lia. change (inject_Z (0 + 0)) with 0. ring. }
  assert (Gn : get args (N - 1) == first + inject_Z (N - 1) * step).
  { rewrite (G (N - 1)%Z) by lia. reflexivity. }
  assert (Hn1 : 0 < inject_Z (N - 1)).
  { change 0 with (inject_Z 0). rewrite <- Zlt_Qlt. lia. }
  assert (Hns : 0 < inject_Z (N - 1) * step).
  { apply Qmult_lt_0_compat; auto. }
  assert (Ed : ArgVec._da built == step).
  { rewrite Hda, Gn, G0. field. repeat split; lra. }
  assert (Heq : ArgVec._equalSpaced built = true).
  { rewrite Es. apply spacing_loop_spec in L; try lia. apply L.
    split; [reflexivity |]. intros k Hk.
    assert (E : (get args k - get args 0)
                / ((get args (N - 1) - get args 0) / inject_Z (N - 1))
                - inject_Z k == 0).
    { rewrite Gn, G0, (G k) by lia. rewrite Z.add_0_l. field. repeat split; lra. }
    rewrite E. discriminate. }
  split; [exact Heq |].
  set (x := (a - first) / step).
  assert (Hx0 : 0 <= x) by (apply Qle_shift_div_l; auto; lra).
  assert (Hx1 : x <= inject_Z (N - 1)) by (apply Qle_shift_div_r; auto; lra).
  assert (Hc0 : (0 <= Qceiling x)%Z) by (apply (Qceiling_resp_le 0) in Hx0; exact Hx0).
  assert (Hc1 : (Qceiling x <= N - 1)%Z).
  { apply Qceiling_resp_le in Hx1. now rewrite Qceiling_Z in Hx1. }
  assert (Eest : ArgVec.estimate built (get args 0) a = Z.max 1 (Qceiling x)).
  { unfold ArgVec.estimate.
    assert (Ec : Qceiling ((a - get args 0) / ArgVec._da built) = Qceiling x).
    { apply Qceiling_comp. unfold x. rewrite G0, Ed. reflexivity. }
    rewrite Ec, Hn.
    destruct (Z.geb_spec (Qceiling x) N); [lia |].
    destruct (Z.eqb_spec (Qceiling x) 0); lia. }
  set (e := Z.max 1 (Qceiling x)) in *.
  assert (Hup : a <= get args e).
  { rewrite (G e) by lia. rewrite Z.add_0_l.
    assert (x <= inject_Z e).
    { eapply Qle_trans; [apply Qle_ceiling |]. rewrite <- Zle_Qle. lia. }
    assert (H1 : x * step <= inject_Z e * step) by (apply Qmult_le_compat_r; lra).
    assert (H2 : x * step == a - first) by (unfold x; field; lra).
    lra. }
  assert (Hdown : get args (e - 1) <= a).
  { rewrite (G (e - 1)%Z) by lia. rewrite Z.add_0_l.
    destruct (Z.eq_dec e 1) as [-> | Hne].
    - change (inject_Z (1 - 1)) with 0. lra.
    - assert (He : e = Qceiling x) by lia.
      assert (H0 : inject_Z (e - 1) < x) by (rewrite He; apply Qceiling_lt).
      assert (H1 : inject_Z (e - 1) * step < x * step)
        by (apply Qmult_lt_compat_r; lra).
      assert (H2 : x * step == a - first) by (unfold x; field; lra).
      lra. }
  unfold ArgVec.upperIndex, ArgVec.front, ArgVec.back.
  rewrite Hvec, Hn, Heq. rewrite rd_ok by lia. cbn [bind].
  destruct (Qltb a (get args 0)) eqn:E1; [apply Qltb_true in E1; lra |].
  rewrite rd_ok by lia. cbn [bind].
  destruct (Qltb (get args (N - 1)) a) eqn:E2; [apply Qltb_true in E2; lra |].
  unfold ArgVec.upperIndex_equalSpaced, ArgVec.front, ArgVec.nudge.
  rewrite Hvec. rewrite rd_ok by lia. cbn [bind]. rewrite Eest.
  rewrite nudge_up_stays by (auto; lia). cbn [bind].
  rewrite nudge_down_stays by (auto; lia). reflexivity.
Qed.

Lemma uniform_index_witness :
  ArgVec._equalSpaced
    (ArgVec.mk [1; 3; 5; 7] 4 (2 # 1000000) (2 # 1000000) true (6 # 3) 1) = true /\
  ArgVec.upperIndex
    (ArgVec.mk [1; 3; 5; 7] 4 (2 # 1000000) (2 # 1000000) true (6 # 3) 1) 4
  = Ok (Z.max 1 (Qceiling ((4 - 1) / 2)),
        ArgVec.mk [1; 3; 5; 7] 4 (2 # 1000000) (2 # 1000000) true (6 # 3) 1).
Proof.
  apply (uniform_index 1 2 [1; 3; 5; 7] 4).
  - lia.
  - reflexivity.
  - reflexivity.
  - reflexivity.
  - reflexivity.
  - split; discriminate.
Defined.

(** * Further properties of the one-dimensional table *)

(** ** X5: [lookup] outside the sampled range *)

(** X5.  [Table::lookup] never refuses a query outside the range; it uses
    the first cell below [args[0]] and the last cell above [args[N-1]].
    Below the range the floor and nearest rules return [vals[0]], the ceil
    rule returns [vals[1]], and the linear rule continues the first segment;
    above the range the floor rule returns [vals[N-2]], the ceil and nearest
    rules return [vals[N-1]], and the linear rule continues the last
    segment. *)
Theorem lookup_outside_range
        (args vals : list Q) (N : Z) (rule : TableImpl.interpolant)
        (built : Table.t) (c : Z) (a : Q) :
  (2 <= N)%Z -> ascending args N -> Z.of_nat (List.length vals) = N ->
  rule <> TableImpl.spline ->
  Table.new args vals N rule = Ok built -> (1 <= c <= N - 1)%Z ->
  a < get args 0 \/ get args (N - 1) < a ->
  exists v tb',
    Table.lookup (Table.set_cursor built c) a = Ok (v, tb') /\
    (a < get args 0 ->
     v == match rule with
          | TableImpl.floor | TableImpl.nearest => get vals 0
          | TableImpl.ceil => get vals 1
          | _ => get vals 0
                 + (a - get args 0)
                   * ((get vals 1 - get vals 0) / (get args 1 - get args 0))
          end) /\
    (get args (N - 1) < a ->
     v == match rule with
          | TableImpl.floor => get vals (N - 2)
          | TableImpl.ceil | TableImpl.nearest => get vals (N - 1)
          | _ => get vals (N - 1)
                 + (a - get args (N - 1))
                   * ((get vals (N - 1) - get vals (N - 2))
                      / (get args (N - 1) - get args (N - 2)))
          end).
Proof.
  intros HN Hasc Hv Hrule Hnew Hc Hout.
  destruct (built_table args vals N rule built c HN Hasc Hv Hnew Hc)
    as (Hok & Hvec & Hvals & Hn & Hty).
  pose proof Hasc as [Hlen Hascb].
  set (tb := Table.set_cursor built c) in *.
  destruct (lookup_spec tb a Hok) as (i & val & tb' & R & _ & _ & Ei & Hi & Lo & Hi' & _).
  rewrite Hvec, Hn in *.
  assert (H01 : get args 0 < get args 1) by (apply ascendingb_lt; auto; lia).
  assert (Hlast : get args (N - 2) < get args (N - 1))
    by (apply ascendingb_lt; auto; lia).
  assert (Hfb : get args 0 < get args (N - 1)) by (apply ascendingb_lt; auto; lia).
  exists val, tb'. split; [exact R |].
  unfold TableImpl.interpolate in Ei. rewrite Hty in Ei.
  split.
  - intros Hlow. rewrite (Lo Hlow) in Ei. change (1 - 1)%Z with 0%Z in Ei.
    destruct rule; try congruence;
      unfold TableImpl.linearInterpolate, TableImpl.floorInterpolate,
        TableImpl.ceilInterpolate, TableImpl.nearestInterpolate, ArgVec.at_ in Ei;
      fold tb in Ei; rewrite Hvec, Hvals in Ei.
    + rewrite !rd_ok in Ei by lia. cbn [bind] in Ei. inversion Ei. field. lra.
    + rewrite rd_ok in Ei by lia. cbn [bind] in Ei.
      destruct (Qeq_bool a (get args 1)) eqn:E;
        [apply Qeq_bool_iff in E; lra |].
      change (1 - 1)%Z with 0%Z in Ei.
      rewrite rd_ok in Ei by lia. inversion Ei. reflexivity.
    + change (1 - 1)%Z with 0%Z in Ei. rewrite rd_ok in Ei by lia. cbn [bind] in Ei.
      destruct (Qeq_bool a (get args 0)) eqn:E;
        [apply Qeq_bool_iff in E; lra |].
      rewrite rd_ok in Ei by lia. inversion Ei. reflexivity.
    + change (1 - 1)%Z with 0%Z in Ei. rewrite !rd_ok in Ei by lia. cbn [bind] in Ei.
      destruct (Qltb (a - get args 0) (get args 1 - a)) eqn:E;
        [| apply Qltb_false in E; lra].
      change (1 - 1)%Z with 0%Z in Ei.
      rewrite rd_ok in Ei by lia. inversion Ei. reflexivity.
  - intros Hhigh. rewrite (Hi' Hhigh) in Ei.
    replace (N - 1 - 1)%Z with (N - 2)%Z in Ei by lia.
    destruct rule; try congruence;
      unfold TableImpl.linearInterpolate, TableImpl.floorInterpolate,
        TableImpl.ceilInterpolate, TableImpl.nearestInterpolate, ArgVec.at_ in Ei;
      fold tb in Ei; rewrite Hvec, Hvals in Ei;
      replace (N - 1 - 1)%Z with (N - 2)%Z in Ei by lia.
    + rewrite !rd_ok in Ei by lia. cbn [bind] in Ei. inversion Ei. field. lra.
    + rewrite rd_ok in Ei by lia. cbn [bind] in Ei.
      destruct (Qeq_bool a (get args (N - 1))) eqn:E;
        [apply Qeq_bool_iff in E; lra |].
      replace (N - 1 - 1)%Z with (N - 2)%Z in Ei by lia.
      rewrite rd_ok in Ei by lia. inversion Ei. reflexivity.
    + rewrite rd_ok in Ei by lia. cbn [bind] in Ei.
      destruct (Qeq_bool a (get args (N - 2))) eqn:E;
        [apply Qeq_bool_iff in E; lra |].
      rewrite rd_ok in Ei by lia. inversion Ei. reflexivity.
    + rewrite !rd_ok in Ei by lia. cbn [bind] in Ei.
      destruct (Qltb (a - get args (N - 2)) (get args (N - 1) - a)) eqn:E;
        [apply Qltb_true in E; lra |].
      rewrite rd_ok in Ei by lia. inversion Ei. reflexivity.
Qed.

Lemma lookup_outside_range_witness :
  exists v tb',
    Table.lookup
      (Table.set_cursor
         (TableImpl.mk TableImpl.ceil
            (ArgVec.mk [0; 1; 3] 3 (1 # 1000000) (2 # 1000000) false (3 # 2) 1)
            [10; 20; 30] 3 []) 2) (-1) = Ok (v, tb') /\
    (-1 < get [0; 1; 3] 0 -> v == get [10; 20; 30] 1) /\
    (get [0; 1; 3] (3 - 1) < -1 -> v == get [10; 20; 30] (3 - 1)).
Proof.
  apply (lookup_outside_range [0; 1; 3] [10; 20; 30] 3 TableImpl.ceil).
  - lia.
  - split; reflexivity.
  - reflexivity.
  - discriminate.
  - reflexivity.
  - lia.
  - left. reflexivity.
Defined.

(** ** What [lookup] does inside the range *)

(** A lookup inside the range interpolates in a bracket of the query. *)
Lemma lookup_in_range (args vals : list Q) (N : Z) (rule : TableImpl.interpolant)
      (built : Table.t) (c : Z) (a : Q) :
  (2 <= N)%Z -> ascending args N -> Z.of_nat (List.length vals) = N ->
  Table.new args vals N rule = Ok built -> (1 <= c <= N - 1)%Z ->
  get args 0 <= a <= get args (N - 1) ->
  exists i v tb',
    Table.lookup (Table.set_cursor built c) a = Ok (v, tb') /\
    TableImpl.interpolate (Table.set_cursor built c) a i = Ok v /\
    bracket args a i /\ get args (i - 1) < get args i /\
    ArgVec._vec (TableImpl._args (Table.set_cursor built c)) = args /\
    TableImpl._vals (Table.set_cursor built c) = vals /\
    TableImpl._iType (Table.set_cursor built c) = rule.
Proof.
  intros HN Hasc Hv Hnew Hc Hr.
  destruct (built_table args vals N rule built c HN Hasc Hv Hnew Hc)
    as (Hok & Hvec & Hvals & Hn & Hty).
  destruct (lookup_spec _ a Hok) as (i & val & tb' & R & _ & _ & Ei & Hi & _ & _ & Hb).
  rewrite Hvec, Hn in Hb. specialize (Hb Hr).
  destruct Hasc as [Hlen Hascb].
  exists i, val, tb'. repeat split; auto; try apply Hb.
  apply ascendingb_lt; auto; destruct Hb; lia.
Qed.

(** ** X6: linear interpolation stays inside the data *)

(** X6.  For a linear table and a query inside the range, the value lies
    between the two values of the bracket; so any bounds [lo <= vals[k] <=
    hi] on the data are bounds on the result. *)
Theorem linear_within_data
        (args vals : list Q) (N : Z) (built : Table.t) (c : Z) (a lo hi : Q) :
  (2 <= N)%Z -> ascending args N -> Z.of_nat (List.length vals) = N ->
  Table.new args vals N TableImpl.linear = Ok built -> (1 <= c <= N - 1)%Z ->
  get args 0 <= a <= get args (N - 1) ->
  (forall k, (0 <= k < N)%Z -> lo <= get vals k <= hi) ->
  exists v tb',
    Table.lookup (Table.set_cursor built c) a = Ok (v, tb') /\ lo <= v <= hi.
Proof.
  intros HN Hasc Hv Hnew Hc Hr Hbd.
  destruct (lookup_in_range args vals N TableImpl.linear built c a
              HN Hasc Hv Hnew Hc Hr)
    as (i & v & tb' & R & Ei & [Hi [B1 B2]] & Hlt & Hvec & Hvals & Hty).
  destruct Hasc as [Hlen Hascb].
  exists v, tb'. split; [exact R |].
  unfold TableImpl.interpolate in Ei. rewrite Hty in Ei.
  unfold TableImpl.linearInterpolate, ArgVec.at_ in Ei.
  rewrite Hvec, Hvals in Ei. rewrite !rd_ok in Ei by lia. cbn [bind] in Ei.
  inversion Ei; subst v. clear Ei.
  set (ax := (get args i - a) / (get args i - get args (i - 1))).
  assert (A0 : 0 <= ax) by (apply Qle_shift_div_l; lra).
  assert (A1 : ax <= 1) by (apply Qle_shift_div_r; lra).
  destruct (Hbd i ltac:(lia)) as [Li Ui].
  destruct (Hbd (i - 1)%Z ltac:(lia)) as [Lp Up].
  assert (P1 : 0 <= (get vals i - lo) * (1 - ax)) by (apply Qmult_le_0_compat; lra).
  assert (P2 : 0 <= (get vals (i - 1) - lo) * ax) by (apply Qmult_le_0_compat; lra).
  assert (P3 : 0 <= (hi - get vals i) * (1 - ax)) by (apply Qmult_le_0_compat; lra).
  assert (P4 : 0 <= (hi - get vals (i - 1)) * ax) by (apply Qmult_le_0_compat; lra).
  split; lra.
Qed.

Lemma linear_within_data_witness :
  exists v tb',
    Table.lookup
      (Table.set_cursor
         (TableImpl.mk TableImpl.linear
            (ArgVec.mk [0; 1; 3] 3 (1 # 1000000) (2 # 1000000) false (3 # 2) 1)
            [10; 20; 30] 3 []) 2) 2 = Ok (v, tb') /\ 10 <= v <= 30.
Proof.
  apply (linear_within_data [0; 1; 3] [10; 20; 30] 3).
  - lia.
  - split; reflexivity.
  - reflexivity.
  - reflexivity.
  - lia.
  - split; discriminate.
  - intros k Hk. assert (E : k = 0%Z \/ k = 1%Z \/ k = 2%Z) by lia.
    destruct E as [-> | [-> | ->]]; split; discriminate.
Defined.

(** ** X7: the floor and ceil rules *)

(** X7.  For a query inside the range, the floor rule returns the value of
    the last sample that is not above the query, and the ceil rule the value
    of the first sample that is not below it. *)
Theorem floor_ceil_in_range
        (args vals : list Q) (N : Z) (rule : TableImpl.interpolant)
        (built : Table.t) (c : Z) (a : Q) :
  (2 <= N)%Z -> ascending args N -> Z.of_nat (List.length vals) = N ->
  Table.new args vals N rule = Ok built -> (1 <= c <= N - 1)%Z ->
  get args 0 <= a <= get args (N - 1) ->
  exists v tb' k,
    Table.lookup (Table.set_cursor built c) a = Ok (v, tb') /\
    (0 <= k < N)%Z /\
    (rule = TableImpl.floor ->
     v = get vals k /\ get args k <= a /\
     ((k < N - 1)%Z -> a < get args (k + 1))) /\
    (rule = TableImpl.ceil ->
     v = get vals k /\ a <= get args k /\
     ((0 < k)%Z -> get args (k - 1) < a)).
Proof.
  intros HN Hasc Hv Hnew Hc Hr.
  destruct (lookup_in_range args vals N rule built c a HN Hasc Hv Hnew Hc Hr)
    as (i & v & tb' & R & Ei & [Hi [B1 B2]] & Hlt & Hvec & Hvals & Hty).
  destruct Hasc as [Hlen Hascb].
  unfold TableImpl.interpolate in Ei. rewrite Hty in Ei.
  destruct rule;
    try (exists v, tb', 0%Z; split; [exact R |]; split; [lia |];
         split; discriminate).
  - (* floor *)
    unfold TableImpl.floorInterpolate, ArgVec.at_ in Ei. rewrite Hvec, Hvals in Ei.
    rewrite rd_ok in Ei by lia. cbn [bind] in Ei.
    destruct (Qeq_bool a (get args i)) eqn:E.
    + apply Qeq_bool_iff in E. replace (i + 1 - 1)%Z with i in Ei by lia.
      rewrite rd_ok in Ei by lia. inversion Ei; subst v.
      exists (get vals i), tb', i. split; [exact R |]. split; [lia |].
      split; [| discriminate]. intros _. split; [reflexivity |].
      split; [lra |]. intros Hk.
      assert (get args i < get args (i + 1)) by (apply ascendingb_lt; auto; lia).
      lra.
    + apply Qeq_bool_false in E. rewrite rd_ok in Ei by lia. inversion Ei; subst v.
      exists (get vals (i - 1)), tb', (i - 1)%Z. split; [exact R |]. split; [lia |].
      split; [| discriminate]. intros _. split; [reflexivity |].
      split; [exact B1 |]. intros _. replace (i - 1 + 1)%Z with i by lia.
      apply Qle_lteq in B2. destruct B2; [assumption | contradiction].
  - (* ceil *)
    unfold TableImpl.ceilInterpolate, ArgVec.at_ in Ei. rewrite Hvec, Hvals in Ei.
    rewrite rd_ok in Ei by lia. cbn [bind] in Ei.
    destruct (Qeq_bool a (get args (i - 1))) eqn:E.
    + apply Qeq_bool_iff in E. rewrite rd_ok in Ei by lia. inversion Ei; subst v.
      exists (get vals (i - 1)), tb', (i - 1)%Z. split; [exact R |]. split; [lia |].
      split; [discriminate |]. intros _. split; [reflexivity |].
      split; [lra |]. intros Hk.
      assert (get args (i - 1 - 1) < get args (i - 1))
        by (apply ascendingb_lt; auto; lia).
      lra.
    + apply Qeq_bool_false in E. rewrite rd_ok in Ei by lia. inversion Ei; subst v.
      exists (get vals i), tb', i. split; [exact R |]. split; [lia |].
      split; [discriminate |]. intros _. split; [reflexivity |].
      split; [exact B2 |]. intros _.
      apply Qle_lteq in B1. destruct B1 as [|B1]; [assumption |].
      exfalso. apply E. symmetry. exact B1.
Qed.

Lemma floor_ceil_in_range_witness :
  exists v tb' k,
    Table.lookup
      (Table.set_cursor
         (TableImpl.mk TableImpl.floor
            (ArgVec.mk [0; 1; 3] 3 (1 # 1000000) (2 # 1000000) false (3 # 2) 1)
            [10; 20; 30] 3 []) 1) 2 = Ok (v, tb') /\
    (0 <= k < 3)%Z /\
    (TableImpl.floor = TableImpl.floor ->
     v = get [10; 20; 30] k /\ get [0; 1; 3] k <= 2 /\
     ((k < 3 - 1)%Z -> 2 < get [0; 1; 3] (k + 1))) /\
    (TableImpl.floor = TableImpl.ceil ->
     v = get [10; 20; 30] k /\ 2 <= get [0; 1; 3] k /\
     ((0 < k)%Z -> get [0; 1; 3] (k - 1) < 2)).
Proof.
  apply (floor_ceil_in_range [0; 1; 3] [10; 20; 30] 3 TableImpl.floor).
  - lia.
  - split; reflexivity.
  - reflexivity.
  - reflexivity.
  - lia.
  - split; discriminate.
Defined.

(** ** X8: the nearest rule *)

(** X8.  Over exact arithmetic: for a query inside the range, the nearest
    rule returns the value of a sample whose argument is at least as close
    to the query as every other sample's.  (The source compares the two
    rounded distances [a - args[i-1]] and [args[i] - a]; where rounding
    makes them equal it returns the upper sample.) *)
Theorem nearest_in_range
        (args vals : list Q) (N : Z) (built : Table.t) (c : Z) (a : Q) :
  (2 <= N)%Z -> ascending args N -> Z.of_nat (List.length vals) = N ->
  Table.new args vals N TableImpl.nearest = Ok built -> (1 <= c <= N - 1)%Z ->
  get args 0 <= a <= get args (N - 1) ->
  exists v tb' k,
    Table.lookup (Table.set_cursor built c) a = Ok (v, tb') /\
    (0 <= k < N)%Z /\ v = get vals k /\
    forall j, (0 <= j < N)%Z -> Qabs (a - get args k) <= Qabs (a - get args j).
Proof.
  intros HN Hasc Hv Hnew Hc Hr.
  destruct (lookup_in_range args vals N TableImpl.nearest built c a
              HN Hasc Hv Hnew Hc Hr)
    as (i & v & tb' & R & Ei & [Hi [B1 B2]] & Hlt & Hvec & Hvals & Hty).
  destruct Hasc as [Hlen Hascb].
  unfold TableImpl.interpolate in Ei. rewrite Hty in Ei.
  unfold TableImpl.nearestInterpolate, ArgVec.at_ in Ei. rewrite Hvec, Hvals in Ei.
  rewrite !rd_ok in Ei by lia. cbn [bind] in Ei.
  assert (Hfar : forall j, (0 <= j < N)%Z ->
            (j <= i - 1)%Z /\ Qabs (a - get args j) == a - get args j /\
            get args j <= get args (i - 1) \/
            (i <= j)%Z /\ Qabs (a - get args j) == get args j - a /\
            get args i <= get args j).
  { intros j Hj. destruct (Z.le_gt_cases j (i - 1)) as [L | G].
    - left. assert (get args j <= get args (i - 1))
        by (apply ascendingb_le; auto; lia).
      split; [exact L |]. split; [| assumption]. apply Qabs_pos. lra.
    - right. assert (get args i <= get args j)
        by (apply ascendingb_le; auto; lia).
      split; [lia |]. split; [| assumption].
      rewrite Qabs_neg by lra. ring. }
  destruct (Qltb (a - get args (i - 1)) (get args i - a)) eqn:E.
  - apply Qltb_true in E. rewrite rd_ok in Ei by lia. inversion Ei; subst v.
    exists (get vals (i - 1)), tb', (i - 1)%Z.
    split; [exact R |]. split; [lia |]. split; [reflexivity |].
    intros j Hj. rewrite (Qabs_pos (a - get args (i - 1))) by lra.
    destruct (Hfar j Hj) as [(_ & -> & H) | (_ & -> & H)]; lra.
  - apply Qltb_false in E. rewrite rd_ok in Ei by lia. inversion Ei; subst v.
    exists (get vals i), tb', i.
    split; [exact R |]. split; [lia |]. split; [reflexivity |].
    intros j Hj.
    assert (Ei' : Qabs (a - get args i) == get args i - a).
    { rewrite Qabs_neg by lra. ring. }
    rewrite Ei'.
    destruct (Hfar j Hj) as [(_ & -> & H) | (_ & -> & H)]; lra.
Qed.

Lemma nearest_in_range_witness :
  exists v tb' k,
    Table.lookup
      (Table.set_cursor
         (TableImpl.mk TableImpl.nearest
            (ArgVec.mk [0; 1; 3] 3 (1 # 1000000) (2 # 1000000) false (3 # 2) 1)
            [10; 20; 30] 3 []) 1) 2 = Ok (v, tb') /\
    (0 <= k < 3)%Z /\ v = get [10; 20; 30] k /\
    forall j, (0 <= j < 3)%Z ->
              Qabs (2 - get [0; 1; 3] k) <= Qabs (2 - get [0; 1; 3] j).
Proof.
  apply (nearest_in_range [0; 1; 3] [10; 20; 30] 3).
  - lia.
  - split; reflexivity.
  - reflexivity.
  - reflexivity.
  - lia.
  - split; discriminate.
Defined.

(** ** X9: the spline passes through the samples *)

(** X9.  A spline table, in any cursor state, returns [vals[k]] at every
    sample point [args[k]], through [Table::lookup] and through
    [Table::operator()]. *)
Theorem spline_through_samples
        (args vals : list Q) (N : Z) (built : Table.t) (c k : Z) :
  (2 <= N)%Z -> ascending args N -> Z.of_nat (List.length vals) = N ->
  Table.new args vals N TableImpl.spline = Ok built -> (1 <= c <= N - 1)%Z ->
  (0 <= k < N)%Z ->
  exists v tb',
    Table.lookup (Table.set_cursor built c) (get args k) = Ok (v, tb') /\
    Table.call (Table.set_cursor built c) (get args k) = Ok (v, tb') /\
    v == get vals k.
Proof.
  intros HN Hasc Hv Hnew Hc Hk.
  destruct (built_table args vals N TableImpl.spline built c HN Hasc Hv Hnew Hc)
    as (Hok & Hvec & Hvals & Hn & Hty).
  destruct (lookup_at_sample (Table.set_cursor built c) k Hok)
    as (v & tb' & R & Qv); [lia |].
  pose proof (call_in_range (Table.set_cursor built c) (get args k) Hok) as Hin.
  rewrite Hvec, Hn in *. rewrite Hvals in Qv.
  pose proof Hasc as [Hlen Hascb].
  exists v, tb'. split; [exact R |]. split; [| exact Qv].
  rewrite Hin; [exact R |].
  split; apply ascendingb_le; auto; lia.
Qed.

Lemma spline_through_samples_witness :
  exists v tb',
    Table.lookup
      (Table.set_cursor
         (TableImpl.mk TableImpl.spline
            (ArgVec.mk [0; 1; 2; 4] 4 (1 # 1000000) (2 # 1000000) false (4 # 3) 1)
            [0; 1; 4; 16] 4 [0; 6912 # 2944; 480 # 184; 0]) 3)
      (get [0; 1; 2; 4] 2) = Ok (v, tb') /\
    Table.call
      (Table.set_cursor
         (TableImpl.mk TableImpl.spline
            (ArgVec.mk [0; 1; 2; 4] 4 (1 # 1000000) (2 # 1000000) false (4 # 3) 1)
            [0; 1; 4; 16] 4 [0; 6912 # 2944; 480 # 184; 0]) 3)
      (get [0; 1; 2; 4] 2) = Ok (v, tb') /\
    v == get [0; 1; 4; 16] 2.
Proof.
  apply (spline_through_samples [0; 1; 2; 4] [0; 1; 4; 16] 4).
  - lia.
  - split; reflexivity.
  - reflexivity.
  - vm_compute. reflexivity.
  - lia.
  - lia.
Defined.

(** ** X10: the natural spline system, for every [N >= 3] *)

Lemma y2_three_spec (args vals : list Q) :
  ascending args 3 ->
  let y2 := upd (TableImpl.y2_init 3) 1 (TableImpl.y2_three args vals) in
  List.length y2 = 3%nat /\ get y2 0 = 0 /\ get y2 2 = 0 /\
  forall z, spline_system args vals 3 z <-> z 1%Z == get y2 1.
Proof.
  intros [Hlen Hascb] y2. unfold y2.
  rewrite length_upd, length_y2_init.
  rewrite !get_upd_other by lia. rewrite !get_y2_init.
  rewrite get_upd_same by (rewrite length_y2_init; lia).
  split; [reflexivity |]. split; [reflexivity |]. split; [reflexivity |].
  assert (H02 : get args 0 < get args 2) by (apply ascendingb_lt; auto; lia).
  assert (Hrow : forall z : Z -> Q,
            spline_row args 3 z 1 == 2 * (get args 2 - get args 0) * z 1%Z).
  { intros z. unfold spline_row. change (1 <? 1)%Z with false.
    change (1 <? 3 - 2)%Z with false. cbv iota.
    change (1 + 1)%Z with 2%Z. change (1 - 1)%Z with 0%Z. ring. }
  assert (Hrhs : TableImpl.rhs_at args vals 1
                 == 2 * (get args 2 - get args 0) * TableImpl.y2_three args vals).
  { unfold TableImpl.rhs_at, TableImpl.y2_three.
    change (1 + 1)%Z with 2%Z. change (1 - 1)%Z with 0%Z.
    set (e := (get vals 2 - get vals 1) / (get args 2 - get args 1)
              - (get vals 1 - get vals 0) / (get args 1 - get args 0)).
    field. lra. }
  intros z. unfold spline_system. split.
  - intros S. specialize (S 1%Z ltac:(lia)). rewrite Hrow, Hrhs in S.
    apply (Qmult_inj_l _ _ (2 * (get args 2 - get args 0))); [lra | exact S].
  - intros E i Hi. assert (i = 1)%Z by lia. subst i.
    rewrite Hrow, Hrhs, E. reflexivity.
Qed.

(** X10.  For every [N >= 3] strictly ascending arguments [setupSpline]
    succeeds and returns [N] coefficients that vanish at both ends (the
    natural boundary condition) and are the one and only solution of the
    tridiagonal spline system, with the closed form for [N = 3] and the
    Thomas algorithm above. *)
Theorem setupSpline_natural (args vals : list Q) (N : Z) :
  (3 <= N)%Z -> ascending args N ->
  exists y2,
    TableImpl.setupSpline args vals N = Ok y2 /\
    List.length y2 = Z.to_nat N /\
    get y2 0 = 0 /\ get y2 (N - 1) = 0 /\
    forall z, spline_system args vals N z <->
              forall k, (1 <= k <= N - 2)%Z -> z k == get y2 k.
Proof.
  intros HN Hasc. unfold TableImpl.setupSpline.
  destruct (Z.eqb_spec N 3) as [-> | Hne].
  - destruct (y2_three_spec args vals Hasc) as (L & Y0 & Y2 & U).
    eexists. split; [reflexivity |]. split; [exact L |]. split; [exact Y0 |].
    split; [exact Y2 |]. intros z. rewrite (U z). split.
    + intros E k Hk. assert (k = 1)%Z by lia. subst k. exact E.
    + intros H. apply H. lia.
  - destruct (Z.ltb_spec (N - 3) 0) as [| _]; [lia |].
    destruct (thomas_solve_spec args vals N ltac:(lia) Hasc) as (L & Y0 & Yn & U).
    eexists. split; [reflexivity |]. auto.
Qed.

Lemma setupSpline_natural_witness :
  exists y2,
    TableImpl.setupSpline [0; 1; 3] [0; 1; 9] 3 = Ok y2 /\
    List.length y2 = Z.to_nat 3 /\
    get y2 0 = 0 /\ get y2 (3 - 1) = 0 /\
    forall z, spline_system [0; 1; 3] [0; 1; 9] 3 z <->
              forall k, (1 <= k <= 3 - 2)%Z -> z k == get y2 k.
Proof.
  apply (setupSpline_natural [0; 1; 3] [0; 1; 9] 3).
  - lia.
  - split; reflexivity.
Defined.

(** ** X11: which tables can be built *)

(** X11.  Over [N >= 2] strictly ascending arguments the constructor
    succeeds for the linear, floor, ceil and nearest rules, and for the
    spline rule when [N >= 3]; it leaves the cursor at 1 and the size at
    [N].  A spline over two points is refused with a length error. *)
Theorem construction_outcome
        (args vals : list Q) (N : Z) (rule : TableImpl.interpolant) :
  (2 <= N)%Z -> ascending args N ->
  (rule <> TableImpl.spline \/ (3 <= N)%Z ->
   exists tb, Table.new args vals N rule = Ok tb /\
              Table.size tb = N /\
              ArgVec._lastIndex (TableImpl._args tb) = 1%Z) /\
  (rule = TableImpl.spline -> N = 2%Z ->
   Table.new args vals N rule = Err LengthError).
Proof.
  intros HN Hasc.
  destruct (ArgVec_new_ok args N HN Hasc) as (v & E & _ & _ & _ & Hc).
  unfold Table.new, TableImpl.new. rewrite E. cbn [bind]. split.
  - intros H. destruct rule;
      try (eexists; split; [reflexivity |]; split; [reflexivity | exact Hc]).
    destruct H as [H | H]; [congruence |].
    destruct (setupSpline_ok args vals N H) as (y2 & Ey). rewrite Ey. cbn [bind].
    eexists; split; [reflexivity |]; split; [reflexivity | exact Hc].
  - intros -> ->. reflexivity.
Qed.

Lemma construction_outcome_witness :
  (TableImpl.spline <> TableImpl.spline \/ (3 <= 2)%Z ->
   exists tb, Table.new [0; 1] [5; 6] 2 TableImpl.spline = Ok tb /\
              Table.size tb = 2%Z /\
              ArgVec._lastIndex (TableImpl._args tb) = 1%Z) /\
  (TableImpl.spline = TableImpl.spline -> 2%Z = 2%Z ->
   Table.new [0; 1] [5; 6] 2 TableImpl.spline = Err LengthError).
Proof.
  apply (construction_outcome [0; 1] [5; 6] 2 TableImpl.spline).
  - lia.
  - split; reflexivity.
Defined.

(** ** X12: batch lookup *)

Lemma lookup_from_built (built : Table.t) (tb : TableImpl.t) (c : Z) (a : Q) :
  table_ok built -> table_ok tb -> same_table built tb ->
  (1 <= c <= TableImpl._n built - 1)%Z ->
  exists v w t1 t2,
    TableImpl.lookup tb a = Ok (v, t1) /\
    Table.lookup (Table.set_cursor built c) a = Ok (w, t2) /\ v == w /\
    table_ok t1 /\ same_table built t1.
Proof.
  intros Kb Kt St Hc.
  destruct (table_ok_set_cursor built c Kb Hc) as [Kc Sc].
  destruct (lookup_cursor_indep tb (Table.set_cursor built c) a Kt Kc)
    as (v & w & t1 & t2 & R1 & R2 & Hq & K1 & _ & _ & S1).
  { eapply same_table_trans; [apply same_table_sym; exact St | exact Sc]. }
  exists v, w, t1, t2. split; [exact R1 |]. split; [exact R2 |].
  split; [exact Hq |]. split; [exact K1 |].
  exact (same_table_trans _ _ _ St S1).
Qed.

(** X12.  [interpMany] answers every query of the batch: it returns as many
    values as there are queries, and each value is the one a single lookup
    of that query returns on the table in any cursor state, so the order of
    the batch does not matter for the values. *)
Theorem interpMany_pointwise
        (args vals : list Q) (N : Z) (rule : TableImpl.interpolant)
        (built : Table.t) (c : Z) (qs : list Q) :
  (2 <= N)%Z -> ascending args N -> Z.of_nat (List.length vals) = N ->
  Table.new args vals N rule = Ok built -> (1 <= c <= N - 1)%Z ->
  exists vs tb',
    Table.interpMany (Table.set_cursor built c) qs = Ok (vs, tb') /\
    List.length vs = List.length qs /\
    Forall2 (fun q v =>
               forall c', (1 <= c' <= N - 1)%Z ->
               exists w t, Table.lookup (Table.set_cursor built c') q = Ok (w, t) /\
                           v == w) qs vs.
Proof.
  intros HN Hasc Hv Hnew Hc.
  destruct (TableImpl_new_inv args vals N rule built HN Hasc Hv Hnew)
    as (Kb & _ & _ & Hn & _).
  destruct (table_ok_set_cursor built c Kb) as [Kc Sc]; [lia |].
  revert Kc Sc. generalize (Table.set_cursor built c) as tb.
  induction qs as [| q rest IH]; intros tb Kt St.
  - exists [], tb. simpl. repeat split; constructor.
  - destruct (lookup_from_built built tb 1 q Kb Kt St ltac:(lia))
      as (v & _ & t1 & _ & R1 & _ & _ & K1 & S1).
    destruct (IH t1 K1 S1) as (vs & tb' & M & L & F).
    exists (v :: vs), tb'. simpl. rewrite R1. cbn [bind]. rewrite M. cbn [bind].
    split; [reflexivity |]. split; [simpl; congruence |].
    constructor; [| exact F].
    intros c' Hc'.
    destruct (lookup_from_built built tb c' q Kb Kt St ltac:(lia))
      as (v' & w & t1' & t2 & R1' & R2 & Hq & _).
    rewrite R1 in R1'. inversion R1'; subst v'.
    exists w, t2. split; [exact R2 | exact Hq].
Qed.

Lemma interpMany_pointwise_witness :
  exists vs tb',
    Table.interpMany
      (Table.set_cursor
         (TableImpl.mk TableImpl.linear
            (ArgVec.mk [0; 1; 3; 7] 4 (1 # 1000000) (4 # 1000000) false (7 # 3) 1)
            [5; 6; 2; 9] 4 []) 1) [6; 1; (1 # 2)] = Ok (vs, tb') /\
    List.length vs = List.length [6; 1; (1 # 2)] /\
    Forall2 (fun q v =>
               forall c', (1 <= c' <= 4 - 1)%Z ->
               exists w t,
                 Table.lookup
                   (Table.set_cursor
                      (TableImpl.mk TableImpl.linear
                         (ArgVec.mk [0; 1; 3; 7] 4 (1 # 1000000) (4 # 1000000)
                                    false (7 # 3) 1)
                         [5; 6; 2; 9] 4 []) c') q = Ok (w, t) /\
                 v == w) [6; 1; (1 # 2)] vs.
Proof.
  apply (interpMany_pointwise [0; 1; 3; 7] [5; 6; 2; 9] 4 TableImpl.linear).
  - lia.
  - split; reflexivity.
  - reflexivity.
  - reflexivity.
  - lia.
Defined.

(** * Further properties of the two-dimensional table *)

(** ** The value computed in the selected cell *)

Lemma interp_cell_value (k : Table2D.interpolant) (s : T2DInterp.t) (x y : Q)
      (i j : Z) (xa ya : ArgVec.t) :
  interp2_ok s ->
  ArgVec.upperIndex (T2DInterp._xargs s) x = Ok (i, xa) ->
  ArgVec.upperIndex (T2DInterp._yargs s) y = Ok (j, ya) ->
  Table2D.interp_of k s x y
  = Ok (cell_value k (ArgVec._vec (T2DInterp._xargs s))
                   (ArgVec._vec (T2DInterp._yargs s))
                   (T2DInterp._vals s) (T2DInterp._ny s) x y i j,
        T2DInterp.set_axes s xa ya).
Proof.
  intros Hok Rx Ry. interp2_reads Hok.
  destruct (axes_spec s x y Hok)
    as (i' & xa' & j' & ya' & Rx' & Ry' & Vx & Vy & Hi & Hj & _).
  rewrite Rx in Rx'. rewrite Ry in Ry'.
  inversion Rx'; inversion Ry'; subst i' xa' j' ya'. clear Rx' Ry'.
  destruct k; unfold Table2D.interp_of, cell_value.
  - unfold T2DFloorInterp.interp, ArgVec.at_. rewrite Rx. cbn [bind].
    rewrite Ry. cbn [bind]. rewrite Vx, Vy, Hny.
    rewrite !rd_ok by lia. cbn [bind].
    destruct (Qeq_bool x _); destruct (Qeq_bool y _); rd_grid; reflexivity.
  - unfold T2DCeilInterp.interp, ArgVec.at_. rewrite Rx. cbn [bind].
    rewrite Ry. cbn [bind]. rewrite Vx, Vy, Hny.
    rewrite !rd_ok by lia. cbn [bind].
    destruct (Qeq_bool x _); destruct (Qeq_bool y _); rd_grid; reflexivity.
  - unfold T2DNearestInterp.interp, ArgVec.at_. rewrite Rx. cbn [bind].
    rewrite Ry. cbn [bind]. rewrite Vx, Vy, Hny.
    rewrite !rd_ok by lia. cbn [bind].
    destruct (Qltb (x - _) _); destruct (Qltb (y - _) _); rd_grid; reflexivity.
  - unfold T2DLinearInterp.interp, ArgVec.at_. rewrite Rx. cbn [bind].
    rewrite Ry. cbn [bind]. rewrite Vx, Vy, Hny.
    rewrite !rd_ok by lia. cbn [bind]. unfold T2DInterp.weights.
    repeat rd_grid. reflexivity.
Qed.

Lemma gradient_cell_value (s : T2DInterp.t) (x y : Q)
      (i j : Z) (xa ya : ArgVec.t) :
  interp2_ok s ->
  ArgVec.upperIndex (T2DInterp._xargs s) x = Ok (i, xa) ->
  ArgVec.upperIndex (T2DInterp._yargs s) y = Ok (j, ya) ->
  T2DLinearInterp.gradient s x y
  = Ok (cell_gradient (ArgVec._vec (T2DInterp._xargs s))
                      (ArgVec._vec (T2DInterp._yargs s))
                      (T2DInterp._vals s) (T2DInterp._ny s) x y i j,
        T2DInterp.set_axes s xa ya).
Proof.
  intros Hok Rx Ry. interp2_reads Hok.
  destruct (axes_spec s x y Hok)
    as (i' & xa' & j' & ya' & Rx' & Ry' & Vx & Vy & Hi & Hj & _).
  rewrite Rx in Rx'. rewrite Ry in Ry'.
  inversion Rx'; inversion Ry'; subst i' xa' j' ya'. clear Rx' Ry'.
  unfold T2DLinearInterp.gradient, cell_gradient, ArgVec.at_. rewrite Rx. cbn [bind].
  rewrite Ry. cbn [bind]. rewrite Vx, Vy, Hny.
  rewrite !rd_ok by lia. cbn [bind].
  repeat rd_grid. reflexivity.
Qed.

(** The cell value does not depend on which bracket of [x] is used. *)
Lemma cell_value_x_step (k : Table2D.interpolant) (xs ys vals : list Q) (ny : Z)
      (x y : Q) (i j : Z) :
  ascendingb xs = true -> (1 <= i)%Z -> (i + 1 < Z.of_nat (List.length xs))%Z ->
  get ys (j - 1) < get ys j -> x == get xs i ->
  cell_value k xs ys vals ny x y i j == cell_value k xs ys vals ny x y (i + 1) j.
Proof.
  intros Hasc Hi Hi' Hy Hx.
  assert (H1 : get xs (i - 1) < get xs i) by (apply ascendingb_lt; auto; lia).
  assert (H2 : get xs i < get xs (i + 1)) by (apply ascendingb_lt; auto; lia).
  destruct k; unfold cell_value; replace (i + 1 - 1)%Z with i by lia.
  - assert (E1 : Qeq_bool x (get xs i) = true) by (apply Qeq_bool_iff; exact Hx).
    assert (E2 : Qeq_bool x (get xs (i + 1)) = false) by (apply Qeq_bool_false; lra).
    rewrite E1, E2. reflexivity.
  - assert (E1 : Qeq_bool x (get xs (i - 1)) = false) by (apply Qeq_bool_false; lra).
    assert (E2 : Qeq_bool x (get xs i) = true) by (apply Qeq_bool_iff; exact Hx).
    rewrite E1, E2. replace (i + 1 - 1)%Z with i by lia. reflexivity.
  - assert (E1 : Qltb (x - get xs (i - 1)) (get xs i - x) = false)
      by (apply Qltb_false; lra).
    assert (E2 : Qltb (x - get xs i) (get xs (i + 1) - x) = true)
      by (apply Qltb_true; lra).
    rewrite E1, E2. replace (i + 1 - 1)%Z with i by lia. reflexivity.
  - unfold T2DInterp.weights. rewrite Hx. field. repeat split; lra.
Qed.

Lemma cell_value_y_step (k : Table2D.interpolant) (xs ys vals : list Q) (ny : Z)
      (x y : Q) (i j : Z) :
  ascendingb ys = true -> (1 <= j)%Z -> (j + 1 < Z.of_nat (List.length ys))%Z ->
  get xs (i - 1) < get xs i -> y == get ys j ->
  cell_value k xs ys vals ny x y i j == cell_value k xs ys vals ny x y i (j + 1).
Proof.
  intros Hasc Hj Hj' Hxc Hy.
  assert (H1 : get ys (j - 1) < get ys j) by (apply ascendingb_lt; auto; lia).
  assert (H2 : get ys j < get ys (j + 1)) by (apply ascendingb_lt; auto; lia).
  destruct k; unfold cell_value; replace (j + 1 - 1)%Z with j by lia.
  - assert (E1 : Qeq_bool y (get ys j) = true) by (apply Qeq_bool_iff; exact Hy).
    assert (E2 : Qeq_bool y (get ys (j + 1)) = false) by (apply Qeq_bool_false; lra).
    rewrite E1, E2. reflexivity.
  - assert (E1 : Qeq_bool y (get ys (j - 1)) = false) by (apply Qeq_bool_false; lra).
    assert (E2 : Qeq_bool y (get ys j) = true) by (apply Qeq_bool_iff; exact Hy).
    rewrite E1, E2. replace (j + 1 - 1)%Z with j by lia. reflexivity.
  - assert (E1 : Qltb (y - get ys (j - 1)) (get ys j - y) = false)
      by (apply Qltb_false; lra).
    assert (E2 : Qltb (y - get ys j) (get ys (j + 1) - y) = true)
      by (apply Qltb_true; lra).
    rewrite E1, E2. replace (j + 1 - 1)%Z with j by lia. reflexivity.
  - unfold T2DInterp.weights.
    replace ((i - 1) * ny + (j + 1) - 1)%Z with ((i - 1) * ny + j)%Z by lia.
    replace (i * ny + (j + 1) - 1)%Z with (i * ny + j)%Z by lia.
    rewrite Hy. field. repeat split; lra.
Qed.

Lemma index_neighbours (v v' w w' : ArgVec.t) (a : Q) (i i' : Z) :
  axis_ok v -> axis_ok v' ->
  ArgVec._vec v' = ArgVec._vec v -> ArgVec._n v' = ArgVec._n v ->
  ArgVec.upperIndex v a = Ok (i, w) -> ArgVec.upperIndex v' a = Ok (i', w') ->
  (1 <= i <= ArgVec._n v - 1)%Z /\ (1 <= i' <= ArgVec._n v - 1)%Z /\
  neighbours (ArgVec._vec v) a i i'.
Proof.
  intros K K' Ev En R R'.
  destruct (upperIndex_spec v a K) as (i0 & u & E & _ & _ & Hi & Lo & Hi1 & In).
  destruct (upperIndex_spec v' a K') as (i0' & u' & E' & _ & _ & Hi' & Lo' & Hi1' & In').
  rewrite R in E. rewrite R' in E'. inversion E; inversion E'; subst i0 u i0' u'.
  rewrite Ev, En in *.
  pose proof K as ((Hlen & Hasc) & Hn & _).
  split; [exact Hi |]. split; [exact Hi' |]. unfold neighbours.
  destruct (Qlt_le_dec a (get (ArgVec._vec v) 0)) as [L | G].
  { left. rewrite Lo, Lo'; auto. }
  destruct (Qlt_le_dec (get (ArgVec._vec v) (ArgVec._n v - 1)) a) as [L' | G'].
  { left. rewrite Hi1, Hi1'; auto. }
  assert (B : bracket (ArgVec._vec v) a i) by (apply In; split; auto).
  assert (B' : bracket (ArgVec._vec v) a i') by (apply In'; split; auto).
  destruct (bracket_near (ArgVec._vec v) a i i' Hasc ltac:(lia) ltac:(lia)
              (proj2 B) (proj2 B')) as [H | [[H1 H2] | [H1 H2]]].
  - left; exact H.
  - right; right. split; assumption.
  - right; left. split; assumption.
Qed.

Lemma cell_value_neighbours (k : Table2D.interpolant) (xs ys vals : list Q) (ny : Z)
      (x y : Q) (i i' j j' : Z) :
  ascendingb xs = true -> ascendingb ys = true ->
  (1 <= i <= Z.of_nat (List.length xs) - 1)%Z ->
  (1 <= i' <= Z.of_nat (List.length xs) - 1)%Z ->
  (1 <= j <= Z.of_nat (List.length ys) - 1)%Z ->
  (1 <= j' <= Z.of_nat (List.length ys) - 1)%Z ->
  neighbours xs x i i' -> neighbours ys y j j' ->
  cell_value k xs ys vals ny x y i j == cell_value k xs ys vals ny x y i' j'.
Proof.
  intros Ax Ay Hi Hi' Hj Hj' Nx Ny.
  assert (Cy : get ys (j - 1) < get ys j) by (apply ascendingb_lt; auto; lia).
  assert (Cx : get xs (i' - 1) < get xs i') by (apply ascendingb_lt; auto; lia).
  transitivity (cell_value k xs ys vals ny x y i' j).
  - destruct Nx as [-> | [[-> Hx] | [-> Hx]]]; [reflexivity | |].
    + apply cell_value_x_step; auto; lia.
    + symmetry. apply cell_value_x_step; auto; lia.
  - destruct Ny as [-> | [[-> Hy] | [-> Hy]]]; [reflexivity | |].
    + apply cell_value_y_step; auto; lia.
    + symmetry. apply cell_value_y_step; auto; lia.
Qed.

Lemma Table2D_lookup_value (tb : Table2D.t) (x y : Q) :
  interp2_ok (Table2D._interp tb) ->
  exists i xa j ya,
    ArgVec.upperIndex (T2DInterp._xargs (Table2D._interp tb)) x = Ok (i, xa) /\
    ArgVec.upperIndex (T2DInterp._yargs (Table2D._interp tb)) y = Ok (j, ya) /\
    Table2D.lookup tb x y
    = Ok (cell_value (Table2D._kind tb)
                     (ArgVec._vec (T2DInterp._xargs (Table2D._interp tb)))
                     (ArgVec._vec (T2DInterp._yargs (Table2D._interp tb)))
                     (T2DInterp._vals (Table2D._interp tb))
                     (T2DInterp._ny (Table2D._interp tb)) x y i j,
          Table2D.mk (Table2D._kind tb)
                     (T2DInterp.set_axes (Table2D._interp tb) xa ya)).
Proof.
  intros Hok.
  destruct (axes_spec _ x y Hok) as (i & xa & j & ya & Rx & Ry & _).
  exists i, xa, j, ya. split; [exact Rx |]. split; [exact Ry |].
  unfold Table2D.lookup.
  rewrite (interp_cell_value _ _ x y i j xa ya Hok Rx Ry). reflexivity.
Qed.

(** ** X13: the cursors of a 2D table are not observable *)

(** X13.  For a 2D table of any rule and every query point, the value
    that [lookup] returns is the same from every pair of cursor states of
    the two axes. *)
Theorem cursors2_not_observable
        (xargs yargs vals : list Q) (Nx Ny : Z) (kind : Table2D.interpolant)
        (built : Table2D.t) (cx cy cx' cy' : Z) (x y : Q) :
  (2 <= Nx)%Z -> (2 <= Ny)%Z -> ascending xargs Nx -> ascending yargs Ny ->
  Z.of_nat (List.length vals) = (Nx * Ny)%Z ->
  Table2D.new xargs yargs vals Nx Ny kind = Ok built ->
  (1 <= cx <= Nx - 1)%Z -> (1 <= cy <= Ny - 1)%Z ->
  (1 <= cx' <= Nx - 1)%Z -> (1 <= cy' <= Ny - 1)%Z ->
  exists v v' t t',
    Table2D.lookup (set_cursors2 built cx cy) x y = Ok (v, t) /\
    Table2D.lookup (set_cursors2 built cx' cy') x y = Ok (v', t') /\
    v == v'.
Proof.
  intros Hx Hy Ax Ay Hv Hnew Hcx Hcy Hcx' Hcy'.
  destruct (built_table2 xargs yargs vals Nx Ny kind built cx cy
              Hx Hy Ax Ay Hv Hnew Hcx Hcy)
    as (K1 & Kd1 & Vx1 & Nx1 & Vy1 & Ny1 & Vv1 & Hny1).
  destruct (built_table2 xargs yargs vals Nx Ny kind built cx' cy'
              Hx Hy Ax Ay Hv Hnew Hcx' Hcy')
    as (K2 & Kd2 & Vx2 & Nx2 & Vy2 & Ny2 & Vv2 & Hny2).
  destruct (Table2D_lookup_value _ x y K1) as (i & xa & j & ya & Rx & Ry & L1).
  destruct (Table2D_lookup_value _ x y K2) as (i' & xa' & j' & ya' & Rx' & Ry' & L2).
  rewrite L1, L2. do 4 eexists. split; [reflexivity |]. split; [reflexivity |].
  rewrite Kd1, Kd2, Vx1, Vx2, Vy1, Vy2, Vv1, Vv2, Hny1, Hny2.
  pose proof K1 as (Kx1 & Ky1 & _). pose proof K2 as (Kx2 & Ky2 & _).
  destruct (index_neighbours _ _ _ _ x i i' Kx1 Kx2 ltac:(congruence)
              ltac:(congruence) Rx Rx') as (Hi & Hi' & Nbx).
  destruct (index_neighbours _ _ _ _ y j j' Ky1 Ky2 ltac:(congruence)
              ltac:(congruence) Ry Ry') as (Hj & Hj' & Nby).
  rewrite Vx1, Nx1 in *. rewrite Vy1, Ny1 in *.
  destruct Ax as [Lx Ascx]. destruct Ay as [Ly Ascy].
  apply cell_value_neighbours; auto; lia.
Qed.

Lemma cursors2_not_observable_witness :
  let built := Table2D.mk Table2D.nearest
                 (T2DInterp.mk
                    (ArgVec.mk [0; 1; 3] 3 (1 # 1000000) (2 # 1000000) false (3 # 2) 1)
                    (ArgVec.mk [0; 2; 3] 3 (2 # 1000000) (1 # 1000000) false (3 # 2) 1)
                    [1; 2; 3; 4; 5; 6; 7; 8; 9] 3) in
  exists v v' t t',
    Table2D.lookup (set_cursors2 built 1 1) 1 2 = Ok (v, t) /\
    Table2D.lookup (set_cursors2 built 2 2) 1 2 = Ok (v', t') /\
    v == v'.
Proof.
  apply (cursors2_not_observable [0; 1; 3] [0; 2; 3] [1; 2; 3; 4; 5; 6; 7; 8; 9]
           3 3 Table2D.nearest).
  - lia.
  - lia.
  - split; reflexivity.
  - split; reflexivity.
  - reflexivity.
  - reflexivity.
  - lia.
  - lia.
  - lia.
  - lia.
Defined.

(** ** X14: floor, ceil and nearest at the grid points *)

(** X14.  For a 2D table with the floor, ceil or nearest rule, in any
    cursor state, the lookup at a grid point [(xargs[i], yargs[j])] returns
    the grid value [vals[i*Ny + j]]: the tie-breaks pick the point's own
    value on both axes. *)
Theorem grid_point_exact
        (xargs yargs vals : list Q) (Nx Ny : Z) (kind : Table2D.interpolant)
        (built : Table2D.t) (cx cy i j : Z) :
  (2 <= Nx)%Z -> (2 <= Ny)%Z -> ascending xargs Nx -> ascending yargs Ny ->
  Z.of_nat (List.length vals) = (Nx * Ny)%Z ->
  kind <> Table2D.linear ->
  Table2D.new xargs yargs vals Nx Ny kind = Ok built ->
  (1 <= cx <= Nx - 1)%Z -> (1 <= cy <= Ny - 1)%Z ->
  (0 <= i < Nx)%Z -> (0 <= j < Ny)%Z ->
  exists tb',
    Table2D.lookup (set_cursors2 built cx cy) (get xargs i) (get yargs j)
    = Ok (get vals (i * Ny + j), tb').
Proof.
  intros Hx Hy Ax Ay Hv Hk Hnew Hcx Hcy Hi Hj.
  destruct (built_table2 xargs yargs vals Nx Ny kind built cx cy
              Hx Hy Ax Ay Hv Hnew Hcx Hcy)
    as (K & Kd & Vx & Nx' & Vy & Ny' & Vv & Hny).
  set (x := get xargs i). set (y := get yargs j).
  destruct (axes_spec _ x y K)
    as (I & xa & J & ya & Rx & Ry & _ & _ & HI & HJ & _ & Bx & By).
  destruct (Table2D_lookup_value _ x y K) as (I' & xa' & J' & ya' & Rx' & Ry' & L).
  rewrite Rx in Rx'. rewrite Ry in Ry'.
  inversion Rx'; inversion Ry'; subst I' xa' J' ya'. clear Rx' Ry'.
  rewrite L. eexists. f_equal. f_equal.
  rewrite Kd, Vx, Vy, Vv, Hny. rewrite Vx, Nx' in *. rewrite Vy, Ny' in *.
  destruct Ax as [Lx Ascx]. destruct Ay as [Ly Ascy].
  assert (BI : bracket xargs x I).
  { apply Bx. split; apply ascendingb_le; auto; lia. }
  assert (BJ : bracket yargs y J).
  { apply By. split; apply ascendingb_le; auto; lia. }
  assert (HxI : get xargs (I - 1) < get xargs I) by (apply ascendingb_lt; auto; lia).
  assert (HyJ : get yargs (J - 1) < get yargs J) by (apply ascendingb_lt; auto; lia).
  assert (CI : i = I \/ i = (I - 1)%Z).
  { apply (sample_bracket xargs x); auto; [lia | reflexivity]. }
  assert (CJ : j = J \/ j = (J - 1)%Z).
  { apply (sample_bracket yargs y); auto; [lia | reflexivity]. }
  assert (T : forall u, Qeq_bool u u = true) by (intros; apply Qeq_bool_same).
  assert (F : forall u w, u < w -> Qeq_bool u w = false)
    by (intros u w H; apply Qeq_bool_false; lra).
  assert (F' : forall u w, u < w -> Qeq_bool w u = false)
    by (intros u w H; apply Qeq_bool_false; lra).
  destruct kind; try congruence; unfold cell_value, x, y.
  - (* floor *)
    destruct CI as [-> | ->]; destruct CJ as [-> | ->];
      rewrite ?T, ?(F _ _ HxI), ?(F _ _ HyJ); f_equal; lia.
  - (* ceil *)
    destruct CI as [-> | ->]; destruct CJ as [-> | ->];
      rewrite ?T, ?(F' _ _ HxI), ?(F' _ _ HyJ); f_equal; lia.
  - (* nearest *)
    assert (N1 : forall u w, u < w -> Qltb (u - u) (w - u) = true)
      by (intros u w H; apply Qltb_true; lra).
    assert (N2 : forall u w, u < w -> Qltb (w - u) (w - w) = false)
      by (intros u w H; apply Qltb_false; lra).
    destruct CI as [-> | ->]; destruct CJ as [-> | ->];
      rewrite ?(N1 _ _ HxI), ?(N1 _ _ HyJ), ?(N2 _ _ HxI), ?(N2 _ _ HyJ);
      f_equal; lia.
Qed.

Lemma grid_point_exact_witness :
  exists tb',
    Table2D.lookup
      (set_cursors2
         (Table2D.mk Table2D.floor
            (T2DInterp.mk
               (ArgVec.mk [0; 1; 3] 3 (1 # 1000000) (2 # 1000000) false (3 # 2) 1)
               (ArgVec.mk [0; 2] 2 (2 # 1000000) (2 # 1000000) true (2 # 1) 1)
               [1; 2; 3; 4; 5; 6] 2)) 1 1)
      (get [0; 1; 3] 2) (get [0; 2] 1)
    = Ok (get [1; 2; 3; 4; 5; 6] (2 * 2 + 1), tb').
Proof.
  apply (grid_point_exact [0; 1; 3] [0; 2] [1; 2; 3; 4; 5; 6] 3 2 Table2D.floor).
  - lia.
  - lia.
  - split; reflexivity.
  - split; reflexivity.
  - reflexivity.
  - discriminate.
  - reflexivity.
  - lia.
  - lia.
  - lia.
  - lia.
Defined.

(** ** The bilinear gradient *)

Lemma Table2D_gradient_value (tb : Table2D.t) (x y : Q) :
  interp2_ok (Table2D._interp tb) -> Table2D._kind tb = Table2D.linear ->
  exists i xa j ya,
    ArgVec.upperIndex (T2DInterp._xargs (Table2D._interp tb)) x = Ok (i, xa) /\
    ArgVec.upperIndex (T2DInterp._yargs (Table2D._interp tb)) y = Ok (j, ya) /\
    Table2D.gradient tb x y
    = Ok (cell_gradient (ArgVec._vec (T2DInterp._xargs (Table2D._interp tb)))
                        (ArgVec._vec (T2DInterp._yargs (Table2D._interp tb)))
                        (T2DInterp._vals (Table2D._interp tb))
                        (T2DInterp._ny (Table2D._interp tb)) x y i j,
          Table2D.mk Table2D.linear
                     (T2DInterp.set_axes (Table2D._interp tb) xa ya)).
Proof.
  intros Hok Hk.
  destruct (axes_spec _ x y Hok) as (i & xa & j & ya & Rx & Ry & _).
  exists i, xa, j, ya. split; [exact Rx |]. split; [exact Ry |].
  unfold Table2D.gradient, Table2D.gradient_of. rewrite Hk.
  rewrite (gradient_cell_value _ x y i j xa ya Hok Rx Ry). reflexivity.
Qed.

Lemma strict_bracket (l : list Q) (a : Q) (i k : Z) :
  ascendingb l = true -> bracket l a k ->
  (1 <= i <= Z.of_nat (List.length l) - 1)%Z ->
  get l (i - 1) < a < get l i -> k = i.
Proof.
  intros Hasc [Hk Bk] Hi [S1 S2].
  destruct (bracket_near l a i k Hasc ltac:(lia) ltac:(lia))
    as [H | [[H1 H2] | [H1 H2]]]; try lia; try (split; lra); auto.
  - subst i. replace (k + 1 - 1)%Z with k in S1 by lia. lra.
  - lra.
Qed.

(** The index that the axis search returns for a query strictly inside a
    cell. *)
Lemma index_in_cell (v : ArgVec.t) (a : Q) (i k : Z) (w : ArgVec.t) :
  axis_ok v -> (1 <= i <= ArgVec._n v - 1)%Z ->
  get (ArgVec._vec v) (i - 1) < a < get (ArgVec._vec v) i ->
  ArgVec.upperIndex v a = Ok (k, w) -> k = i.
Proof.
  intros K Hi S R.
  destruct (upperIndex_spec v a K) as (k0 & u & E & _ & _ & _ & _ & _ & In).
  rewrite R in E. inversion E; subst k0 u.
  pose proof K as ((Hlen & Hasc) & Hn & _).
  apply (strict_bracket (ArgVec._vec v) a); auto; try lia.
  apply In. destruct S as [S1 S2]. split.
  - eapply Qle_trans; [| apply Qlt_le_weak; exact S1].
    apply ascendingb_le; auto; lia.
  - eapply Qle_trans; [apply Qlt_le_weak; exact S2 |].
    apply ascendingb_le; auto; lia.
Qed.

Ltac cell_index K V N H S R :=
  eapply (index_in_cell _ _ _ _ _ K);
  [rewrite N; exact H | rewrite V; exact S | exact R].

(** ** X15: the gradient is the slope inside a cell *)

(** X15.  For a bilinear table and points strictly inside one cell
    [(i, j)], the value changes along [x] by exactly [dfdx] times the
    distance, and along [y] by exactly [dfdy] times the distance, where
    [(dfdx, dfdy)] is what [gradient] returns at the starting point. *)
Theorem gradient_is_slope
        (xargs yargs vals : list Q) (Nx Ny : Z) (built : Table2D.t)
        (cx cy i j : Z) (x1 x2 y1 y2 : Q) :
  (2 <= Nx)%Z -> (2 <= Ny)%Z -> ascending xargs Nx -> ascending yargs Ny ->
  Z.of_nat (List.length vals) = (Nx * Ny)%Z ->
  Table2D.new xargs yargs vals Nx Ny Table2D.linear = Ok built ->
  (1 <= cx <= Nx - 1)%Z -> (1 <= cy <= Ny - 1)%Z ->
  (1 <= i <= Nx - 1)%Z -> (1 <= j <= Ny - 1)%Z ->
  get xargs (i - 1) < x1 < get xargs i -> get xargs (i - 1) < x2 < get xargs i ->
  get yargs (j - 1) < y1 < get yargs j -> get yargs (j - 1) < y2 < get yargs j ->
  let tb := set_cursors2 built cx cy in
  exists f11 f21 f12 dfdx dfdy t1 t2 t3 t4,
    Table2D.lookup tb x1 y1 = Ok (f11, t1) /\
    Table2D.lookup tb x2 y1 = Ok (f21, t2) /\
    Table2D.lookup tb x1 y2 = Ok (f12, t3) /\
    Table2D.gradient tb x1 y1 = Ok (dfdx, dfdy, t4) /\
    f21 - f11 == dfdx * (x2 - x1) /\
    f12 - f11 == dfdy * (y2 - y1).
Proof.
  intros Hx Hy Ax Ay Hv Hnew Hcx Hcy Hi Hj X1 X2 Y1 Y2 tb.
  destruct (built_table2 xargs yargs vals Nx Ny Table2D.linear built cx cy
              Hx Hy Ax Ay Hv Hnew Hcx Hcy)
    as (K & Kd & Vx & Nx' & Vy & Ny' & Vv & Hny).
  fold tb in K, Kd, Vx, Nx', Vy, Ny', Vv, Hny.
  pose proof K as (Kx & Ky & _).
  destruct (Table2D_lookup_value tb x1 y1 K) as (a1 & ? & b1 & ? & Ra1 & Rb1 & L1).
  destruct (Table2D_lookup_value tb x2 y1 K) as (a2 & ? & b2 & ? & Ra2 & Rb2 & L2).
  destruct (Table2D_lookup_value tb x1 y2 K) as (a3 & ? & b3 & ? & Ra3 & Rb3 & L3).
  destruct (Table2D_gradient_value tb x1 y1 K Kd) as (a4 & ? & b4 & ? & Ra4 & Rb4 & L4).
  assert (Ea1 : a1 = i) by (cell_index Kx Vx Nx' Hi X1 Ra1).
  assert (Ea2 : a2 = i) by (cell_index Kx Vx Nx' Hi X2 Ra2).
  assert (Ea3 : a3 = i) by (cell_index Kx Vx Nx' Hi X1 Ra3).
  assert (Ea4 : a4 = i) by (cell_index Kx Vx Nx' Hi X1 Ra4).
  assert (Eb1 : b1 = j) by (cell_index Ky Vy Ny' Hj Y1 Rb1).
  assert (Eb2 : b2 = j) by (cell_index Ky Vy Ny' Hj Y1 Rb2).
  assert (Eb3 : b3 = j) by (cell_index Ky Vy Ny' Hj Y2 Rb3).
  assert (Eb4 : b4 = j) by (cell_index Ky Vy Ny' Hj Y1 Rb4).
  subst a1 a2 a3 a4 b1 b2 b3 b4.
  rewrite L1, L2, L3, L4. rewrite Kd, Vx, Vy, Vv, Hny.
  do 9 eexists.
  split; [reflexivity |]. split; [reflexivity |]. split; [reflexivity |].
  split; [unfold cell_gradient; reflexivity |].
  unfold cell_value, T2DInterp.weights.
  destruct X1, Y1. split; field; split; lra.
Qed.

Lemma gradient_is_slope_witness :
  let tb := set_cursors2
              (Table2D.mk Table2D.linear
                 (T2DInterp.mk
                    (ArgVec.mk [0; 1; 3] 3 (1 # 1000000) (2 # 1000000) false (3 # 2) 1)
                    (ArgVec.mk [0; 2] 2 (2 # 1000000) (2 # 1000000) true (2 # 1) 1)
                    [1; 2; 3; 4; 5; 6] 2)) 1 1 in
  exists f11 f21 f12 dfdx dfdy t1 t2 t3 t4,
    Table2D.lookup tb (3 # 2) (1 # 2) = Ok (f11, t1) /\
    Table2D.lookup tb 2 (1 # 2) = Ok (f21, t2) /\
    Table2D.lookup tb (3 # 2) 1 = Ok (f12, t3) /\
    Table2D.gradient tb (3 # 2) (1 # 2) = Ok (dfdx, dfdy, t4) /\
    f21 - f11 == dfdx * (2 - (3 # 2)) /\
    f12 - f11 == dfdy * (1 - (1 # 2)).
Proof.
  apply (gradient_is_slope [0; 1; 3] [0; 2] [1; 2; 3; 4; 5; 6] 3 2
           (Table2D.mk Table2D.linear
              (T2DInterp.mk
                 (ArgVec.mk [0; 1; 3] 3 (1 # 1000000) (2 # 1000000) false (3 # 2) 1)
                 (ArgVec.mk [0; 2] 2 (2 # 1000000) (2 # 1000000) true (2 # 1) 1)
                 [1; 2; 3; 4; 5; 6] 2)) 1 1 2 1).
  - lia.
  - lia.
  - split; reflexivity.
  - split; reflexivity.
  - reflexivity.
  - reflexivity.
  - lia.
  - lia.
  - lia.
  - lia.
  - split; reflexivity.
  - split; reflexivity.
  - split; reflexivity.
  - split; reflexivity.
Defined.

(** ** X16: planes are reproduced *)

(** X16.  If the grid samples a plane [f = p*x + q*y + r], a bilinear table
    returns [p*x + q*y + r] at every query point, inside and outside the
    grid, and its gradient is [(p, q)] everywhere. *)
Theorem bilinear_reproduces_planes
        (xargs yargs vals : list Q) (Nx Ny : Z) (built : Table2D.t)
        (cx cy : Z) (p q r x y : Q) :
  (2 <= Nx)%Z -> (2 <= Ny)%Z -> ascending xargs Nx -> ascending yargs Ny ->
  Z.of_nat (List.length vals) = (Nx * Ny)%Z ->
  on_plane p q r xargs yargs vals Ny ->
  Table2D.new xargs yargs vals Nx Ny Table2D.linear = Ok built ->
  (1 <= cx <= Nx - 1)%Z -> (1 <= cy <= Ny - 1)%Z ->
  let tb := set_cursors2 built cx cy in
  exists v dfdx dfdy t t',
    Table2D.lookup tb x y = Ok (v, t) /\
    Table2D.gradient tb x y = Ok (dfdx, dfdy, t') /\
    v == p * x + q * y + r /\ dfdx == p /\ dfdy == q.
Proof.
  intros Hx Hy Ax Ay Hv Hpl Hnew Hcx Hcy tb.
  destruct (built_table2 xargs yargs vals Nx Ny Table2D.linear built cx cy
              Hx Hy Ax Ay Hv Hnew Hcx Hcy)
    as (K & Kd & Vx & Nx' & Vy & Ny' & Vv & Hny).
  fold tb in K, Kd, Vx, Nx', Vy, Ny', Vv, Hny.
  destruct (axes_spec _ x y K) as (i & xa & j & ya & Rx & Ry & _ & _ & Hi & Hj & _).
  destruct (Table2D_lookup_value tb x y K) as (i1 & ? & j1 & ? & Rx1 & Ry1 & L1).
  destruct (Table2D_gradient_value tb x y K Kd) as (i2 & ? & j2 & ? & Rx2 & Ry2 & L2).
  assert (E1 : i1 = i2) by congruence. assert (E2 : j1 = j2) by congruence.
  assert (E3 : i = i2) by congruence. assert (E4 : j = j2) by congruence.
  subst i1 j1 i j.
  rewrite L1, L2. rewrite Kd, Vx, Vy, Vv, Hny. rewrite Nx' in Hi. rewrite Ny' in Hj.
  do 5 eexists. split; [reflexivity |].
  split; [unfold cell_gradient; reflexivity |].
  destruct Ax as [Lx Ascx]. destruct Ay as [Ly Ascy].
  assert (HxI : get xargs (i2 - 1) < get xargs i2) by (apply ascendingb_lt; auto; lia).
  assert (HyJ : get yargs (j2 - 1) < get yargs j2) by (apply ascendingb_lt; auto; lia).
  pose proof (Hpl (i2 - 1)%Z (j2 - 1)%Z ltac:(lia) ltac:(lia)) as P00.
  pose proof (Hpl i2 (j2 - 1)%Z ltac:(lia) ltac:(lia)) as P10.
  pose proof (Hpl (i2 - 1)%Z j2 ltac:(lia) ltac:(lia)) as P01.
  pose proof (Hpl i2 j2 ltac:(lia) ltac:(lia)) as P11.
  replace ((i2 - 1) * Ny + (j2 - 1))%Z with ((i2 - 1) * Ny + j2 - 1)%Z in P00 by lia.
  replace (i2 * Ny + (j2 - 1))%Z with (i2 * Ny + j2 - 1)%Z in P10 by lia.
  unfold cell_value, T2DInterp.weights.
  rewrite P00, P10, P01, P11.
  split; [| split]; field; try split; lra.
Qed.

Lemma bilinear_reproduces_planes_witness :
  let tb := set_cursors2
              (Table2D.mk Table2D.linear
                 (T2DInterp.mk
                    (ArgVec.mk [0; 1] 2 (1 # 1000000) (1 # 1000000) true (1 # 1) 1)
                    (ArgVec.mk [0; 2] 2 (2 # 1000000) (2 # 1000000) true (2 # 1) 1)
                    [1; 7; 3; 9] 2)) 1 1 in
  exists v dfdx dfdy t t',
    Table2D.lookup tb 5 (-1) = Ok (v, t) /\
    Table2D.gradient tb 5 (-1) = Ok (dfdx, dfdy, t') /\
    v == 2 * 5 + 3 * (-1) + 1 /\ dfdx == 2 /\ dfdy == 3.
Proof.
  apply (bilinear_reproduces_planes [0; 1] [0; 2] [1; 7; 3; 9] 2 2
           (Table2D.mk Table2D.linear
              (T2DInterp.mk
                 (ArgVec.mk [0; 1] 2 (1 # 1000000) (1 # 1000000) true (1 # 1) 1)
                 (ArgVec.mk [0; 2] 2 (2 # 1000000) (2 # 1000000) true (2 # 1) 1)
                 [1; 7; 3; 9] 2)) 1 1 2 3 1).
  - lia.
  - lia.
  - split; reflexivity.
  - split; reflexivity.
  - reflexivity.
  - intros i j Hi Hj.
    assert (Ei : i = 0%Z \/ i = 1%Z) by (simpl in Hi; lia).
    assert (Ej : j = 0%Z \/ j = 1%Z) by (simpl in Hj; lia).
    destruct Ei as [-> | ->]; destruct Ej as [-> | ->]; reflexivity.
  - reflexivity.
  - lia.
  - lia.
Defined.

(** ** X17: 2D batches *)

Lemma Table2D_gradient_ok (tb : Table2D.t) (x y : Q) :
  interp2_ok (Table2D._interp tb) -> Table2D._kind tb = Table2D.linear ->
  exists dfdx dfdy tb',
    Table2D.gradient tb x y = Ok (dfdx, dfdy, tb') /\
    interp2_ok (Table2D._interp tb') /\ Table2D._kind tb' = Table2D.linear.
Proof.
  intros Hok Hk.
  destruct (axes_spec _ x y Hok) as (i & xa & j & ya & Rx & Ry & _ & _ & _ & _ & K & _).
  destruct (Table2D_gradient_value tb x y Hok Hk)
    as (i' & xa' & j' & ya' & Rx' & Ry' & L).
  assert (xa' = xa) by congruence. assert (ya' = ya) by congruence. subst xa' ya'.
  rewrite L. destruct (cell_gradient _ _ _ _ x y i' j') as [gx gy].
  exists gx, gy. eexists. split; [reflexivity |]. split; [exact K | reflexivity].
Qed.

(** X17.  Over exact arithmetic, so for query points whose coordinates
    are numbers: the batch forms of a 2D table never stop in the middle;
    [interpMany] returns one value per query point for every rule, and on a
    bilinear table [gradientMany] returns one gradient per query point,
    whatever the points (inside or outside the grid). *)
Theorem batches2_complete
        (xargs yargs vals : list Q) (Nx Ny : Z) (kind : Table2D.interpolant)
        (built : Table2D.t) (cx cy : Z) (queries : list (Q * Q)) :
  (2 <= Nx)%Z -> (2 <= Ny)%Z -> ascending xargs Nx -> ascending yargs Ny ->
  Z.of_nat (List.length vals) = (Nx * Ny)%Z ->
  Table2D.new xargs yargs vals Nx Ny kind = Ok built ->
  (1 <= cx <= Nx - 1)%Z -> (1 <= cy <= Ny - 1)%Z ->
  (exists vs tb', Table2D.interpMany (set_cursors2 built cx cy) queries = Ok (vs, tb') /\
                  List.length vs = List.length queries) /\
  (kind = Table2D.linear ->
   exists gs tb', Table2D.gradientMany (set_cursors2 built cx cy) queries = Ok (gs, tb') /\
                  List.length gs = List.length queries).
Proof.
  intros Hx Hy Ax Ay Hv Hnew Hcx Hcy.
  destruct (built_table2 xargs yargs vals Nx Ny kind built cx cy
              Hx Hy Ax Ay Hv Hnew Hcx Hcy) as (K & Kd & _).
  revert K Kd. generalize (set_cursors2 built cx cy) as tb. intros tb K Kd. split.
  - clear Kd. revert tb K. induction queries as [| [x y] rest IH]; intros tb K.
    + exists [], tb. split; reflexivity.
    + destruct (Table2D_lookup_ok tb x y K) as (v & tb1 & R & K1 & _).
      destruct (IH tb1 K1) as (vs & tb' & M & L).
      exists (v :: vs), tb'. simpl. rewrite R. cbn [bind]. rewrite M. cbn [bind].
      split; [reflexivity | simpl; congruence].
  - intros Hlin. rewrite Hlin in Kd. clear Hlin.
    revert tb K Kd. induction queries as [| [x y] rest IH]; intros tb K Kd.
    + exists [], tb. split; reflexivity.
    + destruct (Table2D_gradient_ok tb x y K Kd) as (gx & gy & tb1 & R & K1 & Kd1).
      destruct (IH tb1 K1 Kd1) as (gs & tb' & M & L).
      exists ((gx, gy) :: gs), tb'. simpl. rewrite R. cbn [bind]. rewrite M. cbn [bind].
      split; [reflexivity | simpl; congruence].
Qed.

Lemma batches2_complete_witness :
  let tb := set_cursors2
              (Table2D.mk Table2D.linear
                 (T2DInterp.mk
                    (ArgVec.mk [0; 1; 3] 3 (1 # 1000000) (2 # 1000000) false (3 # 2) 1)
                    (ArgVec.mk [0; 2] 2 (2 # 1000000) (2 # 1000000) true (2 # 1) 1)
                    [1; 2; 3; 4; 5; 6] 2)) 1 1 in
  (exists vs tb', Table2D.interpMany tb [(5, 5); (0, 1)] = Ok (vs, tb') /\
                  List.length vs = List.length [(5, 5); (0, 1)]) /\
  (Table2D.linear = Table2D.linear ->
   exists gs tb', Table2D.gradientMany tb [(5, 5); (0, 1)] = Ok (gs, tb') /\
                  List.length gs = List.length [(5, 5); (0, 1)]).
Proof.
  apply (batches2_complete [0; 1; 3] [0; 2] [1; 2; 3; 4; 5; 6] 3 2 Table2D.linear).
  - lia.
  - lia.
  - split; reflexivity.
  - split; reflexivity.
  - reflexivity.
  - reflexivity.
  - lia.
  - lia.
Defined.

(** ** X18: bilinear interpolation stays inside the data *)

(** X18.  For a bilinear table and a query point inside the grid, any
    bounds [lo <= vals[k] <= hi] on the grid values are bounds on the
    result. *)
Theorem bilinear_within_data
        (xargs yargs vals : list Q) (Nx Ny : Z) (built : Table2D.t)
        (cx cy : Z) (x y lo hi : Q) :
  (2 <= Nx)%Z -> (2 <= Ny)%Z -> ascending xargs Nx -> ascending yargs Ny ->
  Z.of_nat (List.length vals) = (Nx * Ny)%Z ->
  Table2D.new xargs yargs vals Nx Ny Table2D.linear = Ok built ->
  (1 <= cx <= Nx - 1)%Z -> (1 <= cy <= Ny - 1)%Z ->
  get xargs 0 <= x <= get xargs (Nx - 1) ->
  get yargs 0 <= y <= get yargs (Ny - 1) ->
  (forall k, (0 <= k < Nx * Ny)%Z -> lo <= get vals k <= hi) ->
  exists v tb',
    Table2D.lookup (set_cursors2 built cx cy) x y = Ok (v, tb') /\ lo <= v <= hi.
Proof.
  intros Hx Hy Ax Ay Hv Hnew Hcx Hcy Xr Yr Hbd.
  destruct (built_table2 xargs yargs vals Nx Ny Table2D.linear built cx cy
              Hx Hy Ax Ay Hv Hnew Hcx Hcy)
    as (K & Kd & Vx & Nx' & Vy & Ny' & Vv & Hny).
  destruct (axes_spec _ x y K)
    as (i & xa & j & ya & Rx & Ry & _ & _ & Hi & Hj & _ & Bx & By).
  destruct (Table2D_lookup_value _ x y K) as (i' & xa' & j' & ya' & Rx' & Ry' & L).
  assert (i' = i) by congruence. assert (j' = j) by congruence. subst i' j'.
  rewrite L. rewrite Kd, Vx, Vy, Vv, Hny. rewrite Vx, Nx' in *. rewrite Vy, Ny' in *.
  do 2 eexists. split; [reflexivity |].
  destruct (Bx Xr) as [_ [X1 X2]]. destruct (By Yr) as [_ [Y1 Y2]].
  destruct Ax as [Lx Ascx]. destruct Ay as [Ly Ascy].
  assert (HxI : get xargs (i - 1) < get xargs i) by (apply ascendingb_lt; auto; lia).
  assert (HyJ : get yargs (j - 1) < get yargs j) by (apply ascendingb_lt; auto; lia).
  unfold cell_value, T2DInterp.weights.
  set (ax := (get xargs i - x) / (get xargs i - get xargs (i - 1))).
  set (ay := (get yargs j - y) / (get yargs j - get yargs (j - 1))).
  assert (A0 : 0 <= ax) by (apply Qle_shift_div_l; lra).
  assert (A1 : 0 <= 1 - ax).
  { assert (ax <= 1) by (apply Qle_shift_div_r; lra). lra. }
  assert (B0 : 0 <= ay) by (apply Qle_shift_div_l; lra).
  assert (B1 : 0 <= 1 - ay).
  { assert (ay <= 1) by (apply Qle_shift_div_r; lra). lra. }
  destruct (Hbd ((i - 1) * Ny + j - 1)%Z ltac:(nia)) as [L00 U00].
  destruct (Hbd (i * Ny + j - 1)%Z ltac:(nia)) as [L10 U10].
  destruct (Hbd ((i - 1) * Ny + j)%Z ltac:(nia)) as [L01 U01].
  destruct (Hbd (i * Ny + j)%Z ltac:(nia)) as [L11 U11].
  set (f00 := get vals ((i - 1) * Ny + j - 1)) in *.
  set (f10 := get vals (i * Ny + j - 1)) in *.
  set (f01 := get vals ((i - 1) * Ny + j)) in *.
  set (f11 := get vals (i * Ny + j)) in *.
  assert (W00 : 0 <= ax * ay) by (apply Qmult_le_0_compat; auto).
  assert (W10 : 0 <= (1 - ax) * ay) by (apply Qmult_le_0_compat; auto).
  assert (W01 : 0 <= ax * (1 - ay)) by (apply Qmult_le_0_compat; auto).
  assert (W11 : 0 <= (1 - ax) * (1 - ay)) by (apply Qmult_le_0_compat; auto).
  assert (P1 : 0 <= (f00 - lo) * (ax * ay)) by (apply Qmult_le_0_compat; lra).
  assert (P2 : 0 <= (f10 - lo) * ((1 - ax) * ay)) by (apply Qmult_le_0_compat; lra).
  assert (P3 : 0 <= (f01 - lo) * (ax * (1 - ay))) by (apply Qmult_le_0_compat; lra).
  assert (P4 : 0 <= (f11 - lo) * ((1 - ax) * (1 - ay)))
    by (apply Qmult_le_0_compat; lra).
  assert (R1 : 0 <= (hi - f00) * (ax * ay)) by (apply Qmult_le_0_compat; lra).
  assert (R2 : 0 <= (hi - f10) * ((1 - ax) * ay)) by (apply Qmult_le_0_compat; lra).
  assert (R3 : 0 <= (hi - f01) * (ax * (1 - ay))) by (apply Qmult_le_0_compat; lra).
  assert (R4 : 0 <= (hi - f11) * ((1 - ax) * (1 - ay)))
    by (apply Qmult_le_0_compat; lra).
  split; lra.
Qed.

Lemma bilinear_within_data_witness :
  exists v tb',
    Table2D.lookup
      (set_cursors2
         (Table2D.mk Table2D.linear
            (T2DInterp.mk
               (ArgVec.mk [0; 1] 2 (1 # 1000000) (1 # 1000000) true (1 # 1) 1)
               (ArgVec.mk [0; 2] 2 (2 # 1000000) (2 # 1000000) true (2 # 1) 1)
               [1; 7; 3; 9] 2)) 1 1) (1 # 2) 1 = Ok (v, tb') /\ 1 <= v <= 9.
Proof.
  apply (bilinear_within_data [0; 1] [0; 2] [1; 7; 3; 9] 2 2).
  - lia.
  - lia.
  - split; reflexivity.
  - split; reflexivity.
  - reflexivity.
  - reflexivity.
  - lia.
  - lia.
  - split; discriminate.
  - split; discriminate.
  - intros k Hk.
    assert (E : k = 0%Z \/ k = 1%Z \/ k = 2%Z \/ k = 3%Z) by lia.
    destruct E as [-> | [-> | [-> | ->]]]; split; discriminate.
Defined.

(** ** X19: the local rules preserve the order of the data *)

Lemma interpolate_cell_rule (tb : TableImpl.t) (args vals : list Q) (a : Q) (i : Z) :
  ArgVec._vec (TableImpl._args tb) = args -> TableImpl._vals tb = vals ->
  TableImpl._iType tb <> TableImpl.spline ->
  Z.of_nat (List.length args) = Z.of_nat (List.length vals) ->
  bracket args a i ->
  TableImpl.interpolate tb a i =
    Ok (cell_rule_value (TableImpl._iType tb) (get args (i - 1)) (get args i)
                        (get vals (i - 1)) (get vals i) a).
Proof.
  intros Hvec Hvals Hns Hlen [Hi _].
  unfold TableImpl.interpolate, cell_rule_value.
  destruct (TableImpl._iType tb); try congruence.
  - unfold TableImpl.linearInterpolate, ArgVec.at_. rewrite Hvec, Hvals.
    rewrite !rd_ok by lia. reflexivity.
  - unfold TableImpl.floorInterpolate, ArgVec.at_. rewrite Hvec, Hvals.
    rewrite rd_ok by lia. cbn [bind].
    destruct (Qeq_bool a (get args i)).
    + replace (i + 1 - 1)%Z with i by lia. rewrite rd_ok by lia. reflexivity.
    + rewrite rd_ok by lia. reflexivity.
  - unfold TableImpl.ceilInterpolate, ArgVec.at_. rewrite Hvec, Hvals.
    rewrite rd_ok by lia. cbn [bind].
    destruct (Qeq_bool a (get args (i - 1))); rewrite rd_ok by lia; reflexivity.
  - unfold TableImpl.nearestInterpolate, ArgVec.at_. rewrite Hvec, Hvals.
    rewrite !rd_ok by lia. cbn [bind].
    destruct (Qltb (a - get args (i - 1)) (get args i - a));
      rewrite rd_ok by lia; reflexivity.
Qed.

Lemma cell_rule_between (rule : TableImpl.interpolant) (xp xi vp vi a : Q) :
  rule <> TableImpl.spline -> xp < xi -> xp <= a <= xi -> vp <= vi ->
  vp <= cell_rule_value rule xp xi vp vi a <= vi.
Proof.
  intros Hns Hlt [A1 A2] Hv. unfold cell_rule_value. destruct rule; try congruence.
  - set (ax := (xi - a) / (xi - xp)).
    assert (X0 : 0 <= ax) by (apply Qle_shift_div_l; lra).
    assert (X1 : 0 <= 1 - ax).
    { assert (ax <= 1) by (apply Qle_shift_div_r; lra). lra. }
    assert (P1 : 0 <= (vi - vp) * ax) by (apply Qmult_le_0_compat; lra).
    assert (P2 : 0 <= (vi - vp) * (1 - ax)) by (apply Qmult_le_0_compat; lra).
    cbv zeta. split; lra.
  - destruct (Qeq_bool a xi); split; lra.
  - destruct (Qeq_bool a xp); split; lra.
  - destruct (Qltb (a - xp) (xi - a)); split; lra.
Qed.

Lemma cell_rule_monotone (rule : TableImpl.interpolant) (xp xi vp vi a b : Q) :
  rule <> TableImpl.spline -> xp < xi -> xp <= a -> a <= b -> b <= xi -> vp <= vi ->
  cell_rule_value rule xp xi vp vi a <= cell_rule_value rule xp xi vp vi b.
Proof.
  intros Hns Hlt A1 Hab B2 Hv. unfold cell_rule_value. destruct rule; try congruence.
  - set (axa := (xi - a) / (xi - xp)). set (axb := (xi - b) / (xi - xp)).
    assert (D : axb <= axa).
    { unfold axa, axb, Qdiv. apply Qmult_le_compat_r; [lra |].
      apply Qlt_le_weak, Qinv_lt_0_compat. lra. }
    assert (P : 0 <= (vi - vp) * (axa - axb)) by (apply Qmult_le_0_compat; lra).
    cbv zeta. lra.
  - destruct (Qeq_bool a xi) eqn:Ea; destruct (Qeq_bool b xi) eqn:Eb; try lra.
    apply Qeq_bool_iff in Ea. apply Qeq_bool_false in Eb.
    exfalso. apply Eb. lra.
  - destruct (Qeq_bool a xp) eqn:Ea; destruct (Qeq_bool b xp) eqn:Eb; try lra.
    apply Qeq_bool_iff in Eb. apply Qeq_bool_false in Ea.
    exfalso. apply Ea. lra.
  - destruct (Qltb (a - xp) (xi - a)) eqn:Ea;
      destruct (Qltb (b - xp) (xi - b)) eqn:Eb; try lra.
    apply Qltb_true in Eb. apply Qltb_false in Ea. lra.
Qed.

Lemma nondecreasing_le (vals : list Q) (N k l : Z) :
  nondecreasing vals N -> (0 <= k)%Z -> (k <= l)%Z -> (l < N)%Z ->
  get vals k <= get vals l.
Proof.
  intros Hnd Hk Hkl Hl.
  replace l with (k + Z.of_nat (Z.to_nat (l - k)))%Z by lia.
  assert (Hb : (k + Z.of_nat (Z.to_nat (l - k)) < N)%Z) by lia.
  revert Hb. generalize (Z.to_nat (l - k)) as d. induction d as [| d IH]; intros Hb.
  - replace (k + Z.of_nat 0)%Z with k by lia. lra.
  - assert (S1 : get vals (k + Z.of_nat d) <= get vals (k + Z.of_nat d + 1))
      by (apply Hnd; lia).
    replace (k + Z.of_nat (S d))%Z with (k + Z.of_nat d + 1)%Z by lia.
    assert (S2 : get vals k <= get vals (k + Z.of_nat d)) by (apply IH; lia).
    lra.
Qed.

(** X19.  The linear, floor, ceil and nearest rules preserve the order of
    the data: over a table whose values never decrease, two queries
    [a <= b] inside the range give results [va <= vb], whatever the cursor
    positions at the two calls. *)
Theorem lookup_monotone
        (args vals : list Q) (N : Z) (rule : TableImpl.interpolant)
        (built : Table.t) (c1 c2 : Z) (a b : Q) :
  (2 <= N)%Z -> ascending args N -> Z.of_nat (List.length vals) = N ->
  Table.new args vals N rule = Ok built -> rule <> TableImpl.spline ->
  (1 <= c1 <= N - 1)%Z -> (1 <= c2 <= N - 1)%Z ->
  get args 0 <= a -> a <= b -> b <= get args (N - 1) ->
  nondecreasing vals N ->
  exists va vb ta tb,
    Table.lookup (Table.set_cursor built c1) a = Ok (va, ta) /\
    Table.lookup (Table.set_cursor built c2) b = Ok (vb, tb) /\
    va <= vb.
Proof.
  intros HN Hasc Hv Hnew Hns Hc1 Hc2 Ha Hab Hb Hnd.
  destruct (lookup_in_range args vals N rule built c1 a HN Hasc Hv Hnew Hc1
              ltac:(split; lra))
    as (i & va & ta & Ra & Ia & Ba & Lta & Veca & Valsa & Tya).
  destruct (lookup_in_range args vals N rule built c2 b HN Hasc Hv Hnew Hc2
              ltac:(split; lra))
    as (j & vb & tb & Rb & Ib & Bb & Ltb & Vecb & Valsb & Tyb).
  exists va, vb, ta, tb. split; [exact Ra |]. split; [exact Rb |].
  destruct Hasc as [Hlen Hascb].
  assert (Hll : Z.of_nat (List.length args) = Z.of_nat (List.length vals)) by lia.
  rewrite (interpolate_cell_rule _ args vals a i Veca Valsa
             ltac:(rewrite Tya; exact Hns) Hll Ba) in Ia.
  rewrite (interpolate_cell_rule _ args vals b j Vecb Valsb
             ltac:(rewrite Tyb; exact Hns) Hll Bb) in Ib.
  rewrite Tya in Ia. rewrite Tyb in Ib.
  injection Ia as <-. injection Ib as <-.
  pose proof Ba as [Hi [A1 A2]]. pose proof Bb as [Hj [B1 B2]].
  assert (Vi : get vals (i - 1) <= get vals i).
  { replace i with (i - 1 + 1)%Z at 2 by lia. apply Hnd. lia. }
  assert (Vj : get vals (j - 1) <= get vals j).
  { replace j with (j - 1 + 1)%Z at 2 by lia. apply Hnd. lia. }
  pose proof (cell_rule_between rule _ _ _ _ a Hns Lta (conj A1 A2) Vi) as [Ka1 Ka2].
  pose proof (cell_rule_between rule _ _ _ _ b Hns Ltb (conj B1 B2) Vj) as [Kb1 Kb2].
  destruct (Z.lt_trichotomy i j) as [L | [E | G]].
  - assert (M : get vals i <= get vals (j - 1))
      by (apply (nondecreasing_le vals N); auto; lia).
    lra.
  - subst j. apply cell_rule_monotone; auto.
  - assert (M : get args j <= get args (i - 1))
      by (apply ascendingb_le; auto; lia).
    assert (Ea : a == get args (i - 1)) by lra.
    assert (Eb : b == get args j) by lra.
    assert (Eij : (i - 1)%Z = j).
    { destruct (Z.eq_dec (i - 1) j) as [|N']; [assumption |].
      assert (get args j < get args (i - 1)) by (apply ascendingb_lt; auto; lia).
      lra. }
    assert (Hok1 : table_ok (Table.set_cursor built c1))
      by (apply (built_table args vals N rule built c1 HN (conj Hlen Hascb) Hv Hnew Hc1)).
    assert (Hok2 : table_ok (Table.set_cursor built c2))
      by (apply (built_table args vals N rule built c2 HN (conj Hlen Hascb) Hv Hnew Hc2)).
    destruct (built_table args vals N rule built c1 HN (conj Hlen Hascb) Hv Hnew Hc1)
      as (_ & _ & _ & Hn1 & _).
    destruct (built_table args vals N rule built c2 HN (conj Hlen Hascb) Hv Hnew Hc2)
      as (_ & _ & _ & Hn2 & _).
    destruct (interpolate_at_sample (Table.set_cursor built c1) a i j Hok1
                ltac:(rewrite Veca; exact Ba) ltac:(rewrite Hn1; lia)
                ltac:(rewrite Veca, <- Eij; exact Ea)) as (wa & Wa & Qa).
    destruct (interpolate_at_sample (Table.set_cursor built c2) b j j Hok2
                ltac:(rewrite Vecb; exact Bb) ltac:(rewrite Hn2; lia)
                ltac:(rewrite Vecb; exact Eb)) as (wb & Wb & Qb).
    rewrite (interpolate_cell_rule _ args vals a i Veca Valsa
               ltac:(rewrite Tya; exact Hns) Hll Ba) in Wa.
    rewrite (interpolate_cell_rule _ args vals b j Vecb Valsb
               ltac:(rewrite Tyb; exact Hns) Hll Bb) in Wb.
    rewrite Tya in Wa. rewrite Tyb in Wb.
    injection Wa as <-. injection Wb as <-.
    rewrite Valsa in Qa. rewrite Valsb in Qb. lra.
Qed.

Lemma lookup_monotone_witness :
  exists va vb ta tb,
    Table.lookup
      (Table.set_cursor
         (TableImpl.mk TableImpl.nearest
            (ArgVec.mk [0; 1; 3] 3 (1 # 1000000) (2 # 1000000) false (3 # 2) 1)
            [1; 1; 4] 3 []) 2) (1 # 2) = Ok (va, ta) /\
    Table.lookup
      (Table.set_cursor
         (TableImpl.mk TableImpl.nearest
            (ArgVec.mk [0; 1; 3] 3 (1 # 1000000) (2 # 1000000) false (3 # 2) 1)
            [1; 1; 4] 3 []) 1) (5 # 2) = Ok (vb, tb) /\
    va <= vb.
Proof.
  apply (lookup_monotone [0; 1; 3] [1; 1; 4] 3 TableImpl.nearest).
  - lia.
  - split; reflexivity.
  - reflexivity.
  - reflexivity.
  - discriminate.
  - lia.
  - lia.
  - discriminate.
  - discriminate.
  - discriminate.
  - intros k Hk. assert (E : k = 0%Z \/ k = 1%Z) by lia.
    destruct E as [-> | ->]; discriminate.
Defined.

(** ** X20: the 2D floor, ceil and nearest rules pick a grid node *)

Lemma floor_axis (l : list Q) (a : Q) (i : Z) :
  ascendingb l = true -> bracket l a i ->
  let k := ((if Qeq_bool a (get l i) then i + 1 else i) - 1)%Z in
  (0 <= k < Z.of_nat (List.length l))%Z /\ get l k <= a /\
  ((k < Z.of_nat (List.length l) - 1)%Z -> a < get l (k + 1)).
Proof.
  intros Hasc [Hi [B1 B2]]. cbv zeta.
  destruct (Qeq_bool a (get l i)) eqn:E.
  - apply Qeq_bool_iff in E. replace (i + 1 - 1)%Z with i by lia.
    split; [lia |]. split; [lra |]. intros Hk.
    assert (get l i < get l (i + 1)) by (apply ascendingb_lt; auto; lia). lra.
  - apply Qeq_bool_false in E. split; [lia |]. split; [exact B1 |]. intros _.
    replace (i - 1 + 1)%Z with i by lia.
    apply Qle_lteq in B2. destruct B2; [assumption | contradiction].
Qed.

Lemma ceil_axis (l : list Q) (a : Q) (i : Z) :
  ascendingb l = true -> bracket l a i ->
  let k := (if Qeq_bool a (get l (i - 1)) then i - 1 else i)%Z in
  (0 <= k < Z.of_nat (List.length l))%Z /\ a <= get l k /\
  ((0 < k)%Z -> get l (k - 1) < a).
Proof.
  intros Hasc [Hi [B1 B2]]. cbv zeta.
  destruct (Qeq_bool a (get l (i - 1))) eqn:E.
  - apply Qeq_bool_iff in E. split; [lia |]. split; [lra |]. intros Hk.
    assert (get l (i - 1 - 1) < get l (i - 1)) by (apply ascendingb_lt; auto; lia).
    lra.
  - apply Qeq_bool_false in E. split; [lia |]. split; [exact B2 |]. intros _.
    apply Qle_lteq in B1. destruct B1 as [| B1]; [assumption |].
    exfalso. apply E. symmetry. exact B1.
Qed.

Lemma nearest_axis (l : list Q) (a : Q) (i : Z) :
  ascendingb l = true -> bracket l a i ->
  let k := (if Qltb (a - get l (i - 1)) (get l i - a) then i - 1 else i)%Z in
  (0 <= k < Z.of_nat (List.length l))%Z /\
  forall j, (0 <= j < Z.of_nat (List.length l))%Z ->
            Qabs (a - get l k) <= Qabs (a - get l j).
Proof.
  intros Hasc [Hi [B1 B2]]. cbv zeta.
  assert (Hfar : forall j, (0 <= j < Z.of_nat (List.length l))%Z ->
            Qabs (a - get l j) == a - get l j /\ get l j <= get l (i - 1) \/
            Qabs (a - get l j) == get l j - a /\ get l i <= get l j).
  { intros j Hj. destruct (Z.le_gt_cases j (i - 1)) as [L | G].
    - left. assert (get l j <= get l (i - 1)) by (apply ascendingb_le; auto; lia).
      split; [| assumption]. apply Qabs_pos. lra.
    - right. assert (get l i <= get l j) by (apply ascendingb_le; auto; lia).
      split; [| assumption]. rewrite Qabs_neg by lra. ring. }
  destruct (Qltb (a - get l (i - 1)) (get l i - a)) eqn:E.
  - apply Qltb_true in E. split; [lia |]. intros j Hj.
    rewrite (Qabs_pos (a - get l (i - 1))) by lra.
    destruct (Hfar j Hj) as [(-> & H) | (-> & H)]; lra.
  - apply Qltb_false in E. split; [lia |]. intros j Hj.
    assert (Ei : Qabs (a - get l i) == get l i - a).
    { rewrite Qabs_neg by lra. ring. }
    rewrite Ei. destruct (Hfar j Hj) as [(-> & H) | (-> & H)]; lra.
Qed.

(** X20.  For a query point inside the grid, the 2D floor, ceil and
    nearest rules return the stored value of one grid node [(ix, iy)]; the
    node is chosen axis by axis as in one dimension: the greatest
    coordinates not above the point (floor), the least not below it (ceil),
    or, over exact arithmetic, coordinates as close to the point as any
    other (nearest; the source compares the rounded distances on each
    axis). *)
Theorem grid_node_chosen
        (xargs yargs vals : list Q) (Nx Ny : Z) (kind : Table2D.interpolant)
        (built : Table2D.t) (cx cy : Z) (x y : Q) :
  (2 <= Nx)%Z -> (2 <= Ny)%Z -> ascending xargs Nx -> ascending yargs Ny ->
  Z.of_nat (List.length vals) = (Nx * Ny)%Z ->
  Table2D.new xargs yargs vals Nx Ny kind = Ok built ->
  kind <> Table2D.linear ->
  (1 <= cx <= Nx - 1)%Z -> (1 <= cy <= Ny - 1)%Z ->
  get xargs 0 <= x <= get xargs (Nx - 1) ->
  get yargs 0 <= y <= get yargs (Ny - 1) ->
  exists v tb' ix iy,
    Table2D.lookup (set_cursors2 built cx cy) x y = Ok (v, tb') /\
    (0 <= ix < Nx)%Z /\ (0 <= iy < Ny)%Z /\ v = get vals (ix * Ny + iy) /\
    (kind = Table2D.floor ->
     (get xargs ix <= x /\ ((ix < Nx - 1)%Z -> x < get xargs (ix + 1))) /\
     (get yargs iy <= y /\ ((iy < Ny - 1)%Z -> y < get yargs (iy + 1)))) /\
    (kind = Table2D.ceil ->
     (x <= get xargs ix /\ ((0 < ix)%Z -> get xargs (ix - 1) < x)) /\
     (y <= get yargs iy /\ ((0 < iy)%Z -> get yargs (iy - 1) < y))) /\
    (kind = Table2D.nearest ->
     (forall k, (0 <= k < Nx)%Z ->
                Qabs (x - get xargs ix) <= Qabs (x - get xargs k)) /\
     (forall k, (0 <= k < Ny)%Z ->
                Qabs (y - get yargs iy) <= Qabs (y - get yargs k))).
Proof.
  intros Hx Hy Ax Ay Hv Hnew Hnl Hcx Hcy Xr Yr.
  destruct (built_table2 xargs yargs vals Nx Ny kind built cx cy
              Hx Hy Ax Ay Hv Hnew Hcx Hcy)
    as (K & Kd & Vx & Nx' & Vy & Ny' & Vv & Hny).
  destruct (axes_spec _ x y K)
    as (i & xa & j & ya & Rx & Ry & _ & _ & Hi & Hj & _ & Bx & By).
  destruct (Table2D_lookup_value _ x y K) as (i' & xa' & j' & ya' & Rx' & Ry' & L).
  assert (i' = i) by congruence. assert (j' = j) by congruence. subst i' j'.
  rewrite L. rewrite Kd, Vx, Vy, Vv, Hny. rewrite Vx, Nx' in *. rewrite Vy, Ny' in *.
  specialize (Bx Xr). specialize (By Yr).
  destruct Ax as [Lx Ascx]. destruct Ay as [Ly Ascy].
  destruct kind; try congruence; unfold cell_value; cbv zeta.
  - destruct (floor_axis xargs x i Ascx Bx) as (F1 & F2 & F3).
    destruct (floor_axis yargs y j Ascy By) as (G1 & G2 & G3).
    cbv zeta in F1, F2, F3, G1, G2, G3.
    set (i1 := if Qeq_bool x (get xargs i) then (i + 1)%Z else i) in *.
    set (j1 := if Qeq_bool y (get yargs j) then (j + 1)%Z else j) in *.
    eexists. eexists. exists (i1 - 1)%Z, (j1 - 1)%Z.
    split; [reflexivity |]. split; [lia |]. split; [lia |].
    split; [f_equal; ring |].
    split; [| split; discriminate].
    intros _. rewrite Lx in F3. rewrite Ly in G3. tauto.
  - destruct (ceil_axis xargs x i Ascx Bx) as (F1 & F2 & F3).
    destruct (ceil_axis yargs y j Ascy By) as (G1 & G2 & G3).
    cbv zeta in F1, F2, F3, G1, G2, G3.
    set (i1 := if Qeq_bool x (get xargs (i - 1)) then (i - 1)%Z else i) in *.
    set (j1 := if Qeq_bool y (get yargs (j - 1)) then (j - 1)%Z else j) in *.
    eexists. eexists. exists i1, j1.
    split; [reflexivity |]. split; [lia |]. split; [lia |].
    split; [reflexivity |].
    split; [discriminate |]. split; [| discriminate].
    intros _. tauto.
  - destruct (nearest_axis xargs x i Ascx Bx) as (F1 & F2).
    destruct (nearest_axis yargs y j Ascy By) as (G1 & G2).
    cbv zeta in F1, F2, G1, G2.
    set (i1 := if Qltb (x - get xargs (i - 1)) (get xargs i - x)
               then (i - 1)%Z else i) in *.
    set (j1 := if Qltb (y - get yargs (j - 1)) (get yargs j - y)
               then (j - 1)%Z else j) in *.
    eexists. eexists. exists i1, j1.
    split; [reflexivity |]. split; [lia |]. split; [lia |].
    split; [reflexivity |].
    split; [discriminate |]. split; [discriminate |].
    intros _. rewrite Lx in F2. rewrite Ly in G2. split; assumption.
Qed.

Lemma grid_node_chosen_witness :
  exists v tb' ix iy,
    Table2D.lookup
      (set_cursors2
         (Table2D.mk Table2D.floor
            (T2DInterp.mk
               (ArgVec.mk [0; 1; 3] 3 (1 # 1000000) (2 # 1000000) false (3 # 2) 1)
               (ArgVec.mk [0; 2] 2 (2 # 1000000) (2 # 1000000) true (2 # 1) 1)
               [1; 2; 3; 4; 5; 6] 2)) 2 1) 2 1 = Ok (v, tb') /\
    (0 <= ix < 3)%Z /\ (0 <= iy < 2)%Z /\ v = get [1; 2; 3; 4; 5; 6] (ix * 2 + iy) /\
    (Table2D.floor = Table2D.floor ->
     (get [0; 1; 3] ix <= 2 /\ ((ix < 3 - 1)%Z -> 2 < get [0; 1; 3] (ix + 1))) /\
     (get [0; 2] iy <= 1 /\ ((iy < 2 - 1)%Z -> 1 < get [0; 2] (iy + 1)))) /\
    (Table2D.floor = Table2D.ceil ->
     (2 <= get [0; 1; 3] ix /\ ((0 < ix)%Z -> get [0; 1; 3] (ix - 1) < 2)) /\
     (1 <= get [0; 2] iy /\ ((0 < iy)%Z -> get [0; 2] (iy - 1) < 1))) /\
    (Table2D.floor = Table2D.nearest ->
     (forall k, (0 <= k < 3)%Z ->
                Qabs (2 - get [0; 1; 3] ix) <= Qabs (2 - get [0; 1; 3] k)) /\
     (forall k, (0 <= k < 2)%Z ->
                Qabs (1 - get [0; 2] iy) <= Qabs (1 - get [0; 2] k))).
Proof.
  apply (grid_node_chosen [0; 1; 3] [0; 2] [1; 2; 3; 4; 5; 6] 3 2 Table2D.floor).
  - lia.
  - lia.
  - split; reflexivity.
  - split; reflexivity.
  - reflexivity.
  - reflexivity.
  - discriminate.
  - lia.
  - lia.
  - split; discriminate.
  - split; discriminate.
Defined.
